(** * rsprime: Reed-Solomon coding over a prime field GF(p)

    A shallow embedding of [rsprime/pfint.py], [rsprime/mapper.py] and
    [rsprime/rscoder.py], followed by the properties of the codec.

    Python integers are [Z]; Python [str] values are [seq ascii]; a call that
    may raise returns a [result].  The one computation on floats,
    [int(math.sqrt(n))] in [is_prime], is written on the integers with the
    rounding of IEEE doubles.  Integers and lists are as large as they need
    to be: no [MemoryError] is modelled.  The algebra of the proofs is done in
    MathComp's ['F_p] and [{poly 'F_p}], to which the executable list model
    is related by an abstraction function. *)

Set Warnings "-notation-overridden,-ambiguous-paths,-notation-incompatible-prefix,-deprecated,-register-all".
From HB Require Import structures.
From mathcomp Require Import ssreflect ssrfun ssrbool eqtype ssrnat seq div.
From mathcomp Require Import prime choice fintype bigop.
From mathcomp Require Import ssralg poly polydiv zmodp fingroup cyclic finfield.
From Stdlib Require Import ZArith Lia Ascii String.

Set Implicit Arguments.
Unset Strict Implicit.
Unset Printing Implicit Defensive.

(* ===================================================================== *)
(** ** Python preliminaries *)
(* ===================================================================== *)

HB.instance Definition _ := hasDecEq.Build Z Z.eqb_spec.
HB.instance Definition _ := hasDecEq.Build ascii Ascii.eqb_spec.

(** The exceptions the three modules can raise. *)
Inductive exn : Set :=
| ValueError | TypeError | IndexError | KeyError | ZeroDivisionError
| OverflowError | Exception.

Inductive result (A : Type) : Type :=
| Ok (a : A)
| Raise (e : exn).
Arguments Ok {A} a.
Arguments Raise {A} e.

Definition bind {A B} (m : result A) (f : A -> result B) : result B :=
  match m with
  | Ok a => f a
  | Raise e => Raise e
  end.

Declare Scope py_scope.
Delimit Scope py_scope with py.
Notation "x <-- m ;; k" := (bind m (fun x => k))
  (at level 61, m at next level, right associativity) : py_scope.
Notation "' pat <-- m ;; k" := (bind m (fun x => match x with pat => k end))
  (at level 61, pat pattern, m at next level, right associativity) : py_scope.
Local Open Scope py_scope.

(** [map] over a call that may raise: the first exception wins, as in a
    Python comprehension. *)
Section MapM.

Variables (A B : Type) (f : A -> result B).

Fixpoint mapM (s : seq A) : result (seq B) :=
  match s with
  | [::] => Ok [::]
  | x :: s' => y <-- f x ;; ys <-- mapM s' ;; Ok (y :: ys)
  end.

End MapM.

(** The same over a call that also changes a state [S], threaded from
    one element to the next; an exception ends the traversal. *)
Section MapMSt.

Variables (A B S : Type) (f : S -> A -> result B * S).

Fixpoint mapM_st (c : S) (s : seq A) : result (seq B) * S :=
  match s with
  | [::] => (Ok [::], c)
  | x :: s' =>
      match f c x with
      | (Ok y, c1) =>
          let: (ys, c2) := mapM_st c1 s' in
          (ys <-- ys ;; Ok (y :: ys), c2)
      | (Raise e, c1) => (Raise e, c1)
      end
  end.

End MapMSt.

(** [range(start, stop, step)] for a positive [step]. *)
Definition range3 (start stop step : Z) : seq Z :=
  [seq (start + step * Z.of_nat i)%Z
  | i <- iota 0 (Z.to_nat ((stop - start + step - 1) / step))].

(** [range(stop)] and [xrange(start, stop)]. *)
Definition range (stop : Z) : seq Z := range3 0 stop 1.
Definition xrange (start stop : Z) : seq Z := range3 start stop 1.

(** The three-argument [pow(x, e, m)] for [e >= 0]. *)
Definition pow3 (x e m : Z) : Z := ((x ^ e) mod m)%Z.

(** [l[i]] on a list, negative indices counting from the end. *)
Definition getitem {A} (l : seq A) (i : Z) : result A :=
  let j := (if i <? 0 then i + Z.of_nat (size l) else i)%Z in
  if (j <? 0)%Z then Raise IndexError
  else match List.nth_error l (Z.to_nat j) with
       | Some x => Ok x
       | None => Raise IndexError
       end.

(** [s.rjust(w, c)], [s.lstrip(c)] and the slice [s[:-d]] for [d > 0]. *)
Definition rjust {A} (s : seq A) (w : Z) (c : A) : seq A :=
  nseq (Z.to_nat w - size s) c ++ s.

Fixpoint lstrip {A : eqType} (s : seq A) (c : A) : seq A :=
  match s with
  | x :: s' => if x == c then lstrip s' c else s
  | [::] => [::]
  end.

Definition drop_last {A} (s : seq A) (d : Z) : seq A :=
  take (size s - Z.to_nat d) s.

(* ===================================================================== *)
(** ** pfint.py *)
(* ===================================================================== *)

Module Pfint.

(** The conversion of an [int] to a [float] that [math.sqrt] starts with:
    the nearest double, ties to the even significand of 53 bits, and
    [OverflowError] when that is [2^1024] or more.  A double that is an
    integer is written as that integer. *)
Definition float_round (n : Z) : Z :=
  let e := (Z.log2 n + 1 - 53)%Z in
  if (e <=? 0)%Z then n
  else
    let m := (n / 2 ^ e)%Z in
    let r := (n mod 2 ^ e)%Z in
    let half := (2 ^ (e - 1))%Z in
    let m' := if (r >? half)%Z || ((r =? half)%Z && Z.odd m)
              then (m + 1)%Z else m in
    (m' * 2 ^ e)%Z.

Definition float_of_int (n : Z) : result Z :=
  let f := float_round n in
  if (f >=? 2 ^ 1024)%Z then Raise OverflowError else Ok f.

(** [int(math.sqrt(f))] for a double [f >= 0] that is an integer: the
    square root is rounded to the nearest double, [t] being its significand
    of 53 bits before rounding and [2 ^ (e - 52)] the weight of its last
    bit, and [int] then drops the fraction. *)
Definition int_sqrt (f : Z) : Z :=
  if (f <=? 0)%Z then 0%Z
  else
    let e := (Z.log2 f / 2)%Z in
    if (e <=? 52)%Z then
      let w := (2 ^ (52 - e))%Z in
      let t := Z.sqrt (f * (w * w)) in
      let t' := if (f * (w * w) >? t * t + t)%Z then (t + 1)%Z else t in
      (t' / w)%Z
    else
      let w := (2 ^ (e - 52))%Z in
      let t := Z.sqrt (f / (w * w)) in
      let mid := ((t * t + t) * (w * w) + w * w / 4)%Z in
      let t' := if (f >? mid)%Z || ((f =? mid)%Z && Z.odd t)
                then (t + 1)%Z else t in
      (t' * w)%Z.

(** [is_prime(n)]; [n] is an [int] or a [long]. *)
Definition is_prime (n : Z) : result bool :=
  if ((n <? 2) || ((n mod 2 =? 0) && (n >? 2)))%Z then Ok false
  else
    f <-- float_of_int n ;;
    Ok (all (fun i => ~~ (n mod i =? 0)%Z) (range3 3 (int_sqrt f + 1) 2)).

(** An instance of [PFint]: an [int] carrying the order [p] of its field. *)
Record PFint : Set := mkPF { pf_p : Z; pf_v : Z }.

(** The objects that reach [PFint.__new__] and its methods: [None], a plain
    [int], an instance, or the class [PF<p>int] that [PFint(p)] returns. *)
Inductive pyobj : Set :=
| PyNone
| PyInt (z : Z)
| PyPF (x : PFint)
| PyType (p : Z).

(** [PFint.__new__(cls, p, n=None)].  The cache only ever holds instances
    that passed the range test, so a hit returns what a miss would build.
    A class object compares greater than every number in Python 2. *)
Definition PFint_new (p : Z) (n : pyobj) : result pyobj :=
  ok <-- is_prime p ;;
  if ~~ ok then Raise ValueError
  else match n with
       | PyNone => Ok (PyType p)
       | PyInt z | PyPF (mkPF _ z) =>
           if ((z >=? p) || (z <? 0))%Z then Raise ValueError
           else Ok (PyPF (mkPF p z))
       | PyType _ => Raise ValueError
       end.

(** [PFint.__new__] with [PFint.cache] written out: the cache is the list
    of the pairs [(p, n)] an instance is stored for, the most recent
    first.  A hit returns the stored instance before any range test; a
    miss that passes the test stores the new one. *)
Definition cache : Set := seq (Z * Z).

Definition PFint_new_st (c : cache) (p : Z) (n : pyobj)
  : result pyobj * cache :=
  match is_prime p with
  | Raise e => (Raise e, c)
  | Ok false => (Raise ValueError, c)
  | Ok true =>
      match n with
      | PyNone => (Ok (PyType p), c)
      | PyInt z | PyPF (mkPF _ z) =>
          if (p, z) \in c then (Ok (PyPF (mkPF p z)), c)
          else if ((z >=? p) || (z <? 0))%Z then (Raise ValueError, c)
          else (Ok (PyPF (mkPF p z)), (p, z) :: c)
      | PyType _ => (Raise ValueError, c)
      end
  end.

(** [PFint.invtable[p]], as filled in by the first instance of the field. *)
Definition invtable (p : Z) : seq pyobj :=
  match [seq PyInt (pow3 x (p - 2) p) | x <- range3 0 p 1] with
  | _ :: t => PyNone :: t
  | [::] => [::]
  end.

(** [int(x)] *)
Definition int_ (x : pyobj) : result Z :=
  match x with
  | PyInt z => Ok z
  | PyPF x => Ok (pf_v x)
  | _ => Raise TypeError
  end.

(** A method looked up on an object: only instances have them bound. *)
Definition as_PF (x : pyobj) : result PFint :=
  match x with
  | PyPF x => Ok x
  | _ => Raise TypeError
  end.

(** The shared prologue of the binary operators. *)
Definition coerce (self : PFint) (other : pyobj) : result pyobj :=
  match other with
  | PyPF o => if pf_p self != pf_p o then Raise ValueError else Ok other
  | _ => PFint_new (pf_p self) other
  end.

Definition __add__ (self : PFint) (other : pyobj) : result pyobj :=
  o <-- coerce self other ;; b <-- int_ o ;;
  PFint_new (pf_p self) (PyInt ((pf_v self + b) mod pf_p self)).
Definition __radd__ := __add__.

Definition __sub__ (self : PFint) (other : pyobj) : result pyobj :=
  o <-- coerce self other ;; b <-- int_ o ;;
  PFint_new (pf_p self) (PyInt ((pf_v self - b) mod pf_p self)).

Definition __rsub__ (self : PFint) (other : pyobj) : result pyobj :=
  o <-- coerce self other ;; b <-- int_ o ;;
  PFint_new (pf_p self) (PyInt ((b - pf_v self) mod pf_p self)).

Definition __neg__ (self : PFint) : result pyobj :=
  PFint_new (pf_p self) (PyInt ((pf_p self - pf_v self) mod pf_p self)).

Definition __mul__ (self : PFint) (other : pyobj) : result pyobj :=
  o <-- coerce self other ;; b <-- int_ o ;;
  PFint_new (pf_p self) (PyInt ((pf_v self * b) mod pf_p self)).
Definition __rmul__ := __mul__.

Definition inverse (self : PFint) : result pyobj :=
  x <-- getitem (invtable (pf_p self)) (pf_v self) ;;
  PFint_new (pf_p self) x.

Definition __pow__ (self : PFint) (power : pyobj) : result pyobj :=
  match power with
  | PyInt e =>
      if (e <? 0)%Z then
        x <-- PFint_new (pf_p self) (PyInt (pow3 (pf_v self) (- e) (pf_p self))) ;;
        x <-- as_PF x ;; inverse x
      else PFint_new (pf_p self) (PyInt (pow3 (pf_v self) e (pf_p self)))
  | _ => Raise TypeError
  end.

Definition __div__ (self : PFint) (other : pyobj) : result pyobj :=
  o <-- coerce self other ;; o <-- as_PF o ;;
  i <-- inverse o ;; __mul__ self i.

(** [self.inverse() * other]: when the left operand is not an instance the
    product falls back to [other.__rmul__]. *)
Definition __rdiv__ (self : PFint) (other : pyobj) : result pyobj :=
  o <-- coerce self other ;;
  i <-- inverse self ;;
  match i with
  | PyPF i => __mul__ i o
  | _ => o <-- as_PF o ;; __rmul__ o i
  end.

End Pfint.

(* ===================================================================== *)
(** ** mapper.py *)
(* ===================================================================== *)

Module Mapper.

(** A [dict] as an association list: the most recent binding of a key is
    the first one met. *)
Fixpoint dict_get {K : eqType} {V} (d : seq (K * V)) (k : K) : option V :=
  match d with
  | (k', v) :: d' => if k' == k then Some v else dict_get d' k
  | [::] => None
  end.

Definition dict_set {K : eqType} {V} (d : seq (K * V)) (k : K) (v : V) :=
  (k, v) :: d.

(** The values [_conv] is applied to: an [int], a [str], a list or tuple. *)
Inductive pydata : Set :=
| DInt (z : Z)
| DStr (s : seq ascii)
| DList (l : seq pydata).

Record Mapper : Set :=
  mkMapper { table_c2n : seq (ascii * Z); table_n2c : seq (Z * ascii) }.

(** One of the two tables of a mapper, as handed to [_conv]. *)
Inductive table : Set :=
| C2N (t : seq (ascii * Z))
| N2C (t : seq (Z * ascii)).

Definition __init__ (alphabet : seq ascii) (equivs : seq (ascii * ascii))
  : result Mapper :=
  let fill := foldl (fun m ic =>
                let: (i, c) := ic in
                mkMapper (dict_set (table_c2n m) c i)
                         (dict_set (table_n2c m) i c))
              (mkMapper [::] [::])
              (zip (range (Z.of_nat (size alphabet))) alphabet) in
  c2n <-- foldl (fun t tup =>
            t <-- t ;;
            match dict_get t tup.2 with
            | Some v => Ok (dict_set t tup.1 v)
            | None => Raise KeyError
            end) (Ok (table_c2n fill)) equivs ;;
  Ok (mkMapper c2n (table_n2c fill)).

(** [_conv] on an [int] or on a one-character [str]. *)
Definition conv_int (t : table) (z : Z) : result pydata :=
  match t with
  | N2C d => if dict_get d z is Some c then Ok (DStr [:: c])
             else Raise ValueError
  | C2N _ => Raise ValueError
  end.

Definition conv_chr (t : table) (c : ascii) : pydata :=
  match t with
  | C2N d => if dict_get d c is Some z then DInt z else DInt (-1)
  | N2C _ => DInt (-1)
  end.

(** What [_conv] does with the list [r] of converted elements. *)
Definition conv_join (r : seq pydata) : result pydata :=
  match r with
  | [::] => Raise IndexError
  | DStr _ :: _ =>
      s <-- mapM (fun x => if x is DStr s then Ok s else Raise TypeError) r ;;
      Ok (DStr (flatten s))
  | _ => Ok (DList r)
  end.

(** [_conv(table, data)].  A [str] of length other than one is converted as
    the list of its characters. *)
Fixpoint _conv (t : table) (data : pydata) {struct data} : result pydata :=
  match data with
  | DInt z => conv_int t z
  | DStr [:: c] => Ok (conv_chr t c)
  | DStr s => conv_join [seq conv_chr t c | c <- s]
  | DList l => r <-- mapM (_conv t) l ;; conv_join r
  end.

Definition encode (self : Mapper) (data : pydata) : result pydata :=
  _conv (N2C (table_n2c self)) data.

Definition decode (self : Mapper) (data : pydata) : result pydata :=
  _conv (C2N (table_c2n self)) data.

Definition pad (self : Mapper) (s : seq ascii) (w : Z) : result (seq ascii) :=
  if dict_get (table_n2c self) 0%Z is Some c then Ok (rjust s w c)
  else Raise KeyError.

Definition strip (self : Mapper) (s : seq ascii) : result (seq ascii) :=
  if dict_get (table_n2c self) 0%Z is Some c then Ok (lstrip s c)
  else Raise KeyError.

End Mapper.

(* ===================================================================== *)
(** ** Polynomials over GF(p) *)
(* ===================================================================== *)

(** Modelled from the spec: [rsprime/polynomial.py], the [Polynomial] class
    that [rscoder.py] imports, is not part of the sources at hand.  The
    definitions below follow sections 3.2 and 4.2 of the specification: a
    polynomial is its coefficient sequence in descending degree order,
    without leading zeros, the zero polynomial being [[:: 0]]; the
    coefficients are residues modulo [p], combined by the field operations
    of section 4.1. *)
Module Polynomial.

Section Ops.

Variable p : Z.

(** The field operations of section 4.1 on residues. *)
Definition fadd (a b : Z) : Z := ((a + b) mod p)%Z.
Definition fsub (a b : Z) : Z := ((a - b) mod p)%Z.
Definition fneg (a : Z) : Z := ((p - a) mod p)%Z.
Definition fmul (a b : Z) : Z := ((a * b) mod p)%Z.
Definition finv (a : Z) : Z := pow3 a (p - 2) p.
Definition fdiv (a b : Z) : Z := fmul a (finv b).

(** Normalisation: strip leading zeros, never trailing ones. *)
Definition normalize (c : seq Z) : seq Z :=
  if lstrip c 0%Z is x :: c' then x :: c' else [:: 0%Z].

(** The three constructions: from a coefficient sequence, a constant, and
    the monomial [c * x^d]. *)
Definition Polynomial (coefficients : seq Z) : seq Z := normalize coefficients.
Definition constant (c : Z) : seq Z := [:: c].
Definition monomial (c : Z) (d : nat) : seq Z := normalize (c :: nseq d 0%Z).

Definition degree (u : seq Z) : nat := (size u).-1.
Definition lead (u : seq Z) : Z := head 0%Z u.

(** [get_coefficient(i)]: the coefficient of [x^i], zero above the degree. *)
Definition get_coefficient (u : seq Z) (i : nat) : Z :=
  if degree u < i then 0%Z else nth 0%Z u (degree u - i).

(** Addition and subtraction: align the constant terms, pad the shorter
    sequence on the high-degree side, combine, normalise. *)
Definition align (u v : seq Z) : seq (Z * Z) :=
  zip (nseq (size v - size u) 0%Z ++ u) (nseq (size u - size v) 0%Z ++ v).

Definition padd (u v : seq Z) : seq Z :=
  normalize [seq fadd c.1 c.2 | c <- align u v].

Definition psub (u v : seq Z) : seq Z :=
  normalize [seq fsub c.1 c.2 | c <- align u v].

(** Multiplication: the schoolbook convolution, the coefficient of [x^t]
    collecting every [a_i * b_j] with [i + j = t]. *)
Definition convolve (u v : seq Z) (t : nat) : Z :=
  foldr (fun i acc => fadd (fmul (get_coefficient u i)
                                 (get_coefficient v (t - i))) acc)
        0%Z (iota 0 t.+1).

Definition pmul (u v : seq Z) : seq Z :=
  normalize (rev [seq convolve u v t | t <- iota 0 (size u + size v).-1]).

(** Long division.  Each turn of the loop cancels the leading term of the
    remainder, so [size u] turns are enough for the loop to reach its exit
    test (lemma [divmod_loop_exit] below). *)
Fixpoint divmod_loop (turns : nat) (v q r : seq Z) : seq Z * seq Z :=
  if turns is turns'.+1 then
    if (degree v <= degree r) && (r != [:: 0%Z]) then
      let t := fdiv (lead r) (lead v) in
      let d := degree r - degree v in
      divmod_loop turns' v (padd q (monomial t d))
                  (psub r (pmul (monomial t d) v))
    else (q, r)
  else (q, r).

Definition pdivmod (u v : seq Z) : result (seq Z * seq Z) :=
  if v == [:: 0%Z] then Raise ZeroDivisionError
  else Ok (divmod_loop (size u) v [:: 0%Z] u).

Definition pfloordiv (u v : seq Z) : result (seq Z) :=
  qr <-- pdivmod u v ;; Ok qr.1.

Definition pmod (u v : seq Z) : result (seq Z) :=
  qr <-- pdivmod u v ;; Ok qr.2.

(** Evaluation by Horner's rule, from the highest coefficient down. *)
Definition evaluate (u : seq Z) (z : Z) : Z :=
  foldl (fun acc c => fadd (fmul acc z) c) 0%Z u.

End Ops.

End Polynomial.

(* ===================================================================== *)
(** ** rscoder.py *)
(* ===================================================================== *)

Module Rscoder.

Import Pfint Mapper Polynomial.

Definition mapper_default_alphabet : seq ascii :=
  list_ascii_of_string
    "0123456789abcdefghijkmnopqrstuvwxyzABCDEFGHJKLMNPQRSTUVWXYZ".

Definition mapper_default_equivs : seq (ascii * ascii) :=
  [:: ("O", "0"); ("I", "1"); ("l", "1")]%char.

(** [findgen(x)]; [None] when the loop falls through. *)
Definition findgen (x : Z) : option Z :=
  let unique g := undup [seq pow3 g n x | n <- range x] in
  ohead [seq g <- range x | Z.of_nat (size (unique g)) == (x - 1)%Z].

Record RSCoder : Set := mkRSCoder {
  mapper : Mapper;
  a : pyobj;
  b : Z;
  n : Z;
  k : Z;
  g : seq Z;
  h : seq Z
}.

(** The value of a field element placed in a polynomial. *)
Definition val (x : result pyobj) : result Z :=
  x <-- x ;; x <-- as_PF x ;; Ok (pf_v x).

(** A [for] loop whose body may raise. *)
Definition foldM {A S} (f : S -> A -> result S) (s0 : S) (xs : seq A)
  : result S :=
  foldl (fun acc x => s <-- acc ;; f s x) (Ok s0) xs.

Definition __init__ (b n k : Z) (mapper : option Mapper) : result RSCoder :=
  if ((n <? 0) || (k <? 0))%Z then Raise ValueError else
  if ~~ (n <? b)%Z then Raise ValueError else
  if ~~ (k <? n)%Z then Raise ValueError else
  mp <-- match mapper with
        | None =>
            if (b <=? Z.of_nat (size mapper_default_alphabet))%Z
            then Mapper.__init__ mapper_default_alphabet mapper_default_equivs
            else Raise ValueError
        | Some m => Ok m
        end ;;
  _ <-- PFint_new b PyNone ;;
  a <-- PFint_new b (if findgen b is Some x then PyInt x else PyNone) ;;
  one <-- val (PFint_new b (PyInt 1)) ;;
  g <-- foldM (fun g l =>
         x <-- PFint_new b a ;; x <-- as_PF x ;;
         x <-- __pow__ x (PyInt l) ;; x <-- as_PF x ;;
         c <-- val (__neg__ x) ;;
         one <-- val (PFint_new b (PyInt 1)) ;;
         Ok (pmul b g (Polynomial [:: one; c])))
       (Polynomial [:: one]) (xrange 1 (n - k + 1)) ;;
  one <-- val (PFint_new b (PyInt 1)) ;;
  h <-- foldM (fun h l =>
         x <-- PFint_new b a ;; x <-- as_PF x ;;
         c <-- val (__pow__ x (PyInt l)) ;;
         one <-- val (PFint_new b (PyInt 1)) ;;
         Ok (pmul b h (Polynomial [:: one; c])))
       (Polynomial [:: one]) (xrange (n - k + 1) (n + 1)) ;;
  Ok (mkRSCoder mp a b n k g h).

(** [[self.PFint(x) for x in self.mapper.decode(s)]]: a one-character [s]
    decodes to a bare [int], which cannot be iterated over. *)
Definition symbols (self : RSCoder) (s : seq ascii) : result (seq Z) :=
  d <-- Mapper.decode (mapper self) (DStr s) ;;
  match d with
  | DList l =>
      mapM (fun x => if x is DInt z then val (PFint_new (b self) (PyInt z))
                     else Raise ValueError) l
  | _ => Raise TypeError
  end.

(** The same comprehension with [PFint.cache] threaded through the calls
    of [self.PFint]: it is the first thing [encode], [verify] and [decode]
    do with a word. *)
Definition symbols_st (c : cache) (self : RSCoder) (s : seq ascii)
  : result (seq Z) * cache :=
  match Mapper.decode (mapper self) (DStr s) with
  | Ok (DList l) =>
      mapM_st (fun c x =>
                 if x is DInt z then
                   let: (r, c') := PFint_new_st c (b self) (PyInt z) in
                   (val r, c')
                 else (Raise ValueError, c)) c l
  | Ok _ => (Raise TypeError, c)
  | Raise e => (Raise e, c)
  end.

(** [self.mapper.encode(coefficients)], a string. *)
Definition chars (self : RSCoder) (c : seq Z) : result (seq ascii) :=
  d <-- Mapper.encode (mapper self) (DList [seq DInt z | z <- c]) ;;
  if d is DStr s then Ok s else Raise TypeError.

(** What [encode] returns: the polynomial when [poly] is set, else a string. *)
Inductive encoded : Set :=
| AsPoly (c : seq Z)
| AsStr (s : seq ascii).

Definition encode (self : RSCoder) (message : seq ascii)
    (poly nostrip : bool) : result encoded :=
  let n := n self in
  let k := k self in
  message <-- pad (mapper self) message k ;;
  if (Z.of_nat (size message) >? k)%Z then Raise ValueError else
  m <-- symbols self message ;;
  let m := Polynomial m in
  one <-- val (PFint_new (b self) (PyInt 1)) ;;
  zero <-- val (PFint_new (b self) (PyInt 0)) ;;
  let mprime :=
    pmul (b self) m (Polynomial (one :: nseq (Z.to_nat (n - k)) zero)) in
  b_ <-- pmod (b self) mprime (g self) ;;
  let c := psub (b self) mprime b_ in
  if poly then Ok (AsPoly c) else
  ret <-- chars self c ;;
  if nostrip then ret <-- pad (mapper self) ret n ;; Ok (AsStr ret)
  else Ok (AsStr ret).

Definition verify (self : RSCoder) (code : seq ascii) : result bool :=
  c <-- symbols self code ;;
  let c := Polynomial c in
  r <-- pmod (b self) c (g self) ;;
  Ok (r == constant 0%Z).

Definition _syndromes (self : RSCoder) (r : seq Z) : result (seq Z) :=
  zero <-- val (PFint_new (b self) (PyInt 0)) ;;
  t <-- PFint_new (b self) (PyInt 1) ;;
  ts <-- foldM (fun ts l =>
          let: (t, s) := ts in
          t <-- as_PF t ;; t <-- __mul__ t (a self) ;;
          tv <-- val (Ok t) ;;
          Ok (t, rcons s (evaluate (b self) r tv)))
        (t, [:: zero]) (xrange 1 (n self - k self + 1)) ;;
  Ok (Polynomial (rev ts.2)).

(** The six lists [_berlekamp_massey] appends to on every turn. *)
Record bm_lists : Set := mkBM {
  sigma : seq (seq Z);
  omega : seq (seq Z);
  tao : seq (seq Z);
  gamma : seq (seq Z);
  D : seq Z;
  B : seq Z
}.

Definition bm_turn (self : RSCoder) (s : seq Z) (st : bm_lists) (l : Z)
  : result bm_lists :=
  let q := b self in
  ONE <-- val (PFint_new q (PyInt 1)) ;; let ONE := constant ONE in
  ZERO <-- val (PFint_new q (PyInt 0)) ;; let ZERO := constant ZERO in
  Z1 <-- val (PFint_new q (PyInt 1)) ;; let Z := monomial Z1 1 in
  sigma_l <-- getitem (sigma st) l ;;
  omega_l <-- getitem (omega st) l ;;
  tao_l <-- getitem (tao st) l ;;
  gamma_l <-- getitem (gamma st) l ;;
  D_l <-- getitem (D st) l ;;
  B_l <-- getitem (B st) l ;;
  let Delta :=
    get_coefficient (pmul q (padd q ONE s) sigma_l) (Z.to_nat (l + 1)) in
  let Delta := constant Delta in
  let sigma' := rcons (sigma st) (psub q sigma_l (pmul q (pmul q Delta Z) tao_l)) in
  let omega' := rcons (omega st) (psub q omega_l (pmul q (pmul q Delta Z) gamma_l)) in
  let rule_A :=
    Ok (mkBM sigma' omega' (rcons (tao st) (pmul q Z tao_l))
             (rcons (gamma st) (pmul q Z gamma_l))
             (rcons (D st) D_l) (rcons (B st) B_l)) in
  let rule_B :=
    t <-- pfloordiv q sigma_l Delta ;;
    c <-- pfloordiv q omega_l Delta ;;
    Ok (mkBM sigma' omega' (rcons (tao st) t) (rcons (gamma st) c)
             (rcons (D st) (l + 1 - D_l)%Z) (rcons (B st) (1 - B_l)%Z)) in
  if (Delta == ZERO) || (2 * D_l >? l + 1)%Z then rule_A
  else if (Delta != ZERO) && (2 * D_l <? l + 1)%Z then rule_B
  else if (2 * D_l =? l + 1)%Z then
    if (B_l =? 0)%Z then rule_A else rule_B
  else Raise Exception.

(** The state of the lists when the loop of [_berlekamp_massey] is left. *)
Definition bm_loop (self : RSCoder) (s : seq Z) : result bm_lists :=
  one <-- val (PFint_new (b self) (PyInt 1)) ;;
  zero <-- val (PFint_new (b self) (PyInt 0)) ;;
  foldM (bm_turn self s)
    (mkBM [:: Polynomial [:: one]] [:: Polynomial [:: one]]
          [:: Polynomial [:: one]] [:: Polynomial [:: zero]]
          [:: 0%Z] [:: 0%Z])
    (xrange 0 (n self - k self)).

Definition _berlekamp_massey (self : RSCoder) (s : seq Z)
  : result (seq Z * seq Z) :=
  st <-- bm_loop self s ;;
  sg <-- getitem (sigma st) (-1) ;;
  om <-- getitem (omega st) (-1) ;;
  Ok (sg, om).

Definition _chien_search (self : RSCoder) (sigma : seq Z)
  : result (seq pyobj * seq Z) :=
  p <-- as_PF (a self) ;;
  foldM (fun Xj l =>
      let: (X, j) := Xj in
      pl <-- val (__pow__ p (PyInt l)) ;;
      if evaluate (b self) sigma pl == 0%Z then
        x <-- __pow__ p (PyInt (- l)) ;;
        Ok (rcons X x, rcons j (b self - 1 - l)%Z)
      else Ok (X, j))
    ([::], [::]) (xrange 1 (b self - 1)).

Definition _forney (self : RSCoder) (omega : seq Z) (X : seq pyobj)
  : result (seq pyobj) :=
  foldM (fun Y lXl =>
      let: (l, Xl) := lXl in
      Xl <-- as_PF Xl ;;
      xi <-- val (inverse Xl) ;;
      let Yl := mkPF (b self) (evaluate (b self) omega xi) in
      prod <-- PFint_new (b self) (PyInt 1) ;;
      prod <-- foldM (fun prod ji =>
                if ji != l then
                  Xji <-- getitem X ji ;; Xji <-- as_PF Xji ;;
                  i <-- inverse Xl ;;
                  t <-- __mul__ Xji i ;;
                  one <-- PFint_new (b self) (PyInt 1) ;; one <-- as_PF one ;;
                  d <-- __sub__ one t ;;
                  prod <-- as_PF prod ;;
                  __mul__ prod d
                else Ok prod)
              prod (xrange 0 (Z.of_nat (size X))) ;;
      prod <-- as_PF prod ;;
      i <-- inverse prod ;;
      Yl <-- __mul__ Yl i ;;
      Ok (rcons Y Yl))
    [::] (zip (range (Z.of_nat (size X))) X).

(** [j.index(i)] for an [i] that occurs in [j]. *)
Definition index_of (i : Z) (j : seq Z) : Z := Z.of_nat (seq.index i j).

Definition decode (self : RSCoder) (r : seq ascii) (nostrip : bool)
  : result (seq ascii) :=
  let n := n self in
  let k := k self in
  tek <-- symbols self r ;;
  ok <-- verify self r ;;
  if ok then
    if nostrip then Ok (drop_last r (n - k))
    else strip (mapper self) (drop_last r (n - k))
  else
  r <-- symbols self r ;;
  let r := Polynomial r in
  sz <-- _syndromes self r ;;
  '(sigma, omega) <-- _berlekamp_massey self sz ;;
  '(X, j) <-- _chien_search self sigma ;;
  Y <-- _forney self omega X ;;
  Elist <-- foldM (fun Elist i =>
             if i \in j then
               y <-- getitem Y (index_of i j) ;;
               e <-- val (PFint_new (b self) y) ;;
               Ok (rcons Elist e)
             else
               e <-- val (PFint_new (b self) (PyInt 0)) ;;
               Ok (rcons Elist e))
           [::] (xrange 0 (b self - 1)) ;;
  let E := Polynomial (rev Elist) in
  let c := psub (b self) r E in
  ret <-- chars self (drop_last c (n - k)) ;;
  if nostrip then pad (mapper self) ret k else Ok ret.

End Rscoder.

(* ===================================================================== *)
(** ** Vocabulary of the statements *)
(* ===================================================================== *)

Import Pfint Mapper Polynomial Rscoder.

(** A string literal as a Python [str]. *)
Definition str (s : string) : seq ascii := list_ascii_of_string s.

(** The number of positions at which two words of the same length differ. *)
Definition distance {A : eqType} (u v : seq A) : nat :=
  count (fun c => c.1 != c.2) (zip u v).

(** A residue modulo [q], and a polynomial over GF(q) as the constructors
    of [Polynomial] leave it: residues only, no leading zero. *)
Definition residue (q c : Z) : bool := ((0 <=? c) && (c <? q))%Z.

Definition wf_poly (q : Z) (u : seq Z) : bool :=
  all (residue q) u && (normalize u == u).

(** The abstraction of the model: a residue as an element of MathComp's
    prime field, a coefficient sequence as a polynomial over it. *)
Section Abstraction.

Variable p : nat.

Definition toF (z : Z) : 'F_p := ((Z.to_nat (z mod Z.of_nat p))%:R)%R.

Definition toP (u : seq Z) : {poly 'F_p} := Poly (rev [seq toF c | c <- u]).

End Abstraction.

(** An order that [is_prime] accepts, which is what [PFint.__new__] asks
    of it on every call. *)
Definition accepted (q : Z) : Prop := is_prime q = Ok true.

(** The mapper of a codec built without one. *)
Definition default_mapper : Mapper :=
  if Mapper.__init__ mapper_default_alphabet mapper_default_equivs is Ok m
  then m else mkMapper [::] [::].

(** The polynomials the constructor multiplies up: [g] is the product of
    the [x - alpha^l], [h] of the [x + alpha^l]. *)
Definition g_factor (q alpha l : Z) : seq Z :=
  Polynomial [:: 1%Z; fneg q (pow3 alpha l q)].

Definition h_factor (q alpha l : Z) : seq Z :=
  Polynomial [:: 1%Z; pow3 alpha l q].

Definition product (q : Z) (factor : Z -> seq Z) (lo hi : Z) : seq Z :=
  foldl (fun g l => pmul q g (factor l)) (Polynomial [:: 1%Z]) (xrange lo hi).

(** The codec [RSCoder(b, n, k, mapper)] with generator [alpha]. *)
Definition coder (mp : Mapper) (alpha q n k : Z) : RSCoder :=
  mkRSCoder mp (PyPF (mkPF q alpha)) q n k
    (product q (g_factor q alpha) 1 (n - k + 1))
    (product q (h_factor q alpha) (n - k + 1) (n + 1)).

(** The generator [self.a] of a codec, as an integer. *)
Definition generator (self : RSCoder) : Z :=
  if a self is PyPF x then pf_v x else 0%Z.

(** The character a mapper writes for a value and the value it reads from
    a character, [-1] for a character it does not know. *)
Definition chr (mp : Mapper) (z : Z) : ascii :=
  odflt "000"%char (dict_get (table_n2c mp) z).

Definition ord (mp : Mapper) (c : ascii) : Z :=
  odflt (-1)%Z (dict_get (table_c2n mp) c).

(** A mapper serves the field of order [q] when every residue has a
    character that reads back as that residue. *)
Definition mapper_ok (mp : Mapper) (q : Z) : bool :=
  all (fun z => if dict_get (table_n2c mp) z is Some c
                then dict_get (table_c2n mp) c == Some z else false)
      (xrange 0 q).

(** A character that stands for a residue, and one that is moreover the
    character written for that residue (["O"] is read as zero, but zero is
    written ["0"]). *)
Definition readable (mp : Mapper) (q : Z) (c : ascii) : bool :=
  residue q (ord mp c).

Definition symbol (mp : Mapper) (q : Z) (c : ascii) : bool :=
  readable mp q c && (chr mp (ord mp c) == c).

(** A cache of [PFint] as the constructor fills it: every element stored
    is a residue of its field. *)
Definition cache_ok (c : cache) : bool :=
  all (fun e => residue e.1 e.2) c.

(** The cache of [PFint] once the elements of values [vals] of the field of
    order [q] have been asked for, one after the other: those that were
    not stored are. *)
Definition cache_enter (q : Z) (c : cache) (vals : seq Z) : cache :=
  foldl (fun c z => if (q, z) \in c then c else (q, z) :: c) c vals.

(** A coefficient sequence written out on [n] symbols. *)
Definition padded (n : Z) (c : seq Z) : seq Z := rjust c n 0%Z.

(** The roots of the generator polynomial of a code with [d] parity
    symbols: the powers [alpha^1 .. alpha^d]. *)
Definition g_roots (p : nat) (alpha : Z) (d : nat) : seq 'F_p :=
  [seq (toF p alpha ^+ i.+1)%R | i <- iota 0 d].

(** The codeword polynomial [encode] computes from the values of the padded
    message: [M * x^(n-k) - (M * x^(n-k) mod g)]. *)
Definition shifted (self : RSCoder) (msg : seq Z) : seq Z :=
  pmul (b self) (Polynomial msg)
       (Polynomial (1%Z :: nseq (Z.to_nat (n self - k self)) 0%Z)).

Definition code_poly (self : RSCoder) (msg : seq Z) : seq Z :=
  let mprime := shifted self msg in
  psub (b self) mprime
       (divmod_loop (b self) (size mprime) (g self) [:: 0%Z] mprime).2.

(** Two polynomials agree below [z^m]: they are congruent modulo [z^m]. *)
Definition congruent (m : nat) (u v : seq Z) : bool :=
  all (fun i => get_coefficient u i == get_coefficient v i) (iota 0 m).

(** What holds of the lists of [_berlekamp_massey] after [j] turns of its
    loop on the syndrome polynomial [s]: all six have [j + 1] entries, the
    polynomials are well formed, every [sigma[l]] and [omega[l]] satisfy
    the congruence the loop is written to keep, and so do, shifted by
    [z^j], the last [tao] and [gamma]; the last [omega] and [gamma] have
    degree at most [j]. *)
Definition bm_state_ok (self : RSCoder) (s : seq Z) (j : nat)
    (st : bm_lists) : Prop :=
  let q := b self in
  let one_s := padd q (constant 1%Z) s in
  [/\ size (sigma st) = j.+1, size (omega st) = j.+1, size (tao st) = j.+1,
      size (gamma st) = j.+1 & size (D st) = j.+1 /\ size (B st) = j.+1] /\
  [/\ all (wf_poly q) (sigma st), all (wf_poly q) (omega st),
      all (wf_poly q) (tao st) & all (wf_poly q) (gamma st)] /\
  [/\ forall l, (l <= j)%nat ->
        congruent l.+1 (pmul q one_s (nth [::] (sigma st) l))
                  (nth [::] (omega st) l),
      congruent j.+1 (pmul q one_s (nth [::] (tao st) j))
                (padd q (nth [::] (gamma st) j) (monomial 1%Z j)),
      forall i, (j < i)%nat -> get_coefficient (nth [::] (omega st) j) i = 0%Z &
      forall i, (j < i)%nat -> get_coefficient (nth [::] (gamma st) j) i = 0%Z].

(* ===================================================================== *)
(** ** Runs of the code on concrete inputs *)
(* ===================================================================== *)

Section Runs.

Local Open Scope Z_scope.

(** The arithmetic of [test.py] on [PF59int]. *)
Example test_arithmetic :
  [/\ __add__ (mkPF 59 3) (PyInt 9) = Ok (PyPF (mkPF 59 12)),
      __rsub__ (mkPF 59 9) (PyInt 3) = Ok (PyPF (mkPF 59 53)),
      __div__ (mkPF 59 9) (PyPF (mkPF 59 3)) = Ok (PyPF (mkPF 59 3)),
      __pow__ (mkPF 59 9) (PyInt 3) = Ok (PyPF (mkPF 59 21)) &
      inverse (mkPF 59 9) = Ok (PyPF (mkPF 59 46))].
Proof. by split; vm_compute. Qed.

(** The codec of [test.py] encodes and decodes the string of [TestRSdecoding]. *)
Example test_noerr :
  exists cd, Rscoder.__init__ 59 58 46 None = Ok cd /\
    encode cd (str "818878") false true =
      Ok (AsStr (str "0000000000000000000000000000000000000000818878tTR6DHTBgw6W")) /\
    decode cd (str "0000000000000000000000000000000000000000818878tTR6DHTBgw6W") false
      = Ok (str "818878").
Proof. by eexists; split; [vm_compute; reflexivity | split; vm_compute]. Qed.

(** Six errors, the positions of [test_6err]. *)
Example test_6err :
  exists cd, Rscoder.__init__ 59 58 46 None = Ok cd /\
    distance (str "0000011000001100000000000000000000000010918878tTR6DHTBgw6W")
             (str "0000000000000000000000000000000000000000818878tTR6DHTBgw6W") = 6%nat /\
    decode cd (str "0000011000001100000000000000000000000010918878tTR6DHTBgw6W") false
      = Ok (str "818878").
Proof. by eexists; split; [vm_compute; reflexivity | split; vm_compute]. Qed.

End Runs.

(* ===================================================================== *)
(** ** Where the code departs from the stated properties *)
(* ===================================================================== *)

Section Departures.

Local Open Scope Z_scope.

(** C1 (evaluation).  [RSCoder(7, 6, 2)] corrects [s = 2] errors.  The
    codeword of ["12"] is ["120435"]; the word ["020430"] differs from it
    at two positions, the first and the last, and [decode] returns ["52"]:
    [_chien_search] scans [l = 1 .. b-2], never tries [l = b-1], and so
    never locates an error in the last symbol. *)
Lemma decode_misses_last_symbol :
  exists cd, Rscoder.__init__ 7 6 2 None = Ok cd /\
    [/\ encode cd (str "12") false true = Ok (AsStr (str "120435")),
        distance (str "020430") (str "120435") = 2%nat,
        (n cd - k cd) / 2 = 2,
        decode cd (str "020430") true = Ok (str "52") &
        decode cd (str "020430") false = Ok (str "52")].
Proof. by eexists; split; [vm_compute; reflexivity | split; vm_compute]. Qed.

(** The same defect on the codec and the message of [test.py]: two errors,
    one of them in the last symbol. *)
Lemma decode_misses_last_symbol_59 :
  exists cd, Rscoder.__init__ 59 58 46 None = Ok cd /\
    [/\ encode cd (str "818878") false true =
          Ok (AsStr (str "0000000000000000000000000000000000000000818878tTR6DHTBgw6W")),
        distance (str "0000000000000000000000000000000000000000818871tTR6DHTBgw61")
                 (str "0000000000000000000000000000000000000000818878tTR6DHTBgw6W") = 2%nat &
        decode cd (str "0000000000000000000000000000000000000000818871tTR6DHTBgw61") false
          = Ok (str "818873")].
Proof. by eexists; split; [vm_compute; reflexivity | split; vm_compute]. Qed.

(** A corrupted codeword of the all-zero message is not decoded at all: the
    corrected polynomial is zero, nothing is left of its coefficients once
    the parity is cut off, and [Mapper._conv] indexes an empty list. *)
Lemma decode_zero_message_raises :
  exists cd, Rscoder.__init__ 7 6 2 None = Ok cd /\
    [/\ encode cd (str "00") false true = Ok (AsStr (str "000000")),
        distance (str "000100") (str "000000") = 1%nat &
        decode cd (str "000100") true = Raise IndexError].
Proof. by eexists; split; [vm_compute; reflexivity | split; vm_compute]. Qed.

(** C2 (counterexample).  With the default arguments the round trip drops
    the leading zero symbols of the message. *)
Lemma roundtrip_default_strips :
  exists cd, Rscoder.__init__ 7 6 2 None = Ok cd /\
    size (str "01") = 2%nat /\
    encode cd (str "01") false false = Ok (AsStr (str "16324")) /\
    decode cd (str "16324") false = Ok (str "1") /\
    str "1" <> str "01".
Proof. by eexists; split; [vm_compute; reflexivity | do !split; vm_compute]. Qed.

(** A codec with [k = 1] encodes nothing: the padded message is a single
    character, which the mapper decodes to a bare [int]. *)
Lemma encode_k1_raises :
  exists cd, Rscoder.__init__ 59 58 1 None = Ok cd /\
    encode cd (str "5") false true = Raise TypeError /\
    encode cd (str "") false true = Raise TypeError.
Proof. by eexists; split; [vm_compute; reflexivity | split; vm_compute]. Qed.

(** C3 (counterexample).  [verify] starts by building an instance of
    [PFint] for every symbol of the word, and [PFint.__new__] stores in
    [PFint.cache] the instances it does not find there: from a cache that
    holds the elements 1 and 2 of GF(59), reading the codeword ["1vtT"] of
    ["1v"], on which [verify] returns [True], leaves a cache that also
    holds the elements 30, 28 and 52. *)
Lemma verify_enters_cache :
  exists cd, Rscoder.__init__ 59 4 2 None = Ok cd /\
    [/\ encode cd (str "1v") false true = Ok (AsStr (str "1vtT")),
        verify cd (str "1vtT") = Ok true,
        symbols_st [:: (59, 1); (59, 2)] cd (str "1vtT") =
          (Ok [:: 1; 30; 28; 52],
           [:: (59, 52); (59, 28); (59, 30); (59, 1); (59, 2)]) &
        (symbols_st [:: (59, 1); (59, 2)] cd (str "1vtT")).2
          <> [:: (59, 1); (59, 2)]].
Proof. by eexists; split; [vm_compute; reflexivity | split; vm_compute]. Qed.

(** C4 (evaluation).  The codeword of the message ["00"] of [RSCoder(7, 6,
    2)] is the single symbol ["0"]; with that symbol changed to ["1"], which
    stands for another value, [verify] raises [TypeError]: the mapper
    decodes a word of one character to a bare [int], and [verify] iterates
    over what the mapper returns. *)
Lemma verify_one_symbol_raises :
  exists cd, Rscoder.__init__ 7 6 2 None = Ok cd /\
    [/\ Z.of_nat (size (str "00")) = k cd,
        encode cd (str "00") false false = Ok (AsStr (str "0")),
        ord (mapper cd) "1"%char <> ord (mapper cd) "0"%char,
        set_nth "0"%char (str "0") 0 "1"%char = str "1" &
        verify cd (set_nth "0"%char (str "0") 0 "1"%char) = Raise TypeError].
Proof. by eexists; split; [vm_compute; reflexivity | split; vm_compute]. Qed.

(** C5 (counterexample).  [61] is a prime and [0 < 50 < 60 < 61], yet the
    construction is refused: without a mapper the default alphabet, of
    59 symbols, has to cover the field. *)
Lemma init_default_mapper_61 :
  prime 61 /\ is_prime 61 = Ok true /\ 0 < 50 < 60 /\ 60 < 61 /\
  Rscoder.__init__ 61 60 50 None = Raise ValueError.
Proof. by do !split; vm_compute. Qed.

(** [k = 0] passes the test [k < 0] of the constructor. *)
Lemma init_accepts_k0 :
  exists cd, Rscoder.__init__ 59 58 0 None = Ok cd.
Proof. by eexists; vm_compute; reflexivity. Qed.

(** C6 (evaluation).  The entry of the inverse table for zero is [None], and
    [PFint(p, None)] is the call that builds the class of the field: the
    inverse of zero is that class, returned without an error. *)
Lemma inverse_zero_returns_class :
  inverse (mkPF 59 0) = Ok (PyType 59).
Proof. by vm_compute. Qed.

(** C7 (counterexample).  An integer operand outside [[0, p)] is refused by
    the constructor it is passed through. *)
Lemma add_int_out_of_range :
  __add__ (mkPF 59 3) (PyInt 59) = Raise ValueError /\
  __add__ (mkPF 59 3) (PyInt (-1)) = Raise ValueError.
Proof. by split; vm_compute. Qed.

(** C8 (evaluation).  For [p = 3] the scan starts at [g = 0], whose powers
    [1, 0, 0] take two values: [findgen] returns [0], which the codec keeps
    as its generator, and no power of which is [2]. *)
Lemma findgen_3 :
  is_prime 3 = Ok true /\ findgen 3 = Some 0 /\
  [seq pow3 0 i 3 | i <- range 3] = [:: 1; 0; 0] /\
  exists cd, Rscoder.__init__ 3 2 1 None = Ok cd /\ a cd = PyPF (mkPF 3 0).
Proof.
by do !split; try (by vm_compute); eexists; split; [vm_compute; reflexivity|].
Qed.

(** C9 (evaluation).  With the default arguments the codeword of a
    message that starts with the zero symbol has less than [n] symbols,
    where the docstring of [encode] has the sequence returned always [n]
    bytes long: for [RSCoder(7, 6, 2)] and the message ["01"] it has 5. *)
Lemma encode_default_short :
  exists cd, Rscoder.__init__ 7 6 2 None = Ok cd /\
    encode cd (str "01") false false = Ok (AsStr (str "16324")) /\
    size (str "16324") = 5%nat /\ n cd = 6.
Proof. by eexists; split; [vm_compute; reflexivity | do !split; vm_compute]. Qed.

End Departures.

(* ===================================================================== *)
(** ** Basic facts on the Python preliminaries *)
(* ===================================================================== *)

Arguments PFint_new : simpl never.
Arguments __add__ : simpl never.
Arguments __sub__ : simpl never.
Arguments __rsub__ : simpl never.
Arguments __neg__ : simpl never.
Arguments __mul__ : simpl never.
Arguments __pow__ : simpl never.
Arguments __div__ : simpl never.
Arguments __rdiv__ : simpl never.
Arguments inverse : simpl never.
Arguments invtable : simpl never.
Arguments pow3 : simpl never.
Arguments normalize : simpl never.
Arguments padd : simpl never.
Arguments psub : simpl never.
Arguments pmul : simpl never.
Arguments pdivmod : simpl never.
Arguments evaluate : simpl never.
Arguments get_coefficient : simpl never.
Arguments monomial : simpl never.
Arguments xrange : simpl never.
Arguments range : simpl never.
Arguments range3 : simpl never.
Arguments findgen : simpl never.
Arguments getitem : simpl never.
Arguments Mapper.__init__ : simpl never.
Arguments mapper_default_alphabet : simpl never.
Arguments mapper_default_equivs : simpl never.
Arguments default_mapper : simpl never.

Section Basics.

Lemma bind_Ok {A B} (x : A) (f : A -> result B) : bind (Ok x) f = f x.
Proof. by []. Qed.

Lemma bindI {A B} (m : result A) (f : A -> result B) (y : B) :
  bind m f = Ok y -> exists2 x, m = Ok x & f x = Ok y.
Proof. by case: m => //= x; exists x. Qed.

Lemma range3_1 (lo hi : Z) :
  range3 lo hi 1 = [seq (lo + Z.of_nat i)%Z | i <- iota 0 (Z.to_nat (hi - lo))].
Proof.
rewrite /range3; have -> : ((hi - lo + 1 - 1) / 1 = hi - lo)%Z.
  by rewrite Z.div_1_r; lia.
by apply: eq_map => i; rewrite Z.mul_1_l.
Qed.

Lemma size_xrange (lo hi : Z) : size (xrange lo hi) = Z.to_nat (hi - lo).
Proof. by rewrite /xrange range3_1 size_map size_iota. Qed.

Lemma xrange_rcons (lo hi : Z) :
  (lo <= hi)%Z -> xrange lo (hi + 1) = rcons (xrange lo hi) hi.
Proof.
move=> hle; rewrite /xrange !range3_1.
have -> : Z.to_nat (hi + 1 - lo) = (Z.to_nat (hi - lo)).+1 by lia.
rewrite -addn1 iotaD map_cat /= cats1 add0n; congr (rcons _ _); lia.
Qed.

Lemma xrange_nil (lo hi : Z) : (hi <= lo)%Z -> xrange lo hi = [::].
Proof.
move=> hle; rewrite /xrange range3_1.
by have -> : Z.to_nat (hi - lo) = 0%nat by lia.
Qed.

Lemma mem_xrange (lo hi x : Z) :
  reflect (lo <= x < hi)%Z (x \in xrange lo hi).
Proof.
rewrite /xrange range3_1; apply: (iffP mapP) => [[i]|lt].
  by rewrite mem_iota add0n => /andP[_ /ltP lt] ->; lia.
exists (Z.to_nat (x - lo)); last by lia.
by rewrite mem_iota add0n /=; apply/ltP; lia.
Qed.

Lemma nth_errorE {A} (d : A) (l : seq A) (j : nat) :
  j < size l -> List.nth_error l j = Some (nth d l j).
Proof. by elim: l j => [|x l IH] [|j] //= lt; apply: IH. Qed.

Lemma getitem_nth {A} (d : A) (l : seq A) (i : Z) :
  (0 <= i < Z.of_nat (size l))%Z -> getitem l i = Ok (nth d l (Z.to_nat i)).
Proof.
move=> [i0 il]; rewrite /getitem.
have -> : (i <? 0)%Z = false by lia.
have -> : (i <? 0)%Z = false by lia.
by rewrite (nth_errorE d) //; apply/ltP; lia.
Qed.

Lemma getitem_last {A} (d : A) (l : seq A) :
  l <> [::] -> getitem l (-1)%Z = Ok (last d l).
Proof.
case: l => // x l _; rewrite /getitem.
have -> : (-1 <? 0)%Z = true by [].
have -> : (-1 + Z.of_nat (size (x :: l)))%Z = Z.of_nat (size l).
  by rewrite [size _]/=; lia.
have -> : (Z.of_nat (size l) <? 0)%Z = false by apply/Z.ltb_ge; lia.
by rewrite Nat2Z.id (nth_errorE d) //= -last_nth.
Qed.

Lemma foldM_rcons {A S} (f : S -> A -> result S) s0 xs x :
  foldM f s0 (rcons xs x) = bind (foldM f s0 xs) (fun s => f s x).
Proof. by rewrite /foldM -cats1 foldl_cat. Qed.

End Basics.

(* ===================================================================== *)
(** ** pfint.py: the constructor, the inverse table and the operators *)
(* ===================================================================== *)

Section PfintFacts.

Local Open Scope Z_scope.
Lemma is_prime_ge2 (p : Z) : is_prime p = Ok true -> 2 <= p.
Proof. by rewrite /is_prime; case: Z.ltb_spec. Qed.

(** An even number that [is_prime] accepts is 2. *)
Lemma is_prime_odd (p : Z) : is_prime p = Ok true -> p = 2 \/ Z.odd p.
Proof.
rewrite /is_prime; case: Z.ltb_spec => //= p2.
case: Z.eqb_spec => [e|ne _] /=.
  by case: Z.gtb_spec => // p2' _; left; lia.
right; rewrite -Z.negb_even; apply/negP => /Z.even_spec[m e]; apply: ne.
by rewrite e Z.mul_comm Z_mod_mult.
Qed.

Lemma PFint_new_int (p z : Z) :
  is_prime p = Ok true ->
  PFint_new p (PyInt z) =
    if (0 <=? z) && (z <? p) then Ok (PyPF (mkPF p z)) else Raise ValueError.
Proof.
move=> pp; rewrite /PFint_new pp /=.
by case: Z.geb_spec; case: Z.ltb_spec; case: Z.leb_spec; case: Z.ltb_spec => //; lia.
Qed.

Lemma PFint_new_mod (p z : Z) :
  is_prime p = Ok true -> PFint_new p (PyInt (z mod p)) = Ok (PyPF (mkPF p (z mod p))).
Proof.
move=> pp; rewrite PFint_new_int //.
have := is_prime_ge2 pp => p2.
have := Z.mod_pos_bound z p; case: Z.leb_spec; case: Z.ltb_spec => //; lia.
Qed.

Lemma size_invtable p : size (invtable p) = Z.to_nat p.
Proof.
rewrite /invtable range3_1 Z.sub_0_r.
set l := map _ _.
have <- : size l = Z.to_nat p by rewrite !size_map size_iota.
by case: l.
Qed.

Lemma invtable_nth (p z : Z) :
  0 <= z < p ->
  getitem (invtable p) z =
    Ok (if z =? 0 then PyNone else PyInt (pow3 z (p - 2) p)).
Proof.
move=> zp; rewrite (getitem_nth PyNone); first by rewrite size_invtable; lia.
rewrite /invtable range3_1 Z.sub_0_r.
case E: (Z.to_nat p) => [|m]; first by lia.
rewrite -map_comp /=.
case: Z.eqb_spec => [->//|z0].
case E': (Z.to_nat z) => [|j] /=; first by lia.
rewrite (nth_map 0%nat) ?size_iota; first by apply/ltP; lia.
rewrite nth_iota; first by apply/ltP; lia.
by rewrite /= add0n; congr (Ok (PyInt (pow3 _ _ _))); lia.
Qed.

Lemma inverse_nonzero (p z : Z) :
  is_prime p = Ok true -> 0 < z < p ->
  inverse (mkPF p z) = Ok (PyPF (mkPF p (pow3 z (p - 2) p))).
Proof.
move=> pp zp; rewrite /inverse /= invtable_nth; first by lia.
have -> /= : (z =? 0) = false by lia.
exact: PFint_new_mod.
Qed.

Lemma inverse_zero (p : Z) :
  is_prime p = Ok true -> inverse (mkPF p 0) = Ok (PyType p).
Proof.
move=> pp; have := is_prime_ge2 pp => p2.
by rewrite /inverse /= invtable_nth /=; [lia | rewrite /PFint_new pp].
Qed.

End PfintFacts.

(* ===================================================================== *)
(** ** Residues modulo a prime as elements of the field *)
(* ===================================================================== *)

Section FieldBridge.

Variable p : nat.
Hypothesis pp : prime p.

Local Notation P := (Z.of_nat p).
Local Notation F := (toF p).

Import GRing.Theory.
Local Open Scope ring_scope.

Lemma P_gt1 : (1 < P)%Z.
Proof. by have /ltP := prime_gt1 pp; lia. Qed.

Lemma Z_of_modn (m : nat) : Z.of_nat (m %% p) = (Z.of_nat m mod P)%Z.
Proof.
have P1 := P_gt1; apply: (Z.mod_unique_pos _ _ (Z.of_nat (m %/ p))).
  by split; [lia | have /ltP := ltn_pmod m (prime_gt0 pp); lia].
by rewrite {1}(divn_eq m p) -multE -plusE; lia.
Qed.

Lemma toF_nat (m : nat) : F (Z.of_nat m) = m%:R.
Proof. by rewrite /toF -Z_of_modn Nat2Z.id Fp_nat_mod. Qed.

Lemma toF_repr (z : Z) : F z = F (Z.of_nat (Z.to_nat (z mod P))).
Proof.
have P1 := P_gt1; rewrite /toF Z2Nat.id ?Z.mod_mod //; try lia.
by have := Z.mod_pos_bound z P; lia.
Qed.

Lemma toF_mod (z : Z) : F (z mod P) = F z.
Proof. by have P1 := P_gt1; rewrite /toF Z.mod_mod //; lia. Qed.

Lemma toF_congr (x y : Z) : (x mod P = y mod P)%Z -> F x = F y.
Proof. by rewrite /toF => ->. Qed.

Lemma toFD (x y : Z) : F (x + y) = F x + F y.
Proof.
have P1 := P_gt1; rewrite (toF_repr x) (toF_repr y) !toF_nat -natrD -toF_nat.
have bx := Z.mod_pos_bound x P; have by_ := Z.mod_pos_bound y P.
apply: toF_congr; rewrite -plusE Nat2Z.inj_add !Z2Nat.id; try lia.
by rewrite -Z.add_mod //; lia.
Qed.

Lemma toFM (x y : Z) : F (x * y) = F x * F y.
Proof.
have P1 := P_gt1; rewrite (toF_repr x) (toF_repr y) !toF_nat -natrM -toF_nat.
have bx := Z.mod_pos_bound x P; have by_ := Z.mod_pos_bound y P.
apply: toF_congr; rewrite -multE Nat2Z.inj_mul !Z2Nat.id; try lia.
by rewrite -Z.mul_mod //; lia.
Qed.

Lemma toF0 : F 0 = 0.
Proof. by rewrite (toF_nat 0). Qed.

Lemma toF1 : F 1 = 1.
Proof. by rewrite (toF_nat 1). Qed.

Lemma toFP : F P = 0.
Proof. by rewrite toF_nat pchar_Fp_0. Qed.

Lemma toFN (x : Z) : F (- x) = - F x.
Proof.
by apply/eqP; rewrite -addr_eq0 -toFD; apply/eqP; rewrite Z.add_opp_diag_l toF0.
Qed.

Lemma toFB (x y : Z) : F (x - y) = F x - F y.
Proof. by rewrite -toFN -toFD. Qed.

Lemma toF_inj (x y : Z) : F x = F y -> (x mod P = y mod P)%Z.
Proof.
have P1 := P_gt1; move/(congr1 (@nat_of_ord _)); rewrite /toF !val_Fp_nat //.
have bx := Z.mod_pos_bound x P; have by_ := Z.mod_pos_bound y P.
rewrite !modn_small; try by apply/ltP; lia.
by move=> E; apply: Z2Nat.inj; lia.
Qed.

Lemma toF_eq0 (x : Z) : residue P x -> (F x == 0) = (x == 0%Z).
Proof.
have P1 := P_gt1; move=> /andP[/Z.leb_le x0 /Z.ltb_lt xP].
apply/eqP/eqP => [|->]; last exact: toF0.
by rewrite -toF0 => /toF_inj; rewrite !Z.mod_small //; lia.
Qed.

Lemma toF_exp (x : Z) (e : nat) : F (x ^ Z.of_nat e) = F x ^+ e.
Proof.
elim: e => [|e IH]; first by rewrite /= toF1 expr0.
by rewrite Nat2Z.inj_succ Z.pow_succ_r ?toFM ?IH ?exprS //; lia.
Qed.

(** Fermat: the power [p - 2] is the inverse. *)
Lemma toF_finv (x : Z) : F x != 0 -> F (finv P x) = (F x)^-1.
Proof.
move=> x0; rewrite /finv /pow3 toF_mod.
have p2 : (1 < p)%nat := prime_gt1 pp.
have -> : (P - 2 = Z.of_nat p.-2)%Z by move/ltP: p2; lia.
rewrite toF_exp; apply: (mulfI x0); rewrite divff // -exprS.
have -> : p.-2.+1 = p.-1 by move/ltP: p2; lia.
apply: (mulfI x0); rewrite mulr1.
have e : F x ^+ p.-1.+1 = F x.
  by rewrite (prednK (prime_gt0 pp)); have := expf_card (F x); rewrite card_Fp.
by rewrite -exprS e.
Qed.

(** Fermat: a nonzero element to the power [p - 1] is one. *)
Lemma expf_pred (x : 'F_p) : x != 0 -> x ^+ p.-1 = 1.
Proof.
move=> x0; apply: (mulfI x0); rewrite -exprS mulr1 (prednK (prime_gt0 pp)).
by have := expf_card x; rewrite card_Fp.
Qed.

Lemma toF_fadd x y : F (fadd P x y) = F x + F y.
Proof. by rewrite /fadd toF_mod toFD. Qed.
Lemma toF_fsub x y : F (fsub P x y) = F x - F y.
Proof. by rewrite /fsub toF_mod toFB. Qed.
Lemma toF_fmul x y : F (fmul P x y) = F x * F y.
Proof. by rewrite /fmul toF_mod toFM. Qed.
Lemma toF_fneg x : F (fneg P x) = - F x.
Proof. by rewrite /fneg toF_mod toFB toFP sub0r. Qed.
Lemma toF_fdiv x y : F y != 0 -> F (fdiv P x y) = F x / F y.
Proof. by move=> y0; rewrite /fdiv toF_fmul toF_finv. Qed.

Lemma residue_mod (z : Z) : residue P (z mod P).
Proof.
have P1 := P_gt1; have := Z.mod_pos_bound z P.
by rewrite /residue => b; apply/andP; split; [apply/Z.leb_le|apply/Z.ltb_lt]; lia.
Qed.

Lemma residue_inj (x y : Z) : residue P x -> residue P y -> F x = F y -> x = y.
Proof.
move=> /andP[/Z.leb_le x0 /Z.ltb_lt xP] /andP[/Z.leb_le y0 /Z.ltb_lt yP].
by move/toF_inj; rewrite !Z.mod_small.
Qed.

End FieldBridge.

(* ===================================================================== *)
(** ** Coefficient sequences as polynomials over the field *)
(* ===================================================================== *)

Section PolyBridge.

Variable p : nat.
Hypothesis pp : prime p.

Local Notation P := (Z.of_nat p).
Local Notation F := (toF p).
Local Notation T := (toP p).

Import GRing.Theory.
Local Open Scope ring_scope.

Lemma toP_nil : T [::] = 0.
Proof. by []. Qed.

Lemma toP_cons a u : T (a :: u) = F a *: 'X^(size u) + T u.
Proof.
apply/polyP => i; rewrite coefD coefZ coefXn !coef_Poly /= rev_cons nth_rcons.
rewrite size_rev size_map; case: ltngtP => [lt|gt|->].
- by rewrite mulr0 add0r.
- by rewrite mulr0 add0r nth_default // size_rev size_map ltnW.
- by rewrite mulr1 nth_default ?addr0 // size_rev size_map.
Qed.

Lemma toP_zeros k u : T (nseq k 0%Z ++ u) = T u.
Proof. by elim: k => [|k IH] //=; rewrite toP_cons IH toF0 // scale0r add0r. Qed.

Lemma toP_lstrip u : T (lstrip u 0%Z) = T u.
Proof.
elim: u => [|x u IH] //=; case: eqP => [->|//].
by rewrite IH toP_cons toF0 // scale0r add0r.
Qed.

Lemma toP_normalize u : T (normalize u) = T u.
Proof.
rewrite /normalize -(toP_lstrip u); case: (lstrip u 0%Z) => [|//].
by rewrite toP_cons toF0 // scale0r add0r.
Qed.

Lemma toP_zip (op : Z -> Z -> Z) (c : 'F_p) u v :
  size u = size v -> (forall x y, F (op x y) = F x + c * F y) ->
  T [seq op z.1 z.2 | z <- zip u v] = T u + c *: T v.
Proof.
move=> + opE; elim: u v => [|x u IH] [|y v] //=; first by rewrite scaler0 addr0.
case=> sz; rewrite !toP_cons size_map size_zip -sz minnn IH // opE.
by rewrite scalerDl scalerDr scalerA addrACA.
Qed.

Lemma size_align u v :
  size (nseq (size v - size u) 0%Z ++ u) = size (nseq (size u - size v) 0%Z ++ v).
Proof. by rewrite !size_cat !size_nseq ![(_ - _ + _)%nat]addnC -!maxnE maxnC. Qed.

Lemma toP_padd u v : T (padd P u v) = T u + T v.
Proof.
rewrite /padd toP_normalize /align (@toP_zip _ 1) ?toP_zeros ?scale1r //.
  exact: size_align.
by move=> x y; rewrite toF_fadd // mul1r.
Qed.

Lemma toP_psub u v : T (psub P u v) = T u - T v.
Proof.
rewrite /psub toP_normalize /align (@toP_zip _ (-1)) ?toP_zeros ?scaleN1r //.
  exact: size_align.
by move=> x y; rewrite toF_fsub // mulN1r.
Qed.

Lemma coef_toP u i : (T u)`_i = F (get_coefficient u i).
Proof.
rewrite coef_Poly /get_coefficient /degree; case: (ltnP i (size u)) => [lt|ge].
  have su : (0 < size u)%nat by apply: leq_ltn_trans lt.
  have lt' : (size u - i.+1 < size u)%nat by rewrite ltn_subrL.
  rewrite nth_rev ?size_map // (nth_map 0%Z) //.
  by rewrite ltnNge -ltnS prednK // lt /= subnS -predn_sub.
rewrite nth_default ?size_rev ?size_map //.
case: u ge => [|x u] /= ge; first by case: i {ge} => [|i] /=; rewrite toF0.
by rewrite ge toF0.
Qed.

Lemma toF_convolve u v t :
  F (convolve P u v t) = \sum_(j < t.+1) (T u)`_j * (T v)`_(t - j).
Proof.
rewrite -(big_mkord xpredT (fun j => (T u)`_j * (T v)`_(t - j))).
rewrite /convolve /index_iota subn0; elim: (iota 0 t.+1) => [|j l IH] /=.
  by rewrite big_nil toF0.
by rewrite big_cons toF_fadd // toF_fmul // IH !coef_toP.
Qed.

Lemma toP_rev l : T (rev l) = Poly [seq F c | c <- l].
Proof. by rewrite /toP map_rev revK. Qed.

Lemma size_toP_leq u : (size (T u) <= size u)%nat.
Proof. by rewrite (leq_trans (size_Poly _)) // size_rev size_map. Qed.

Lemma toP_pmul u v : T (pmul P u v) = T u * T v.
Proof.
apply/polyP => i; rewrite /pmul toP_normalize toP_rev coef_Poly -map_comp.
set n := (size u + size v).-1; case: (ltnP i n) => [lt|ge].
  by rewrite (nth_map 0%nat) ?size_iota // nth_iota //= add0n toF_convolve coefM.
rewrite nth_default ?size_map ?size_iota //; apply/esym/(leq_sizeP _ n) => //.
apply: leq_trans (size_mul_leq _ _) _.
by rewrite /n -!subn1 leq_sub2r // leq_add // size_toP_leq.
Qed.

Lemma toP_constant c : T (constant c) = (F c)%:P.
Proof. by rewrite /constant toP_cons /= expr0 alg_polyC addr0. Qed.

Lemma toP_monomial c d : T (monomial c d) = F c *: 'X^d.
Proof.
rewrite /monomial toP_normalize toP_cons size_nseq.
by rewrite -(cats0 (nseq d _)) toP_zeros addr0.
Qed.

(** Well-formed polynomials. *)

Lemma residue0 : residue P 0.
Proof. by have := P_gt1 pp; rewrite /residue => ?; apply/andP; split; [|apply/Z.ltb_lt; lia]. Qed.

Lemma size_lstrip (u : seq Z) c : (size (lstrip u c) <= size u)%nat.
Proof. by elim: u => [|x u IH] //=; case: ifP => // _; apply: leq_trans IH _. Qed.

Lemma all_lstrip (a : pred Z) (u : seq Z) c : all a u -> all a (lstrip u c).
Proof. by elim: u => [|x u IH] //=; case: ifP => // _ /andP[_ /IH]. Qed.

Lemma lstrip_head (u : seq Z) c : head 1%Z (lstrip u c) != c \/ lstrip u c = [::].
Proof.
elim: u => [|x u IH] /=; first by right.
by case: ifP => // /negbT; left.
Qed.

Lemma lstrip_id (u : seq Z) c x : head x u != c -> lstrip u c = u.
Proof. by case: u => [|y u] //= /negbTE->. Qed.

Lemma normalize_idem u : normalize (normalize u) = normalize u.
Proof.
rewrite {2 3}/normalize; case E: (lstrip u 0%Z) => [|x u'] //.
have [|] := lstrip_head u 0%Z; rewrite E //= => x0.
by rewrite /normalize /= (negbTE x0).
Qed.

Lemma wf_normalize u : all (residue P) u -> wf_poly P (normalize u).
Proof.
move=> ru; rewrite /wf_poly normalize_idem eqxx andbT.
rewrite /normalize; case E: (lstrip u 0%Z) => [|x u']; first by rewrite /= residue0.
by rewrite -E; apply: all_lstrip.
Qed.

Lemma wf_padd u v : wf_poly P (padd P u v).
Proof.
by apply: wf_normalize; apply/allP => c /mapP[z _ ->]; apply: residue_mod.
Qed.

Lemma wf_psub u v : wf_poly P (psub P u v).
Proof.
by apply: wf_normalize; apply/allP => c /mapP[z _ ->]; apply: residue_mod.
Qed.

Lemma residue_convolve u v t : residue P (convolve P u v t).
Proof.
rewrite /convolve; case: (iota 0 t.+1) => [|j l] /=; first exact: residue0.
exact: residue_mod.
Qed.

Lemma wf_pmul u v : wf_poly P (pmul P u v).
Proof.
apply: wf_normalize; rewrite all_rev; apply/allP => c /mapP[z _ ->].
exact: residue_convolve.
Qed.

Lemma wf_constant c : residue P c -> wf_poly P (constant c).
Proof.
by move=> rc; rewrite /wf_poly /= rc /normalize /=; case: ifP => [/eqP->|].
Qed.

Lemma wf_monomial c d : residue P c -> wf_poly P (monomial c d).
Proof.
move=> rc; apply: wf_normalize; rewrite /= rc /=.
by apply/allP => x /nseqP[-> _]; apply: residue0.
Qed.

Lemma wf_residues u : wf_poly P u -> all (residue P) u.
Proof. by case/andP. Qed.

Lemma wf_cases u :
  wf_poly P u -> u = [:: 0%Z] \/ (exists x u', u = x :: u' /\ x != 0%Z).
Proof.
case/andP=> _ /eqP; rewrite /normalize.
case: u => [|x u] //= ; case: eqP => [->|/eqP x0 _]; last by right; exists x, u.
case E: (lstrip u 0%Z) => [|y u'] e; first by left.
by have := size_lstrip u 0%Z; rewrite E e /= ltnn.
Qed.

Lemma polyseq_toP u :
  wf_poly P u -> u != [:: 0%Z] -> T u = rev [seq F c | c <- u] :> seq _.
Proof.
move=> wu u0; have ru := wf_residues wu.
case: (wf_cases wu) u0 ru => [->|[x [u' [-> x0]]]]; rewrite ?eqxx // => _ /= /andP[rx _].
by rewrite /toP (@PolyK _ 0) //= rev_cons last_rcons toF_eq0.
Qed.

Lemma toP_eq0 u : wf_poly P u -> (T u == 0) = (u == [:: 0%Z]).
Proof.
move=> wu; case: (u =P [:: 0%Z]) => [->|/eqP u0].
  by rewrite toP_cons toF0 // scale0r add0r eqxx.
rewrite -size_poly_eq0 polyseq_toP // size_rev size_map.
by case: (wf_cases wu) u0 => [->|[x [u' [-> _]]]]; rewrite ?eqxx.
Qed.

Lemma size_toP u :
  wf_poly P u -> size (T u) = if u == [:: 0%Z] then 0%nat else size u.
Proof.
move=> wu; case: ifP => [|/negbT] u0.
  by apply/eqP; rewrite size_poly_eq0 toP_eq0.
by rewrite polyseq_toP // size_rev size_map.
Qed.

Lemma toP_inj u v : wf_poly P u -> wf_poly P v -> T u = T v -> u = v.
Proof.
move=> wu wv e.
have [u0|u0] := boolP (u == [:: 0%Z]).
  by move: (toP_eq0 wv); rewrite -e toP_eq0 // u0 (eqP u0) => /esym/eqP.
have v0 : v != [:: 0%Z] by rewrite -toP_eq0 // -e toP_eq0.
have := congr1 (@polyseq _) e; rewrite !polyseq_toP // => /(can_inj revK).
have := wf_residues wu; have := wf_residues wv.
elim: u v {wu wv e u0 v0} => [|x u IH] [|y v] //= /andP[ry rv] /andP[rx ru] [exy euv].
by rewrite (IH v) // (residue_inj pp rx ry exy).
Qed.

Lemma toF_evaluate u z : F (evaluate P u z) = (T u).[F z].
Proof.
rewrite /evaluate -(revK u) foldl_rev toP_rev horner_Poly.
elim: (rev u) => [|c l IH] /=; first by rewrite toF0.
by rewrite toF_fadd // toF_fmul // IH.
Qed.

Lemma residue_evaluate u z : residue P (evaluate P u z).
Proof.
rewrite /evaluate -(revK u) foldl_rev; case: (rev u) => [|c l] /=.
  exact: residue0.
exact: residue_mod.
Qed.

Lemma residue_get_coefficient u i :
  all (residue P) u -> residue P (get_coefficient u i).
Proof.
move=> ru; rewrite /get_coefficient; case: ifP => _; first exact: residue0.
case: (ltnP (degree u - i) (size u)) => [lt|ge]; first exact: (all_nthP _ ru).
by rewrite nth_default //; apply: residue0.
Qed.

(** Long division. *)

Lemma lead_toP u : wf_poly P u -> lead_coef (T u) = F (lead u).
Proof.
move=> wu; rewrite lead_coefE coef_toP size_toP //.
case: (wf_cases wu) => [->|[x [u' [-> x0]]]]; first by rewrite eqxx.
have -> /= : (x :: u' == [:: 0%Z]) = false.
  by apply/eqP => -[x0']; rewrite x0' eqxx in x0.
by rewrite /get_coefficient /degree /= ltnn subnn.
Qed.

Lemma size_sub_lead (R V : {poly 'F_p}) :
  V != 0 -> (size V <= size R)%nat ->
  (size (R - (lead_coef R / lead_coef V) *: 'X^(size R - size V)%nat * V)%R
    < size R)%nat.
Proof.
move=> V0 le; have sV : (0 < size V)%nat by rewrite size_poly_gt0.
have sR : (0 < size R)%nat := leq_trans sV le.
rewrite -[X in (_ < X)%nat](prednK sR) ltnS; apply/leq_sizeP => j.
rewrite leq_eqVlt => /orP[/eqP<-|lt].
  rewrite coefB -scalerAl coefZ coefXnM ltnNge -subn1 leq_sub2l //=.
  rewrite subnAC subKn // !subn1 -!lead_coefE.
  by rewrite divfK ?subrr // lead_coef_eq0.
rewrite prednK // in lt.
have Rj : R`_j = 0 by apply/(leq_sizeP _ _ (leqnn (size R))).
have dj : (size R - size V <= j)%nat := leq_trans (leq_subr _ _) lt.
rewrite coefB Rj sub0r -scalerAl coefZ coefXnM ltnNge dj /=.
have -> : V`_(j - (size R - size V)) = 0.
  by apply/(leq_sizeP _ _ (leqnn (size V))); rewrite leq_subRL // subnK.
by rewrite mulr0 oppr0.
Qed.

Lemma wf_size_gt0 u : wf_poly P u -> (0 < size u)%nat.
Proof. by case/wf_cases => [->|[x [u' [-> _]]]]. Qed.

Lemma divmod_loopP turns v q r :
  wf_poly P v -> v != [:: 0%Z] -> wf_poly P q -> wf_poly P r ->
  (size (T r) <= turns)%nat ->
  let qr := divmod_loop P turns v q r in
  [/\ wf_poly P qr.1, wf_poly P qr.2,
      T qr.1 * T v + T qr.2 = T q * T v + T r &
      (size (T qr.2) < size (T v))%nat].
Proof.
move=> wv v0; have Tv0 : T v != 0 by rewrite toP_eq0.
have sTv : (0 < size (T v))%nat by rewrite size_poly_gt0.
have sv' : size (T v) = size v by rewrite size_toP // (negbTE v0).
have sv := wf_size_gt0 wv.
elim: turns q r => [|turns IH] q r wq wr.
  by rewrite leqn0 size_poly_eq0 => /eqP Tr0 /=; split; rewrite // Tr0 size_poly0.
have sr := wf_size_gt0 wr.
move=> sr1 /=; case: ifP => [/andP[dvr r0]|test]; last first.
  split=> //=; rewrite size_toP //; case: ifP test => [//|_].
  rewrite andbT sv' /degree => /negbT; rewrite -ltnNge.
  by case: (size r) (size v) => [|a] [|b].
set t := fdiv _ _ _; set d := (_ - _)%nat.
have Flv : F (lead v) != 0 by rewrite -lead_toP // lead_coef_eq0.
have := IH (padd P q (monomial t d)) (psub P r (pmul P (monomial t d) v)).
rewrite /= !toP_padd !toP_psub !toP_pmul !toP_monomial => /(_ (wf_padd _ _) (wf_psub _ _)).
have sr' : size (T r) = size r by rewrite size_toP // (negbTE r0).
have le : (size (T v) <= size (T r))%nat.
  by rewrite sr' sv'; move: dvr sr sv; rewrite /degree; case: (size r) (size v) => [|a] [|b].
have dE : d = (size (T r) - size (T v))%nat.
  by rewrite sr' sv' /d /degree; case: (size r) (size v) sr sv => [|a] [|b].
have tE : F t = lead_coef (T r) / lead_coef (T v).
  by rewrite /t toF_fdiv // !lead_toP.
have := size_sub_lead Tv0 le; rewrite -dE -tE => lt.
case; first by rewrite -ltnS (leq_trans lt).
move=> w1 w2 e s; split=> //; rewrite e.
by rewrite mulrDl addrACA subrr addr0.
Qed.

Lemma pdivmodP u v :
  wf_poly P u -> wf_poly P v -> v != [:: 0%Z] ->
  exists q r, [/\ pdivmod P u v = Ok (q, r), wf_poly P q, wf_poly P r,
                  T q = T u %/ T v & T r = T u %% T v].
Proof.
move=> wu wv v0; rewrite /pdivmod (negbTE v0).
have w0 : wf_poly P [:: 0%Z] by apply: wf_constant; apply: residue0.
have [] := @divmod_loopP (size u) v [:: 0%Z] u wv v0 w0 wu (size_toP_leq u).
case: (divmod_loop _ _ _ _ _) => q r /= wq wr e s; exists q, r; split=> //.
  by apply: (@divpP _ _ _ _ (T r)) => //; rewrite e toP_cons toF0 // scale0r !add0r mul0r add0r.
by apply: (@modpP _ _ (T q)) => //; rewrite e toP_cons toF0 // scale0r !add0r mul0r add0r.
Qed.

End PolyBridge.

(* ===================================================================== *)
(** ** [is_prime] decides primality *)
(* ===================================================================== *)

Section IsPrime.

Local Open Scope Z_scope.

Lemma mem_range3_odd (lo hi x : Z) :
  x \in range3 lo hi 2 <-> (lo <= x < hi /\ (x - lo) mod 2 = 0).
Proof.
rewrite /range3; split=> [/mapP[i]|[bd ev]].
  rewrite mem_iota add0n => /andP[_ /ltP lt] ->; split.
    split; first by lia.
    have: Z.of_nat i < (hi - lo + 2 - 1) / 2 by lia.
    by move: (Z.of_nat i) => j; Z.div_mod_to_equations; lia.
  have -> : lo + 2 * Z.of_nat i - lo = Z.of_nat i * 2 by lia.
  exact: Z_mod_mult.
apply/mapP; exists (Z.to_nat ((x - lo) / 2)).
  rewrite mem_iota add0n leq0n; apply/ltP.
  suff: (x - lo) / 2 < (hi - lo + 2 - 1) / 2 /\ 0 <= (x - lo) / 2 by lia.
  by move: ev; Z.div_mod_to_equations; lia.
rewrite Z2Nat.id; first by move: ev; Z.div_mod_to_equations; lia.
by move: ev; Z.div_mod_to_equations; lia.
Qed.

Lemma dvdn_Zmod (d m : nat) : (0 < d)%nat ->
  (d %| m)%nat = (Z.of_nat m mod Z.of_nat d =? 0).
Proof.
move=> /ltP d0; apply/dvdnP/Z.eqb_spec => [[c ->]|e].
  by rewrite -multE Nat2Z.inj_mul Z_mod_mult.
exists (Z.to_nat (Z.of_nat m / Z.of_nat d)); rewrite -multE.
apply: Nat2Z.inj; rewrite Nat2Z.inj_mul Z2Nat.id.
  by apply: Z.div_pos; lia.
by move: e; Z.div_mod_to_equations; nia.
Qed.

(** Below [2^53] an [int] is a double, and the rounded square root is the
    integer square root or, next to a square, one more. *)
Lemma float_round_small (n : Z) : n < 2 ^ 53 -> float_round n = n.
Proof.
move=> n53; rewrite /float_round; case: Z.leb_spec => // e0.
have [n0|n0] := Z.le_gt_cases n 0.
  by move: e0; rewrite Z.log2_nonpos.
by have /(Z.log2_lt_pow2 _ _ n0) := n53; lia.
Qed.

Lemma float_of_int_small (n : Z) : n < 2 ^ 53 -> float_of_int n = Ok n.
Proof.
move=> n53; rewrite /float_of_int float_round_small //.
have lt : 2 ^ 53 < 2 ^ 1024 by apply: Z.pow_lt_mono_r.
by case: Z.geb_spec => //; lia.
Qed.

Lemma int_sqrt_small (f : Z) :
  0 <= f < 2 ^ 53 -> Z.sqrt f <= int_sqrt f <= Z.sqrt f + 1.
Proof.
move=> [f0 f53]; rewrite /int_sqrt; case: Z.leb_spec => [fle|fpos].
  by have -> : f = 0 by lia.
have l53 : Z.log2 f < 53 by apply/Z.log2_lt_pow2.
have l0 := Z.log2_nonneg f.
set e := Z.log2 f / 2.
have e26 : 0 <= e <= 26 by rewrite /e; Z.div_mod_to_equations; lia.
case: Z.leb_spec => [_|]; last by lia.
set w := 2 ^ (52 - e); have w0 : 0 < w by apply: Z.pow_pos_nonneg; lia.
set g := f * (w * w); set t := Z.sqrt g.
have g0 : 0 <= g by rewrite /g; nia.
have [sq1 sq2] : Z.sqrt f * Z.sqrt f <= f < Z.succ (Z.sqrt f) * Z.succ (Z.sqrt f).
  exact: Z.sqrt_spec.
have s0 := Z.sqrt_nonneg f.
have lo : Z.sqrt f * w <= t.
  by apply/Z.sqrt_le_square; rewrite /g; nia.
have hi : t < (Z.sqrt f + 1) * w.
  by apply/Z.sqrt_lt_square; rewrite /g; nia.
set t' := if _ then _ else _.
have [t1 t2] : Z.sqrt f * w <= t' <= (Z.sqrt f + 1) * w.
  by rewrite /t'; case: ifP => _; lia.
split; first by apply: Z.div_le_lower_bound; lia.
by apply: Z.div_le_upper_bound; lia.
Qed.

(** Trial division by the odd numbers from 3 up to a bound at or just
    above the square root. *)
Lemma trial_divisionP (n r : Z) :
  2 <= n -> Z.sqrt n <= r <= Z.sqrt n + 1 ->
  (if (n mod 2 =? 0) && (n >? 2) then false
   else all (fun i => ~~ (n mod i =? 0)) (range3 3 (r + 1) 2))
  = prime (Z.to_nat n).
Proof.
move=> n2 [r1 r2].
set m := Z.to_nat n; have mE : Z.of_nat m = n by rewrite /m; lia.
have m1 : (1 < m)%nat by apply/ltP; rewrite /m; lia.
have [sq1 sq2] :
  Z.sqrt n * Z.sqrt n <= n < Z.succ (Z.sqrt n) * Z.succ (Z.sqrt n).
  by apply: Z.sqrt_spec; lia.
have sq0 := Z.sqrt_nonneg n.
apply/idP/idP => [|pm].
  case: ifP => // tst allp; apply/negPn/negP => npm.
  have q2 : (expn (pdiv m) 2 <= m)%nat.
    by rewrite leqNgt; apply: contra npm; apply: ltn_pdiv2_prime (ltnW m1).
  have pq := pdiv_prime m1; have dq := pdiv_dvd m.
  have q1 := prime_gt1 pq.
  have q0 : (0 < pdiv m)%nat := ltnW q1.
  move: dq; rewrite dvdn_Zmod // mE.
  move/Z.eqb_spec => dq.
  have {}q2 : Z.of_nat (pdiv m) * Z.of_nat (pdiv m) <= n.
    by move/leP: q2; rewrite -mE -mulnn -multE; lia.
  have [q_2|qodd] := even_prime pq.
    move: tst dq; rewrite q_2 /= => /negbT; rewrite negb_and.
    case: Z.eqb_spec => //= _; case: Z.gtb_spec => // n_le2 _ _.
    by move: q2 q1; rewrite q_2 -mE /=; lia.
  have /allP/(_ (Z.of_nat (pdiv m))) := allp; rewrite dq /=.
  suff: Z.of_nat (pdiv m) \in range3 3 (r + 1) 2 by move=> -> /(_ isT).
  apply/mem_range3_odd.
  have q3 : 3 <= Z.of_nat (pdiv m).
    move/ltP: q1 => q1; suff: Z.of_nat (pdiv m) <> 2 by lia.
    by move=> e; move: qodd; have -> : pdiv m = 2%nat by lia.
  split; first by nia.
  have := odd_double_half (pdiv m); rewrite qodd -muln2 -multE -plusE => qE.
  have -> : Z.of_nat (pdiv m) - 3 = (Z.of_nat (pdiv m)./2 - 1) * 2.
    by rewrite -[in LHS]qE [nat_of_bool _]/=; lia.
  exact: Z_mod_mult.
have -> /= : (n mod 2 =? 0) && (n >? 2) = false.
  apply/negP => /andP[/Z.eqb_spec e /Z.gtb_lt g2].
  have : (2 %| m)%nat by rewrite dvdn_Zmod // mE; apply/Z.eqb_spec.
  by rewrite (dvdn_prime2 _ pm) // => /eqP e2; move: g2; rewrite -mE -e2; lia.
apply/allP => i /mem_range3_odd[[i3 ilt] _]; apply/negP => /Z.eqb_spec e.
have i0 : (0 < Z.to_nat i)%nat by apply/ltP; lia.
have : (Z.to_nat i %| m)%nat.
  by rewrite dvdn_Zmod // Z2Nat.id ?mE; [lia | apply/Z.eqb_spec].
move/primeP: pm => [_ pm] /pm /orP[] /eqP ei; first by lia.
have ein : i = n by lia.
by move: ilt sq1; rewrite ein; nia.
Qed.

(** Below [2^53], [is_prime] decides primality. *)
Lemma is_primeP (n : Z) : n < 2 ^ 53 -> is_prime n = Ok (prime (Z.to_nat n)).
Proof.
move=> n53; rewrite /is_prime; case: Z.ltb_spec => [n2|n2] /=.
  by congr Ok; apply/esym/negbTE/negP => /prime_gt1/ltP; lia.
have bd : Z.sqrt n <= int_sqrt n <= Z.sqrt n + 1 by apply: int_sqrt_small; lia.
rewrite -(trial_divisionP n2 bd).
by case: ifP => //= _; rewrite float_of_int_small.
Qed.

(** From [2^1024 - 2^970] on, the nearest double is no longer finite. *)
Lemma float_round_top (n : Z) :
  2 ^ 1024 - 2 ^ 970 <= n < 2 ^ 1024 -> float_round n = 2 ^ 1024.
Proof.
move=> [lo hi].
have l : Z.log2 n = 1023.
  apply: Z.log2_unique => //; split; last by [].
  by apply: Z.le_trans lo; vm_compute.
rewrite /float_round l.
have -> : 1023 + 1 - 53 = 971 by [].
rewrite [971 <=? 0]/= [971 - 1]/=.
have e2 : 2 ^ 1024 = 2 ^ 53 * 2 ^ 971 by rewrite -Z.pow_add_r.
have e3 : 2 ^ 971 = 2 * 2 ^ 970 by rewrite -(Z.pow_succ_r 2 970).
move: lo hi; rewrite e2 e3 -e3.
set P := 2 ^ 971; set H := 2 ^ 970 => lo hi.
have P0 : 0 < P by apply: Z.pow_pos_nonneg.
have PH : P = 2 * H by [].
have mE : n / P = 2 ^ 53 - 1.
  by move: lo hi (Z_div_mod_eq_full n P) (Z.mod_pos_bound n P P0); nia.
have rE : H <= n mod P.
  by move: lo hi mE (Z_div_mod_eq_full n P) (Z.mod_pos_bound n P P0); nia.
rewrite mE.
have -> : (n mod P >? H) || (n mod P =? H) && Z.odd (2 ^ 53 - 1) = true.
  have -> : Z.odd (2 ^ 53 - 1) = true by [].
  by rewrite andbT; case: Z.gtb_spec => //= le; apply/Z.eqb_eq; lia.
by have -> : 2 ^ 53 - 1 + 1 = 2 ^ 53 by [].
Qed.

Lemma float_round_pow2 (n : Z) : 0 < n -> 2 ^ Z.log2 n <= float_round n.
Proof.
move=> n0; have [l1 l2] := Z.log2_spec n n0; have l0 := Z.log2_nonneg n.
rewrite /float_round; case: Z.leb_spec => // e0.
set e := Z.log2 n + 1 - 53 in e0 *.
have E : 2 ^ Z.log2 n = 2 ^ 52 * 2 ^ e.
  have {1}-> : Z.log2 n = 52 + e by rewrite /e; lia.
  by apply: Z.pow_add_r; lia.
have P0 : 0 < 2 ^ e by apply: Z.pow_pos_nonneg; lia.
have m52 : 2 ^ 52 <= n / 2 ^ e by apply: Z.div_le_lower_bound; lia.
set m' := if _ then _ else _.
have : n / 2 ^ e <= m' by rewrite /m'; case: ifP => _; lia.
by rewrite E; nia.
Qed.

Lemma float_of_int_overflow (n : Z) :
  2 ^ 1024 - 2 ^ 970 <= n -> float_of_int n = Raise OverflowError.
Proof.
move=> lo; rewrite /float_of_int.
have [hi|hi] := Z.lt_ge_cases n (2 ^ 1024).
  by rewrite float_round_top.
have n0 : 0 < n by apply: Z.lt_le_trans hi.
have /(Z.log2_le_pow2 _ _ n0) l := hi.
have := float_round_pow2 n0.
have : 2 ^ 1024 <= 2 ^ Z.log2 n by apply: Z.pow_le_mono_r.
by case: Z.geb_spec => //; lia.
Qed.

(** [is_prime] raises on the odd numbers from that bound on. *)
Lemma is_prime_overflow (n : Z) :
  2 ^ 1024 - 2 ^ 970 <= n -> Z.odd n -> is_prime n = Raise OverflowError.
Proof.
move=> lo odd_n; rewrite /is_prime float_of_int_overflow //.
have n2 : 2 <= n by apply: Z.le_trans lo.
case: Z.ltb_spec => [|_] /=; first by lia.
case: Z.eqb_spec => // e; move: odd_n; rewrite -Z.negb_even.
have -> // : Z.even n = true.
apply/Z.even_spec; exists (n / 2).
by move: e; Z.div_mod_to_equations; lia.
Qed.

End IsPrime.

(* ===================================================================== *)
(** ** rscoder.py: the constructor *)
(* ===================================================================== *)

Section Construction.

Local Open Scope Z_scope.

Lemma foldM_Ok {A : eqType} {S} (f : S -> A -> result S) (f' : S -> A -> S) s0 xs :
  (forall s x, x \in xs -> f s x = Ok (f' s x)) ->
  foldM f s0 xs = Ok (foldl f' s0 xs).
Proof.
rewrite /foldM; elim/last_ind: xs => [|xs x IH] // fE.
rewrite -!cats1 !foldl_cat /= IH /=.
  by move=> s y yin; rewrite fE // mem_rcons inE yin orbT.
by rewrite fE // mem_rcons inE eqxx.
Qed.

Lemma foldM_Raise {A S} (f : S -> A -> result S) e s0 xs :
  xs <> [::] -> (forall s x, f s x = Raise e) -> foldM f s0 xs = Raise e.
Proof.
case: xs => // x xs _ fE; rewrite /foldM /= fE.
by elim: xs => [|y xs IH].
Qed.

Lemma alphabet_size : Z.of_nat (size mapper_default_alphabet) = 59.
Proof. by vm_compute. Qed.

Lemma default_mapperE :
  Mapper.__init__ mapper_default_alphabet mapper_default_equivs
    = Ok default_mapper.
Proof. by vm_compute. Qed.

Lemma PFint_new_PF (q z : Z) x :
  is_prime q = Ok true -> residue q z ->
  PFint_new q (PyPF (mkPF x z)) = Ok (PyPF (mkPF q z)).
Proof.
rewrite /PFint_new => -> /andP[/Z.leb_le z0 /Z.ltb_lt zq] /=.
by case: Z.geb_spec; case: Z.ltb_spec => //; lia.
Qed.

Lemma val_new (q z : Z) :
  is_prime q = Ok true -> residue q z -> val (PFint_new q (PyInt z)) = Ok z.
Proof. by rewrite /residue => pq rz; rewrite /val PFint_new_int // rz. Qed.

Lemma residue_1 q : is_prime q = Ok true -> residue q 1.
Proof. by move/is_prime_ge2 => q2; apply/andP; split; [|apply/Z.ltb_lt; lia]. Qed.

Lemma residue_0 q : is_prime q = Ok true -> residue q 0.
Proof. by move/is_prime_ge2 => q2; apply/andP; split; [|apply/Z.ltb_lt; lia]. Qed.

Lemma residue_modq q z : is_prime q = Ok true -> residue q (z mod q).
Proof.
move/is_prime_ge2 => q2; have := Z.mod_pos_bound z q.
by move=> bd; apply/andP; split; [apply/Z.leb_le|apply/Z.ltb_lt]; lia.
Qed.

Lemma pow_nonneg (q alpha l : Z) :
  is_prime q = Ok true -> residue q alpha -> 0 <= l ->
  __pow__ (mkPF q alpha) (PyInt l) = Ok (PyPF (mkPF q (pow3 alpha l q))).
Proof.
move=> pq ra l0; rewrite /__pow__ /=.
by have -> : (l <? 0) = false; [lia | rewrite PFint_new_mod].
Qed.

Lemma findgen_residue q alpha : findgen q = Some alpha -> residue q alpha.
Proof.
rewrite /findgen; set l := filter _ _; case E: l => [|x l'] //= [<-].
have : x \in l by rewrite E inE eqxx.
rewrite mem_filter => /andP[_ /mem_xrange[x0 xq]].
by apply/andP; split; [apply/Z.leb_le|apply/Z.ltb_lt].
Qed.

(** What a successful construction has checked and built. *)
Lemma init_Ok (q n k alpha : Z) (mp : option Mapper) :
  is_prime q = Ok true -> 0 <= k < n -> n < q ->
  (mp = None -> q <= 59) -> findgen q = Some alpha ->
  Rscoder.__init__ q n k mp
    = Ok (coder (if mp is Some m then m else default_mapper) alpha q n k).
Proof.
move=> pq [k0 kn] nq mpq fg; have ra := findgen_residue fg.
rewrite /Rscoder.__init__ fg alphabet_size.
have -> : (n <? 0) || (k <? 0) = false by apply/negP => /orP[] /Z.ltb_lt; lia.
have -> /= : (n <? q) = true by apply/Z.ltb_lt.
have -> /= : (k <? n) = true by apply/Z.ltb_lt.
have -> /= : match mp with
       | Some m => Ok m
       | None =>
           if q <=? 59
           then Mapper.__init__ mapper_default_alphabet mapper_default_equivs
           else Raise ValueError
       end = Ok (if mp is Some m then m else default_mapper).
  case: mp mpq => [//|] /(_ erefl) q59.
  by rewrite default_mapperE; have -> : q <=? 59 = true by apply/Z.leb_le.
rewrite {1}/PFint_new pq /= PFint_new_int // -/(residue q alpha) ra /=.
rewrite !val_new ?residue_1 //=.
rewrite (@foldM_Ok _ _ _ (fun g l => pmul q g (g_factor q alpha l))).
  move=> s l /mem_xrange[l1 _]; rewrite PFint_new_PF //= pow_nonneg //=; first by lia.
  by rewrite /val /__neg__ /= PFint_new_mod //= val_new // residue_1.
rewrite /= (@foldM_Ok _ _ _ (fun g l => pmul q g (h_factor q alpha l))) //.
by move=> s l /mem_xrange[l1 _]; rewrite PFint_new_PF //= /val pow_nonneg //=; lia.
Qed.

Lemma init_inv (q n k : Z) (mp : option Mapper) cd :
  Rscoder.__init__ q n k mp = Ok cd ->
  [/\ is_prime q = Ok true, 0 <= k < n, n < q, mp = None -> q <= 59 &
      exists2 alpha, findgen q = Some alpha &
        cd = coder (if mp is Some m then m else default_mapper) alpha q n k].
Proof.
move=> e; move: (e); rewrite /Rscoder.__init__ alphabet_size.
case: ifP => // /negbT; rewrite negb_or => /andP[/negbTE n0 /negbTE k0].
case: ifP => // /negbFE /Z.ltb_lt nq; case: ifP => // /negbFE /Z.ltb_lt kn.
have k0' : 0 <= k by move/Z.ltb_ge: k0.
case mpE : (match mp with Some m => _ | None => _ end) => [m|] //=.
have mpq : mp = None -> q <= 59.
  by move=> mpN; move: mpE; rewrite mpN; case: Z.leb_spec.
rewrite {1}/PFint_new; case pq: (is_prime q) => [[]|] //=.
case fg: (findgen q) => [alpha|] /=.
  move=> _; split=> //; exists alpha => //.
  by move: e; rewrite (init_Ok pq _ nq mpq fg) //; case.
rewrite {1}/PFint_new pq /= val_new ?residue_1 //=.
rewrite (@foldM_Raise _ _ _ ValueError) //.
  by move/(congr1 size); rewrite size_xrange /=; lia.
by move=> s x; rewrite /PFint_new pq.
Qed.

End Construction.

(* ===================================================================== *)
(** ** mapper.py: reading and writing symbols *)
(* ===================================================================== *)

Arguments conv_chr : simpl never.
Arguments conv_int : simpl never.

Section MapperFacts.

Local Open Scope Z_scope.

Variables (mp : Mapper) (q : Z).
Hypothesis mp_ok : mapper_ok mp q.

Lemma n2c_chr z : residue q z -> dict_get (table_n2c mp) z = Some (chr mp z).
Proof.
move=> /andP[/Z.leb_le z0 /Z.ltb_lt zq]; rewrite /chr.
have /allP/(_ z) := mp_ok; have -> : z \in xrange 0 q by apply/mem_xrange.
by move=> /(_ isT); case: (dict_get _ z).
Qed.

Lemma ord_chr z : residue q z -> ord mp (chr mp z) = z.
Proof.
move=> rz; have := n2c_chr rz; rewrite /ord.
move/andP: rz => [/Z.leb_le z0 /Z.ltb_lt zq].
have /allP/(_ z) := mp_ok; have -> : z \in xrange 0 q by apply/mem_xrange.
by move=> /(_ isT) + e; rewrite e => /eqP ->.
Qed.

Lemma readable_chr z : residue q z -> readable mp q (chr mp z).
Proof. by move=> rz; rewrite /readable ord_chr. Qed.

Lemma symbol_chr z : residue q z -> symbol mp q (chr mp z).
Proof. by move=> rz; rewrite /symbol readable_chr // ord_chr // eqxx. Qed.

Lemma pad_Ok s w : 0 < q -> pad mp s w = Ok (rjust s w (chr mp 0)).
Proof.
move=> q0; rewrite /pad n2c_chr //.
by apply/andP; split; [|apply/Z.ltb_lt].
Qed.

Lemma strip_Ok s : 0 < q -> strip mp s = Ok (lstrip s (chr mp 0)).
Proof.
move=> q0; rewrite /strip n2c_chr //.
by apply/andP; split; [|apply/Z.ltb_lt].
Qed.

Lemma conv_chrE c : conv_chr (C2N (table_c2n mp)) c = DInt (ord mp c).
Proof. by rewrite /conv_chr /ord; case: (dict_get _ c). Qed.

(** Reading a string: a single character gives a bare [int], no character
    gives nothing to look at, and two or more give the list of values. *)
Lemma decode_str s :
  Mapper.decode mp (DStr s) =
    match s with
    | [::] => Raise IndexError
    | [:: c] => Ok (DInt (ord mp c))
    | _ => Ok (DList [seq DInt (ord mp c) | c <- s])
    end.
Proof.
rewrite /Mapper.decode; case: s => [|c [|c' s]] //=; rewrite !conv_chrE //.
by congr (Ok (DList (_ :: _ :: _))); apply: eq_map => x; rewrite conv_chrE.
Qed.

Lemma mapM_Ok {A B} (f : A -> result B) (f' : A -> B) (a : pred A) s :
  (forall x, a x -> f x = Ok (f' x)) -> all a s -> mapM f s = Ok (map f' s).
Proof.
by move=> fE; elim: s => [|x s IH] //= /andP[/fE-> /IH->].
Qed.

(** Writing a non-empty sequence of residues. *)
Lemma encode_list (c : seq Z) :
  c != [::] -> all (residue q) c ->
  Mapper.encode mp (DList [seq DInt z | z <- c]) = Ok (DStr [seq chr mp z | z <- c]).
Proof.
move=> c0 rc; rewrite /Mapper.encode /=.
have -> : mapM (_conv (N2C (table_n2c mp))) [seq DInt z | z <- c]
          = Ok [seq DStr [:: chr mp z] | z <- c].
  elim: (c) rc => [|z c' IH] //= /andP[rz rc']; rewrite IH //.
  by rewrite /conv_int n2c_chr.
case: c c0 rc => [|z c] //= _ _.
have -> : mapM (fun x => if x is DStr s then Ok s else Raise TypeError)
            [seq DStr [:: chr mp z0] | z0 <- c] = Ok [seq [:: chr mp z0] | z0 <- c].
  by elim: c => [|y c IH] //=; rewrite IH.
by rewrite /=; congr (Ok (DStr (_ :: _))); elim: c => [|y c IH] //=; rewrite IH.
Qed.

End MapperFacts.

Lemma default_mapper_ok : mapper_ok default_mapper 59.
Proof. by vm_compute. Qed.

Lemma mapper_ok_le mp q q' : (q' <= q)%Z -> mapper_ok mp q -> mapper_ok mp q'.
Proof.
move=> le /allP ok; apply/allP => z /mem_xrange zq; apply: ok.
by apply/mem_xrange; lia.
Qed.

(* ===================================================================== *)
(** ** [findgen]: the generator of the multiplicative group *)
(* ===================================================================== *)

Section Findgen.

Variable p : nat.
Hypothesis pp : prime p.

Local Notation q := (Z.of_nat p).
Local Notation F := (toF p).

Import GRing.Theory.
Local Open Scope ring_scope.

Lemma range_iota : range q = [seq Z.of_nat i | i <- iota 0 p].
Proof.
rewrite /range range3_1 Z.sub_0_r Nat2Z.id.
by apply: eq_map => i; rewrite Z.add_0_l.
Qed.

Lemma findgen_powers (g : Z) :
  [seq F z | z <- [seq pow3 g i q | i <- range q]] =
  [seq F g ^+ i | i <- iota 0 p].
Proof.
rewrite range_iota -!map_comp; apply: eq_map => i.
by rewrite /comp /pow3 toF_mod // toF_exp.
Qed.

Lemma size_undup_map (s : seq Z) :
  all (residue q) s -> size (undup [seq F z | z <- s]) = size (undup s).
Proof.
move=> rs; rewrite -(size_map F (undup s)).
apply/perm_size/uniq_perm; first exact: undup_uniq.
  rewrite map_inj_in_uniq ?undup_uniq // => x y.
  rewrite !mem_undup => /(allP rs) rx /(allP rs) ry.
  exact: residue_inj.
move=> x; rewrite mem_undup.
by apply/mapP/mapP => -[z zs ->]; exists z; rewrite // ?mem_undup // -mem_undup.
Qed.

Lemma findgen_testE (g : Z) :
  (Z.of_nat (size (undup [seq pow3 g i q | i <- range q])) == (q - 1)%Z) =
  (size (undup [seq F g ^+ i | i <- iota 0 p]) == p.-1).
Proof.
have rs : all (residue q) [seq pow3 g i q | i <- range q].
  by apply/allP => z /mapP[i _ ->]; apply: residue_mod.
rewrite -findgen_powers (size_undup_map rs).
have /ltP p1 := prime_gt1 pp.
by apply/eqP/eqP; rewrite -subn1 -minusE; lia.
Qed.

Lemma findgen_test (alpha : Z) :
  findgen q = Some alpha ->
  size (undup [seq F alpha ^+ i | i <- iota 0 p]) = p.-1.
Proof.
rewrite /findgen; set l := filter _ _; case E: l => [|x l'] //= [<-].
have : x \in l by rewrite E inE eqxx.
by rewrite mem_filter findgen_testE => /andP[/eqP].
Qed.

(** A generator found for a prime other than 3 is not zero. *)
Lemma findgen_nonzero (alpha : Z) :
  findgen q = Some alpha -> p != 3%nat -> F alpha != 0.
Proof.
move=> /findgen_test sz p3; apply: contra p3 => /eqP a0; move: sz.
have -> : iota 0 p = 0%nat :: iota 1 p.-1.
  by rewrite -[in LHS](prednK (prime_gt0 pp)).
rewrite map_cons a0 expr0.
have -> : [seq (0 : 'F_p) ^+ i | i <- iota 1 p.-1] = nseq p.-1 0.
  apply: (@eq_from_nth _ 0); first by rewrite size_map size_iota size_nseq.
  move=> i; rewrite size_map size_iota => ip.
  by rewrite (nth_map 0%nat) ?size_iota // nth_iota // nth_nseq ip expr0n.
have : (0 < p.-1)%nat by rewrite -ltnS prednK ?prime_gt0 // prime_gt1.
have -> : (p == 3%nat) = (p.-1 == 2%nat).
  by rewrite -[in LHS](prednK (prime_gt0 pp)).
case: (p.-1) => [|m] // _.
have u0 : undup (nseq m.+1 (0 : 'F_p)) = [:: 0].
  by elim: m => [|m ih] //=; rewrite inE eqxx /=; exact: ih.
have cons1 (s : seq 'F_p) : 1 \notin s -> undup (1 :: s) = 1 :: undup s.
  by move=> /negbTE /= ->.
have n1 : (1 : 'F_p) \notin nseq m.+1 0.
  by apply/negP => /nseqP[/eqP]; rewrite oner_eq0.
by rewrite (cons1 _ n1) u0 => -[<-].
Qed.

(** The powers of the generator repeat no sooner than after [p - 1]
    steps. *)
Lemma findgen_order (alpha : Z) (e : nat) :
  findgen q = Some alpha -> (0 < e)%nat -> F alpha ^+ e = 1 ->
  (p.-1 <= e)%nat.
Proof.
move=> /findgen_test sz e0 xe; rewrite -sz.
rewrite -[leqRHS](size_iota 0 e) -(size_map (fun r => F alpha ^+ r)).
apply: uniq_leq_size; first exact: undup_uniq.
move=> y; rewrite mem_undup => /mapP[m _ ->].
apply/mapP; exists (m %% e)%nat; first by rewrite mem_iota add0n /= ltn_mod.
by rewrite [in LHS](divn_eq m e) exprD mulnC exprM xe expr1n mul1r.
Qed.

Lemma findgen_inj (alpha : Z) (i j : nat) :
  findgen q = Some alpha -> F alpha != 0 ->
  (i < p.-1)%nat -> (j < p.-1)%nat -> F alpha ^+ i = F alpha ^+ j -> i = j.
Proof.
move=> fg a0; wlog le_ij : i j / (i <= j)%nat.
  move=> ih ip jp eq; case: (leqP i j) => [|/ltnW] le; first exact: ih.
  by apply/esym/ih.
move=> ip jp eq; apply/eqP; rewrite eqn_leq le_ij /= -subn_eq0.
case: posnP => // d0.
suff /(findgen_order fg d0) : F alpha ^+ (j - i) = 1.
  by move=> le; have := leq_ltn_trans (leq_trans le (leq_subr i j)) jp; rewrite ltnn.
apply: (mulfI (expf_neq0 i a0)).
by rewrite -exprD subnKC // mulr1.
Qed.

(** The roots of the generator polynomial are distinct when at least one
    message symbol is left. *)
Lemma uniq_g_roots (alpha : Z) (d : nat) :
  findgen q = Some alpha -> (d.+1 < p)%nat -> uniq (g_roots p alpha d).
Proof.
move=> fg dp; case: (p =P 3%nat) => [p3|/eqP p3].
  by move: dp; rewrite p3; case: d => [|[|d]].
have a0 := findgen_nonzero fg p3.
rewrite /g_roots map_inj_in_uniq ?iota_uniq // => i j.
rewrite !mem_iota !add0n /= => ip jp /(findgen_inj fg a0) h.
have dp' : (d < p.-1)%nat by rewrite -ltnS prednK // prime_gt0.
by apply/succn_inj/h; [apply: leq_ltn_trans dp' | apply: leq_ltn_trans dp'].
Qed.

(** Every prime has a generator for [findgen] to find. *)
Lemma findgen_exists : exists alpha, findgen q = Some alpha.
Proof.
pose rs := enum (predC1 (0 : 'F_p)).
have p0 : (0 < p.-1)%nat by rewrite -ltnS prednK ?prime_gt0 // prime_gt1.
have szrs : size rs = p.-1 by rewrite -cardE cardC1 card_Fp.
have /hasP[z _ prim] : has p.-1.-primitive_root rs.
  apply: has_prim_root; rewrite ?enum_uniq ?szrs //.
  apply/allP => x; rewrite mem_enum unity_rootE => /= x0.
  apply/eqP/(mulfI x0); rewrite -exprS mulr1 (prednK (prime_gt0 pp)).
  by have := expf_card x; rewrite card_Fp.
pose alpha := Z.of_nat z.
have Fa : F alpha = z by rewrite toF_nat // natr_Zp.
have test : Z.of_nat (size (undup [seq pow3 alpha i q | i <- range q])) ==
            (q - 1)%Z.
  rewrite findgen_testE Fa; apply/eqP.
  rewrite -[RHS](size_iota 0 p.-1) -[RHS](size_map (fun i => z ^+ i)).
  apply/perm_size/uniq_perm; first exact: undup_uniq.
    rewrite map_inj_in_uniq ?iota_uniq // => i j.
    rewrite !mem_iota !add0n /= => ip jp /eqP.
    by rewrite (eq_prim_root_expr prim) !modn_small // => /eqP.
  move=> y; rewrite mem_undup; apply/mapP/mapP => -[i].
    move=> _ ->; exists (i %% p.-1)%nat; last by rewrite (prim_expr_mod prim).
    by rewrite mem_iota add0n /= ltn_mod.
  rewrite !mem_iota !add0n /= => ip ->; exists i => //.
  by rewrite mem_iota add0n /= (leq_trans ip) // leq_pred.
have mem : alpha \in range q.
  apply/mem_xrange; rewrite /alpha; have := ltn_ord z.
  by rewrite [X in (_ < X)%nat]Fp_cast // => /ltP; lia.
rewrite /findgen; set l := filter _ _.
have : alpha \in l by rewrite mem_filter test.
by case: l => [|x l'] //= _; exists x.
Qed.


(** The powers of a nonzero generator cover the nonzero elements. *)
Lemma findgen_cover (alpha : Z) (y : 'F_p) :
  findgen q = Some alpha -> F alpha != 0 -> y != 0 ->
  exists2 i, (i < p.-1)%nat & y = F alpha ^+ i.
Proof.
move=> fg a0 y0.
pose s1 := [seq F alpha ^+ i | i <- iota 0 p.-1].
pose s2 := enum (predC1 (0 : 'F_p)).
have u1 : uniq s1.
  rewrite map_inj_in_uniq ?iota_uniq // => i j.
  by rewrite !mem_iota !add0n /= => ip jp; apply: findgen_inj.
have sub : {subset s1 <= s2}.
  by move=> x /mapP[i _ ->]; rewrite mem_enum; apply: expf_neq0.
have sz : (size s2 <= size s1)%nat.
  by rewrite -cardE cardC1 card_Fp // size_map size_iota.
have [_ eq] := uniq_min_size u1 sub sz.
have : y \in s1 by rewrite eq mem_enum; apply: y0.
by move=> /mapP[i]; rewrite mem_iota add0n /= => ip ->; exists i.
Qed.

Lemma ohead_filter {A : eqType} (P : pred A) (x0 x : A) (s : seq A) :
  ohead (filter P s) = Some x ->
  exists i, [/\ (i < size s)%nat, nth x0 s i = x, P x &
                forall j, (j < i)%nat -> ~~ P (nth x0 s j)].
Proof.
elim: s => [|y s IH] //=; case Py: (P y) => /=.
  by move=> [<-]; exists 0%nat.
move=> /IH[i [lt e Px before]]; exists i.+1; split=> //.
by move=> [|j] /=; [rewrite Py | rewrite ltnS; apply: before].
Qed.

(** [findgen] returns the first number that passes its test. *)
Lemma findgen_first (alpha g : Z) :
  findgen q = Some alpha -> (0 <= g < alpha)%Z ->
  Z.of_nat (size (undup [seq pow3 g i q | i <- range q])) <> (q - 1)%Z.
Proof.
move=> fg gb; have /andP[/Z.leb_le a0 /Z.ltb_lt aq] := findgen_residue fg.
move: fg; rewrite /findgen => /(ohead_filter 0%Z)[i [lt e _ before]].
move: lt e before; rewrite range_iota size_map size_iota => lt.
rewrite (nth_map 0%nat) ?size_iota // nth_iota // add0n => e before.
have gi : (Z.to_nat g < i)%nat by apply/ltP; lia.
have := before _ gi; rewrite (nth_map 0%nat) ?size_iota ?(ltn_trans gi) //.
rewrite nth_iota ?(ltn_trans gi) // add0n.
have -> : Z.of_nat (Z.to_nat g) = g by lia.
by move=> /eqP.
Qed.

End Findgen.

(** *** [findgen] and composite numbers *)

Section FindgenPrime.

Local Open Scope Z_scope.

Lemma range_nat (m : nat) : range (Z.of_nat m) = [seq Z.of_nat i | i <- iota 0 m].
Proof.
rewrite /range range3_1 Z.sub_0_r Nat2Z.id.
by apply: eq_map => i; rewrite Z.add_0_l.
Qed.

Lemma uniq_range (q : Z) : uniq (range q).
Proof.
rewrite /range range3_1 map_inj_uniq ?iota_uniq // => i j; lia.
Qed.

(** A list of residues that misses two of them has at most [q - 2]
    distinct elements. *)
Lemma size_undup_missing (q x y : Z) (L : seq Z) :
  all (residue q) L -> residue q x -> residue q y -> x <> y ->
  x \notin L -> y \notin L -> Z.of_nat (size (undup L)) <= q - 2.
Proof.
move=> rL /andP[/Z.leb_le x0 /Z.ltb_lt xq] /andP[/Z.leb_le y0 /Z.ltb_lt yq].
move=> xy xL yL.
pose T := rem x (rem y (range q)).
have uT : uniq (rem y (range q)) by rewrite rem_uniq // uniq_range.
have yin : y \in range q by apply/mem_xrange.
have xin : x \in rem y (range q).
  by rewrite (mem_rem_uniq _ (uniq_range q)) !inE; apply/andP; split; [apply/eqP|apply/mem_xrange].
have szT : size T = (Z.to_nat q - 2)%coq_nat.
  rewrite /T size_rem // size_rem // size_xrange Z.sub_0_r.
  by rewrite -!subn1 -!minusE; lia.
have sub : {subset undup L <= T}.
  move=> z; rewrite mem_undup => zL.
  rewrite /T (mem_rem_uniq _ uT) !inE (mem_rem_uniq _ (uniq_range q)) !inE.
  have /andP[/Z.leb_le z0 /Z.ltb_lt zq] := allP rL _ zL.
  apply/and3P; split; last by apply/mem_xrange.
    by apply: contra xL => /eqP <-.
  by apply: contra yL => /eqP <-.
have /leP := uniq_leq_size (undup_uniq L) sub.
by rewrite szT; lia.
Qed.

Lemma pow3_nat (a j q : nat) :
  pow3 (Z.of_nat a) (Z.of_nat j) (Z.of_nat q)
    = Z.of_nat (expn a j) mod Z.of_nat q.
Proof.
rewrite /pow3; congr (_ mod _); elim: j => [|j IH] //.
by rewrite Nat2Z.inj_succ Z.pow_succ_r ?IH ?expnS -?multE; lia.
Qed.

(** [findgen] finds nothing to return for a composite number other than
    4: the powers of a number miss two residues at least. *)
Lemma findgen_prime (q alpha : Z) :
  2 <= q -> q <> 4 -> findgen q = Some alpha -> prime (Z.to_nat q).
Proof.
move=> q2 q4 fg; apply/negPn/negP => npm.
set m := Z.to_nat q in npm; have mE : q = Z.of_nat m by rewrite /m; lia.
have m1 : (1 < m)%nat by apply/ltP; rewrite /m; lia.
have /andP[/Z.leb_le a0 /Z.ltb_lt aq] := findgen_residue fg.
set a := Z.to_nat alpha; have aE : alpha = Z.of_nat a by rewrite /a; lia.
have pr := pdiv_prime m1; have rm := pdiv_dvd m.
set r := pdiv m in pr rm.
have r1 := prime_gt1 pr; have r0 : (0 < r)%nat := ltnW r1.
have rltm : (r < m)%nat.
  rewrite ltn_neqAle dvdn_leq ?(ltnW m1) // andbT.
  by apply: contra npm => /eqP <-.
have /ltP r1' := r1; have /ltP rltm' := rltm.
have rq : (Z.of_nat r | q) by move/dvdnP: rm => [c e]; exists (Z.of_nat c); rewrite mE e -multE; lia.
have modr z : (z mod q) mod Z.of_nat r = z mod Z.of_nat r.
  exact: Z.mod_mod_divide.
pose L := [seq pow3 alpha i q | i <- range q].
have sz : Z.of_nat (size (undup L)) = q - 1.
  move: fg; rewrite /findgen; set l := filter _ _; case E: l => [|x l'] //= [xa].
  have : x \in l by rewrite E inE eqxx.
  by rewrite mem_filter xa => /andP[/eqP].
have rL : all (residue q) L.
  apply/allP => z /mapP[i _ ->]; rewrite /pow3.
  have := Z.mod_pos_bound (alpha ^ i) q.
  by move=> bd; apply/andP; split; [apply/Z.leb_le|apply/Z.ltb_lt]; lia.
have Lr z : z \in L -> exists j : nat, z = Z.of_nat (expn a j) mod q.
  move=> /mapP[i]; rewrite [in range q]mE range_nat => /mapP[j _ ->] ->.
  by exists j; rewrite aE mE pow3_nat.
suff [x [y [rx ry xy [xL yL]]]] :
    exists x y, [/\ residue q x, residue q y, x <> y & x \notin L /\ y \notin L].
  by have := size_undup_missing rL rx ry xy xL yL; lia.
have res z : 0 <= z < q -> residue q z.
  by move=> bd; apply/andP; split; [apply/Z.leb_le|apply/Z.ltb_lt]; lia.
have [ra|nra] := boolP (r %| a)%nat.
- (* every power but the first is a multiple of r *)
  have LP z : z \in L -> z = 1 \/ z mod Z.of_nat r = 0.
    move=> /Lr[[|j] ->]; first by left; rewrite expn0 Z.mod_1_l; lia.
    right; rewrite modr; apply/Z.eqb_spec; rewrite -dvdn_Zmod //.
    by rewrite expnS dvdn_mulr.
  have r2m : (2 * Z.of_nat r <= q).
    move/dvdnP: rm => [c e].
    have : Z.of_nat m = Z.of_nat c * Z.of_nat r by rewrite e -multE; lia.
    rewrite mE => e'.
    have [c1|c2] : Z.of_nat c <= 1 \/ 2 <= Z.of_nat c by lia.
      have [c'|c'] : Z.of_nat c = 0 \/ Z.of_nat c = 1 by lia.
        by move: e'; rewrite c'; lia.
      by move: e'; rewrite c'; lia.
    by nia.
  exists (Z.of_nat r + 1), (q - 1); split; [apply: res; lia | apply: res; lia | | split].
  + move=> e; have qE : q = Z.of_nat r + 2 by lia.
    case: rq => c; rewrite qE => ce.
    have r2 : Z.of_nat r = 2.
      have d2 : (Z.of_nat r | 2) by exists (c - 1); lia.
      by have := Z.divide_pos_le _ _ (erefl : 0 < 2) d2; lia.
    by move: qE; rewrite r2; lia.
  + apply/negP => /LP[|]; first by lia.
    rewrite -{1}[Z.of_nat r]Z.mul_1_l Z.add_comm Z_mod_plus_full Z.mod_1_l; lia.
  + apply/negP => /LP[|]; first by lia.
    case: rq => c ->; rewrite -(Z.mul_comm _ c).
    have -> : Z.of_nat r * c - 1 = (Z.of_nat r - 1) + (c - 1) * Z.of_nat r by lia.
    by rewrite Z_mod_plus_full Z.mod_small; lia.
- (* no power is a multiple of r *)
  have LP z : z \in L -> z mod Z.of_nat r <> 0.
    move=> /Lr[j ->]; rewrite modr => /Z.eqb_spec; rewrite -dvdn_Zmod //.
    by rewrite Euclid_dvdX // (negbTE nra).
  exists 0, (Z.of_nat r); split; [apply: res; lia | apply: res; lia | lia | split].
  + by apply/negP => /LP; rewrite Z.mod_0_l; lia.
  + by apply/negP => /LP; rewrite Z_mod_same_full.
Qed.

End FindgenPrime.

(* ===================================================================== *)
(** ** rscoder.py: words, the generator polynomial, [encode] *)
(* ===================================================================== *)

Arguments shifted : simpl never.
Arguments code_poly : simpl never.
Arguments product : simpl never.
Arguments g_roots : simpl never.

Section Codec.

Variable p : nat.
Hypothesis pp : prime p.
Hypothesis pq : accepted (Z.of_nat p).
Variables (mp : Mapper) (alpha n k : Z).

Local Notation q := (Z.of_nat p).
Local Notation F := (toF p).
Local Notation T := (toP p).

Hypothesis mp_ok : mapper_ok mp q.
Hypothesis ra : residue q alpha.
Hypothesis kn : (0 <= k < n)%Z.
Hypothesis nq : (n < q)%Z.

Local Notation cd := (coder mp alpha q n k).
Local Notation d := (Z.to_nat (n - k)).

Import GRing.Theory.
Local Open Scope ring_scope.


Lemma q_gt1 : (1 < q)%Z.
Proof. exact: P_gt1. Qed.

(** *** Reading and writing words *)

Lemma mapM_map {A B C} (f : B -> result C) (g : A -> B) s :
  mapM f (map g s) = mapM (f \o g) s.
Proof. by elim: s => [|x s IH] //=; rewrite IH. Qed.

Lemma symbolsE s :
  (1 < size s)%nat -> all (readable mp q) s ->
  symbols cd s = Ok [seq ord mp c | c <- s].
Proof.
move=> s2 rs; rewrite /symbols /= decode_str.
have -> /= : match s with
       | [::] => Raise IndexError
       | [:: c] => Ok (DInt (ord mp c))
       | _ => Ok (DList [seq DInt (ord mp c) | c <- s])
       end = Ok (DList [seq DInt (ord mp c) | c <- s]).
  by case: s s2 {rs} => [|c [|c' s]].
rewrite mapM_map (@mapM_Ok _ _ _ (ord mp) (readable mp q)) //.
by move=> x rx /=; rewrite val_new // pq.
Qed.

Lemma mapM_inv {A B} (f : A -> result B) s v :
  mapM f s = Ok v -> size v = size s /\
    forall a b i, (i < size s)%nat -> f (nth a s i) = Ok (nth b v i).
Proof.
elim: s v => [|x s IH] v /=; first by case=> <-.
case fx: (f x) => [y|] //=; case ms: (mapM f s) => [w|] //= [<-].
have [sz nt] := IH _ ms; split; first by rewrite /= sz.
by move=> a b [|i] //= lt; apply: nt.
Qed.

Lemma symbols_inv s v :
  symbols cd s = Ok v ->
  [/\ (1 < size s)%nat, all (readable mp q) s & v = [seq ord mp c | c <- s]].
Proof.
rewrite /symbols /= decode_str; case: s => [|c [|c' s]] //.
set s' := c :: c' :: s; move=> e; split=> //.
  apply/allP => x xs; have /mapM_inv[_ /(_ (DInt 0) 0%Z (seq.index x s'))] := e.
  rewrite size_map index_mem xs => /(_ isT).
  rewrite (nth_map x) ?index_mem // nth_index //.
  rewrite /val /readable /residue PFint_new_int ?pq //.
  by case: ifP.
have /mapM_inv[sz nt] := e; rewrite size_map in sz.
apply: (@eq_from_nth _ 0%Z); first by rewrite size_map.
move=> i; rewrite sz => lt; have := nt (DInt 0) 0%Z i; rewrite size_map => /(_ lt).
rewrite (nth_map c) // (nth_map c) // /val PFint_new_int ?pq //.
by case: ifP => //= _ [].
Qed.

Lemma charsE (c : seq Z) :
  c != [::] -> all (residue q) c -> chars cd c = Ok [seq chr mp z | z <- c].
Proof. by move=> c0 rc; rewrite /chars /= (encode_list mp_ok). Qed.

(** *** The generator polynomial *)

Local Notation roots := (g_roots p alpha d).

Lemma toP_g_factor l :
  (0 <= l)%Z -> T (g_factor q alpha l) = 'X - (F alpha ^+ Z.to_nat l)%:P.
Proof.
move=> l0; rewrite /g_factor /Polynomial.Polynomial toP_normalize // !toP_cons /=.
rewrite toF1 // scale1r expr1 expr0 toP_nil addr0 alg_polyC toF_fneg //.
by rewrite /pow3 toF_mod // -{1}(Z2Nat.id l) // toF_exp // polyCN.
Qed.

Lemma toP_product (fac : Z -> seq Z) lo hi :
  T (product q fac lo hi) = \prod_(l <- xrange lo hi) T (fac l).
Proof.
rewrite /product; set g0 := Polynomial.Polynomial _.
have -> : \prod_(l <- xrange lo hi) T (fac l) = T g0 * \prod_(l <- xrange lo hi) T (fac l).
  by rewrite /g0 /Polynomial.Polynomial toP_normalize // toP_cons toF1 //= scale1r expr0 toP_nil addr0 mul1r.
elim: (xrange lo hi) g0 => [|l ls IH] g0 /=; first by rewrite big_nil mulr1.
by rewrite IH toP_pmul // big_cons mulrA.
Qed.

Lemma toP_g : T (g cd) = \prod_(z <- roots) ('X - z%:P).
Proof.
rewrite /= toP_product /g_roots big_map /xrange range3_1 big_map.
have -> : Z.to_nat (n - k + 1 - 1) = d by lia.
rewrite big_seq_cond [RHS]big_seq_cond; apply: eq_bigr => i _.
by rewrite toP_g_factor; [lia | congr ('X - (_ ^+ _)%:P); lia].
Qed.

Lemma wf_product fac lo hi : wf_poly q (product q fac lo hi).
Proof.
rewrite /product; elim/last_ind: (xrange lo hi) => [|ls l _] /=.
  by apply: wf_normalize => //=; rewrite residue_1 // pq.
by rewrite -cats1 foldl_cat /=; apply: wf_pmul.
Qed.

Lemma wf_g : wf_poly q (g cd).
Proof. exact: wf_product. Qed.

Lemma g_monic : T (g cd) \is monic.
Proof. by rewrite toP_g monic_prod_XsubC. Qed.

Lemma size_toP_g : size (T (g cd)) = d.+1.
Proof. by rewrite toP_g size_prod_XsubC /g_roots size_map size_iota. Qed.

Lemma g_neq0 : g cd != [:: 0%Z].
Proof. by rewrite -(toP_eq0 pp wf_g) monic_neq0 // g_monic. Qed.

Lemma size_g : size (g cd) = d.+1.
Proof. by rewrite -size_toP_g (size_toP pp wf_g) (negbTE g_neq0). Qed.

(** *** [encode] *)

Lemma pmodE u :
  wf_poly q u ->
  exists r, [/\ pmod q u (g cd) = Ok r, wf_poly q r,
                r = (divmod_loop q (size u) (g cd) [:: 0%Z] u).2 &
                T r = T u %% T (g cd)].
Proof.
move=> wu; have [qt [r [e wq wr eq er]]] := pdivmodP pp wu wf_g g_neq0.
exists r; rewrite /pmod e /=; split=> //.
by move: e; rewrite /pdivmod (negbTE g_neq0) => -[->].
Qed.

Lemma toP_shift : T (Polynomial.Polynomial (1%Z :: nseq d 0%Z)) = 'X^d.
Proof.
rewrite /Polynomial.Polynomial toP_normalize // toP_cons size_nseq toF1 // scale1r.
by rewrite -(cats0 (nseq _ _)) toP_zeros // toP_nil addr0.
Qed.

Lemma shiftedE msg :
  shifted cd msg =
    pmul q (Polynomial.Polynomial msg) (Polynomial.Polynomial (1%Z :: nseq d 0%Z)).
Proof. by []. Qed.

Lemma code_polyE msg :
  code_poly cd msg =
    psub q (shifted cd msg)
      (divmod_loop q (size (shifted cd msg)) (g cd) [:: 0%Z] (shifted cd msg)).2.
Proof. by []. Qed.

Lemma wf_shifted msg : wf_poly q (shifted cd msg).
Proof. exact: wf_pmul. Qed.

Lemma toP_shifted msg : T (shifted cd msg) = T msg * 'X^d.
Proof.
by rewrite shiftedE toP_pmul // toP_shift /Polynomial.Polynomial toP_normalize.
Qed.

Lemma wf_code_poly msg : wf_poly q (code_poly cd msg).
Proof. exact: wf_psub. Qed.

Lemma toP_code_poly msg :
  T (code_poly cd msg) = T msg * 'X^d - (T msg * 'X^d) %% T (g cd).
Proof.
have [r [_ _ rE Tr]] := pmodE (wf_shifted msg).
by rewrite code_polyE toP_psub // -rE Tr toP_shifted.
Qed.

Lemma dvd_code_poly msg : T (g cd) %| T (code_poly cd msg).
Proof.
rewrite toP_code_poly {1}(divp_eq (T msg * 'X^d) (T (g cd))) addrK.
exact: dvdp_mulIr.
Qed.

Lemma size_code_poly msg :
  (size msg <= Z.to_nat k)%nat -> (size (code_poly cd msg) <= Z.to_nat n)%nat.
Proof.
move=> sm; have nE : Z.to_nat n = (Z.to_nat k + d)%nat by rewrite -plusE; lia.
have n0 : (0 < Z.to_nat n)%nat by apply/ltP; lia.
have := size_toP pp (wf_code_poly msg); case: ifP => [/eqP-> _ //|_ <-].
rewrite toP_code_poly (leq_trans (size_add _ _)) // geq_max size_polyN; apply/andP; split.
  apply: leq_trans (size_mul_leq _ _) _; rewrite size_polyXn addnS /= nE leq_add2r.
  exact: leq_trans (size_toP_leq _ _) sm.
apply: (@leq_trans d); last by rewrite nE leq_addl.
by rewrite -ltnS -size_toP_g ltn_modp monic_neq0 // g_monic.
Qed.

Lemma size_rjust {A} (s : seq A) w c :
  (size s <= Z.to_nat w)%nat -> size (rjust s w c) = Z.to_nat w.
Proof. by move=> le; rewrite /rjust size_cat size_nseq subnK. Qed.

Lemma encodeE m poly nostrip :
  (2 <= k)%Z -> (size m <= Z.to_nat k)%nat -> all (readable mp q) m ->
  let c := code_poly cd [seq ord mp x | x <- rjust m k (chr mp 0%Z)] in
  encode cd m poly nostrip =
    Ok (if poly then AsPoly c
        else AsStr (if nostrip then rjust [seq chr mp z | z <- c] n (chr mp 0%Z)
                    else [seq chr mp z | z <- c])).
Proof.
move=> k2 sm rm; have q1 := q_gt1; have r0 : residue q 0 by apply: residue_0; apply: pq.
have q0 : (0 < q)%Z by lia.
have r1 : residue q 1 by apply: residue_1; apply: pq.
rewrite /encode -[Rscoder.n cd]/n -[Rscoder.k cd]/k -[b cd]/q -[mapper cd]/mp.
rewrite (pad_Ok mp_ok _ _ q0) bind_Ok.
have sz := size_rjust (chr mp 0%Z) sm.
have k0 : (0 <= k)%Z by lia.
rewrite sz (Z2Nat.id _ k0).
have -> : (k >? k)%Z = false by lia.
have rs : all (readable mp q) (rjust m k (chr mp 0%Z)).
  by rewrite /rjust all_cat rm andbT; apply/allP => x /nseqP[-> _]; apply: readable_chr.
have s2 : (1 < size (rjust m k (chr mp 0%Z)))%nat by rewrite sz; apply/ltP; lia.
rewrite (symbolsE s2 rs) bind_Ok !(val_new pq) // !bind_Ok.
set msg := map _ _; rewrite -shiftedE.
have [r [-> _ rE _]] := pmodE (wf_shifted msg).
rewrite bind_Ok rE -code_polyE; case: poly => //.
have wc := wf_code_poly msg.
have c0 : code_poly cd msg != [::] by case: (wf_cases wc) => [->|[x [u [-> _]]]].
rewrite (charsE c0 (wf_residues wc)) bind_Ok.
by case: nostrip => //; rewrite (pad_Ok mp_ok _ _ q0).
Qed.

(** *** [verify] and the fast path of [decode] *)

Lemma all_readable_residue s :
  all (readable mp q) s -> all (residue q) [seq ord mp c | c <- s].
Proof. by move=> rs; rewrite all_map. Qed.

(** [verify] answers whether the generator polynomial divides the word. *)
Lemma verifyE s :
  (1 < size s)%nat -> all (readable mp q) s ->
  verify cd s = Ok (T (g cd) %| T [seq ord mp c | c <- s]).
Proof.
move=> s2 rs; rewrite /verify (symbolsE s2 rs) bind_Ok -[b cd]/q.
have wc : wf_poly q (Polynomial.Polynomial [seq ord mp c | c <- s]).
  by apply: wf_normalize => //; apply: all_readable_residue.
have [r [-> wr _ Tr]] := pmodE wc.
rewrite bind_Ok /constant -(toP_eq0 pp wr) Tr.
by rewrite /Polynomial.Polynomial toP_normalize.
Qed.

Lemma verify_inv s bv :
  verify cd s = Ok bv -> (1 < size s)%nat /\ all (readable mp q) s.
Proof.
rewrite /verify; case e: (symbols cd s) => [v|] // _.
by have [] := symbols_inv e.
Qed.

Lemma decode_verified s nostrip :
  verify cd s = Ok true ->
  decode cd s nostrip =
    if nostrip then Ok (drop_last s (n - k))
    else strip mp (drop_last s (n - k)).
Proof.
move=> vs; have [s2 rs] := verify_inv vs.
by rewrite /decode (symbolsE s2 rs) bind_Ok vs.
Qed.


(** *** The codeword as a word of [n] symbols *)

Lemma nat_aux1 (a e i : nat) : (i < a)%nat -> (e <= (a + e).-1 - i)%nat.
Proof. by move=> /ltP lt; apply/leP; rewrite -plusE -minusE; lia. Qed.

Lemma nat_aux2 (a e i : nat) : (i < a)%nat -> ((a + e).-1 - i - e = a.-1 - i)%nat.
Proof. by move=> /ltP lt; rewrite -plusE -!minusE; lia. Qed.

Lemma get_coefficient_nth (u : seq Z) i :
  (i < size u)%nat -> get_coefficient u ((size u).-1 - i) = nth 0%Z u i.
Proof.
move=> lt; rewrite /get_coefficient /degree ltnNge leq_subr /= subKn //.
by rewrite -ltnS prednK // (leq_ltn_trans _ lt).
Qed.

Lemma map_rjust {A B} (f : A -> B) s w c :
  [seq f x | x <- rjust s w c] = rjust [seq f x | x <- s] w (f c).
Proof. by rewrite /rjust map_cat map_nseq size_map. Qed.

Lemma toP_rjust c w : T (rjust c w 0%Z) = T c.
Proof. by rewrite /rjust toP_zeros. Qed.

Lemma ord_chr_all (c : seq Z) :
  all (residue q) c -> [seq ord mp x | x <- [seq chr mp z | z <- c]] = c.
Proof.
move=> rc; rewrite -map_comp -[RHS]map_id; apply/eq_in_map => z zc /=.
by rewrite (ord_chr mp_ok) //; apply: (allP rc).
Qed.

(** The word [encode] writes for the message values [msg]. *)
Local Notation word msg :=
  (rjust [seq chr mp z | z <- code_poly cd msg] n (chr mp 0%Z)).

Lemma size_word msg :
  (size msg <= Z.to_nat k)%nat -> size (word msg) = Z.to_nat n.
Proof. by move=> sm; rewrite size_rjust // size_map size_code_poly. Qed.

Lemma readable_word msg : all (readable mp q) (word msg).
Proof.
rewrite /rjust all_cat; apply/andP; split.
  by apply/allP => x /nseqP[-> _]; apply: (readable_chr mp_ok); apply: residue_0; apply: pq.
rewrite all_map; apply/allP => z zc /=; apply: (readable_chr mp_ok).
exact: (allP (wf_residues (wf_code_poly msg))).
Qed.

Lemma ord_word msg :
  [seq ord mp x | x <- word msg] = rjust (code_poly cd msg) n 0%Z.
Proof.
have r0 : residue q 0 by apply: residue_0; apply: pq.
rewrite map_rjust (ord_chr mp_ok r0) ord_chr_all //.
exact: wf_residues (wf_code_poly msg).
Qed.

Lemma verify_word msg :
  (size msg <= Z.to_nat k)%nat -> (1 < Z.to_nat n)%nat ->
  verify cd (word msg) = Ok true.
Proof.
move=> sm n2; rewrite verifyE ?size_word ?readable_word //.
by rewrite ord_word toP_rjust dvd_code_poly.
Qed.

(** The first [k] symbols of the word are the message. *)
Lemma take_code_poly msg :
  size msg = Z.to_nat k -> all (residue q) msg ->
  take (Z.to_nat k) (rjust (code_poly cd msg) n 0%Z) = msg.
Proof.
move=> sm rm.
have [u uE] : exists u, u = rjust (code_poly cd msg) n 0%Z by eexists.
rewrite -uE.
have nE : Z.to_nat n = (Z.to_nat k + d)%nat by rewrite -plusE; lia.
have su : size u = Z.to_nat n by rewrite uE size_rjust // size_code_poly // sm.
have ru : all (residue q) u.
  rewrite uE /rjust all_cat (wf_residues (wf_code_poly msg)) andbT.
  by apply/allP => x /nseqP[-> _]; apply: residue_0; apply: pq.
have ku : (Z.to_nat k <= size u)%nat by rewrite su nE leq_addr.
apply: (@eq_from_nth _ 0%Z); first by rewrite size_takel.
move=> i; rewrite size_takel // => ik.
have iu : (i < size u)%nat := leq_trans ik ku.
have im : (i < size msg)%nat by rewrite sm.
rewrite nth_take //; apply: (residue_inj pp).
- exact: (all_nthP _ ru).
- exact: (all_nthP _ rm).
have Tu : T u = T (code_poly cd msg) by rewrite uE toP_rjust.
rewrite -(get_coefficient_nth iu) -(coef_toP pp) Tu toP_code_poly coefB coefMXn.
rewrite -(get_coefficient_nth im) -(coef_toP pp) su sm nE.
have jd : (d <= (Z.to_nat k + d).-1 - i)%nat := nat_aux1 d ik.
rewrite ltnNge jd [~~ true]/= (nat_aux2 d ik).
have -> : ((T msg * 'X^d) %% T (g cd))`_((Z.to_nat k + d).-1 - i) = 0.
  apply/(leq_sizeP _ d) => //.
  by rewrite -ltnS -size_toP_g ltn_modp monic_neq0 // g_monic.
by rewrite subr0.
Qed.

Lemma take_word m :
  size m = Z.to_nat k -> all (symbol mp q) m ->
  take (Z.to_nat k) (word [seq ord mp c | c <- m]) = m.
Proof.
move=> sm sym; have rm : all (residue q) [seq ord mp c | c <- m].
  by rewrite all_map; apply/allP => c /(allP sym)/andP[].
rewrite -map_rjust -map_take take_code_poly ?size_map // -map_comp -[RHS]map_id.
by apply/eq_in_map => c /(allP sym)/andP[_ /eqP].
Qed.



(** What a successful [encode] has checked. *)
Lemma encode_inv m poly nostrip r :
  encode cd m poly nostrip = Ok r ->
  [/\ (2 <= k)%Z, (size m <= Z.to_nat k)%nat & all (readable mp q) m].
Proof.
have q1 := q_gt1; have q0 : (0 < q)%Z by lia.
rewrite /encode -[Rscoder.n cd]/n -[Rscoder.k cd]/k -[b cd]/q -[mapper cd]/mp.
rewrite (pad_Ok mp_ok _ _ q0) bind_Ok.
case: ifP => //; rewrite Z.gtb_ltb => /Z.ltb_ge le e.
have [v /symbols_inv[s2 rs _] _] := bindI e.
move: le s2 rs; rewrite /rjust all_cat size_cat size_nseq => le /ltP s2 /andP[_ rm].
by split=> //; [|apply/leP]; move: le s2; rewrite -plusE -minusE; lia.
Qed.

(** *** A single changed symbol *)

Lemma toP_set_nth (u : seq Z) i v :
  (i < size u)%nat ->
  T (set_nth 0%Z u i v) =
  T u + (F v - F (nth 0%Z u i)) *: 'X^((size u).-1 - i).
Proof.
elim: u i => [|x u IH] [|i] //= iu; rewrite !toP_cons.
  by rewrite subn0 scalerBl [RHS]addrC addrA subrK.
have iu' : (i < size u)%nat by [].
rewrite IH // size_set_nth (maxn_idPr iu') addrA; congr (_ + _ *: 'X^_).
by rewrite subnS predn_sub.
Qed.

Lemma root_g : (0 < d)%nat -> root (T (g cd)) (F alpha).
Proof.
move=> d0; rewrite toP_g root_prod_XsubC /g_roots.
by apply/mapP; exists 0%nat; rewrite ?mem_iota ?expr1.
Qed.

(** A word that differs from a multiple of [g] in one symbol is not a
    multiple of [g]. *)
Lemma verify_changed (s : seq ascii) i c :
  F alpha != 0 -> verify cd s = Ok true -> (i < size s)%nat ->
  readable mp q c -> ord mp c != ord mp (nth c s i) ->
  verify cd (set_nth c s i c) = Ok false.
Proof.
move=> a0 vs lt rc ne; have [s2 rs] := verify_inv vs.
have d0 : (0 < d)%nat by apply/ltP; lia.
move: vs; rewrite verifyE // => -[dv].
have sz : size (set_nth c s i c) = size s by rewrite size_set_nth (maxn_idPr lt).
have rs' : all (readable mp q) (set_nth c s i c).
  apply/(all_nthP c) => j; rewrite sz nth_set_nth /= => js.
  by case: eqP => // _; apply: (all_nthP c rs).
rewrite verifyE ?sz //; congr Ok.
have -> : [seq ord mp x | x <- set_nth c s i c] =
          set_nth 0%Z [seq ord mp x | x <- s] i (ord mp c).
  apply: (@eq_from_nth _ 0%Z); first by rewrite size_map !size_set_nth size_map.
  move=> j; rewrite size_map sz => js.
  rewrite (nth_map c) ?sz // !nth_set_nth /=; case: eqP => // _.
  by rewrite (nth_map c).
have dv' : T (g cd) %| T [seq ord mp x | x <- s] by rewrite dv.
rewrite toP_set_nth ?size_map // (nth_map c) // (dvdp_addr _ dv').
apply/negbTE/negP => /root_dvdp/(_ (root_g d0)); rewrite rootE hornerZ hornerXn.
rewrite mulf_eq0 expf_eq0 (negbTE a0) andbF orbF subr_eq0 => /eqP e.
move/negP: ne; apply; apply/eqP/(residue_inj pp) => //.
exact: (all_nthP c rs).
Qed.


(** *** Syndromes *)

(** The syndrome polynomial: the values of the word at [alpha^1 ..
    alpha^(n-k)], in ascending order above a zero constant term. *)
Lemma syndromes_loop (r : seq Z) (j : nat) :
  foldM (fun ts l =>
          let: (t, s) := ts in
          bind (as_PF t) (fun t => bind (__mul__ t (a cd)) (fun t =>
          bind (val (Ok t)) (fun tv =>
          Ok (t, rcons s (evaluate q r tv))))))
        (PyPF (mkPF q 1), [:: 0%Z]) (xrange 1 (1 + Z.of_nat j)) =
  Ok (PyPF (mkPF q (pow3 alpha (Z.of_nat j) q)),
      0%Z :: [seq evaluate q r (pow3 alpha l q)
             | l <- xrange 1 (1 + Z.of_nat j)]).
Proof.
have q1 := q_gt1.
elim: j => [|j IH].
  have -> : xrange 1 (1 + Z.of_nat 0) = [::] by apply: xrange_nil; lia.
  by rewrite /foldM /= /pow3 Z.pow_0_r Z.mod_1_l.
have -> : (1 + Z.of_nat j.+1 = 1 + Z.of_nat j + 1)%Z by lia.
have -> : xrange 1 (1 + Z.of_nat j + 1) =
          rcons (xrange 1 (1 + Z.of_nat j)) (1 + Z.of_nat j)%Z.
  by apply: xrange_rcons; lia.
rewrite foldM_rcons IH bind_Ok map_rcons -rcons_cons /as_PF bind_Ok.
rewrite /__mul__ /coerce /= eqxx /= PFint_new_mod ?pq // bind_Ok /val /=.
have -> : ((pow3 alpha (Z.of_nat j) q * alpha) mod q =
           pow3 alpha (1 + Z.of_nat j) q)%Z.
  have qn0 : q <> 0%Z by lia.
  rewrite /pow3 (Z.mul_mod_idemp_l _ _ _ qn0) Z.add_comm.
  by rewrite Z.pow_add_r ?Z.pow_1_r //; lia.
by congr (Ok (PyPF (mkPF _ (pow3 _ _ _)), _)); lia.
Qed.

Lemma syndromesE (r : seq Z) :
  _syndromes cd r =
  Ok (Polynomial.Polynomial
        (rev (0%Z :: [seq evaluate q r (pow3 alpha l q)
                     | l <- xrange 1 (n - k + 1)]))).
Proof.
rewrite /_syndromes -[Rscoder.n cd]/n -[Rscoder.k cd]/k -[b cd]/q.
rewrite (val_new pq (residue_0 pq)) bind_Ok.
have -> : PFint_new q (PyInt 1) = Ok (PyPF (mkPF q 1)).
  by rewrite (PFint_new_int _ pq); have := residue_1 pq; rewrite /residue => ->.
rewrite bind_Ok.
have -> : (n - k + 1 = 1 + Z.of_nat d)%Z by lia.
by rewrite syndromes_loop bind_Ok.
Qed.

Lemma normalize_eq0 (u : seq Z) :
  (normalize u == [:: 0%Z]) = all (fun c => c == 0%Z) u.
Proof.
rewrite /normalize; elim: u => [|x u IH] //=.
by case x0: (x == 0%Z) => /=; [exact: IH | rewrite eqseq_cons x0].
Qed.

(** The generator polynomial divides exactly the polynomials that vanish
    at all of its roots. *)
Lemma dvd_g_roots (P : {poly 'F_p}) :
  uniq roots -> (T (g cd) %| P) = all (root P) roots.
Proof.
move=> un; apply/idP/idP => [dv|rt].
  apply/allP => z zr; apply: root_dvdp dv _.
  by rewrite toP_g root_prod_XsubC.
by rewrite toP_g; apply: uniq_roots_dvdp => //; rewrite uniq_rootsE.
Qed.

Lemma root_syndrome (u : seq Z) (i : nat) :
  root (T u) (F alpha ^+ i.+1) =
  (evaluate q (Polynomial.Polynomial u) (pow3 alpha (1 + Z.of_nat i) q)
     == 0%Z).
Proof.
rewrite -(toF_eq0 pp (residue_evaluate pp _ _)) (toF_evaluate pp).
rewrite /Polynomial.Polynomial (toP_normalize pp) rootE /pow3 (toF_mod pp).
have -> : (1 + Z.of_nat i = Z.of_nat i.+1)%Z by lia.
by rewrite (toF_exp pp).
Qed.

(** [verify] answers whether all the syndromes are zero. *)
Lemma verify_syndromes s :
  findgen q = Some alpha -> (0 < k)%Z ->
  (1 < size s)%nat -> all (readable mp q) s ->
  verify cd s =
  Ok (all (fun l => evaluate q (Polynomial.Polynomial [seq ord mp c | c <- s])
                      (pow3 alpha l q) == 0%Z)
          (xrange 1 (n - k + 1))).
Proof.
move=> fg k0 s2 rs; have un : uniq roots.
  by apply: (uniq_g_roots pp fg); apply/ltP; lia.
rewrite verifyE // (dvd_g_roots _ un).
congr Ok; rewrite /g_roots /xrange range3_1 !all_map.
have -> : Z.to_nat (n - k + 1 - 1) = d by lia.
by apply: eq_all => i /=; rewrite root_syndrome.
Qed.


Lemma get_coefficient_normalize (u : seq Z) i :
  all (residue q) u -> get_coefficient (normalize u) i = get_coefficient u i.
Proof.
move=> ru; apply: (residue_inj pp).
- by apply: residue_get_coefficient => //; apply: wf_residues (wf_normalize pp ru).
- exact: residue_get_coefficient.
by rewrite -!(coef_toP pp) (toP_normalize pp).
Qed.

(** The coefficient of [z^l] in the syndrome polynomial is the value of
    the word at [alpha^l]. *)
Lemma syndromes_coef (r : seq Z) (l : Z) :
  (1 <= l <= n - k)%Z ->
  get_coefficient
    (Polynomial.Polynomial
       (rev (0%Z :: [seq evaluate q r (pow3 alpha l q)
                    | l <- xrange 1 (n - k + 1)]))) (Z.to_nat l) =
  evaluate q r (pow3 alpha l q).
Proof.
move=> lb; set evs := map _ _; rewrite /Polynomial.Polynomial.
have sz : size evs = d by rewrite size_map size_xrange; lia.
have re : all (residue q) (rev (0%Z :: evs)).
  rewrite all_rev /= (residue_0 pq); apply/allP => x /mapP[j _ ->].
  exact: residue_evaluate.
rewrite (get_coefficient_normalize _ re).
have [j jd lE] : exists2 j, (j < d)%nat & l = (1 + Z.of_nat j)%Z.
  by exists (Z.to_nat (l - 1)); [apply/ltP|]; lia.
have szr : size (rev (0%Z :: evs)) = d.+1 by rewrite size_rev /= sz.
have js : (d - j.+1 < d.+1)%nat by rewrite ltnS leq_subr.
have -> : Z.to_nat l = ((size (rev (0%Z :: evs))).-1 - (d - j.+1))%nat.
  by rewrite szr /= subKn //; lia.
have -> : get_coefficient (rev (0%Z :: evs))
            ((size (rev (0%Z :: evs))).-1 - (d - j.+1)) =
          nth 0%Z (rev (0%Z :: evs)) (d - j.+1).
  by apply: get_coefficient_nth; rewrite szr.
have -> : nth 0%Z (rev (0%Z :: evs)) (d - j.+1) = nth 0%Z evs j.
  by rewrite nth_rev /= sz // subSS subKn.
have jx : (j < size (xrange 1 (n - k + 1)))%nat by rewrite size_xrange; apply/ltP; lia.
rewrite /evs (nth_map 0%Z) //; congr (evaluate _ _ (pow3 _ _ _)).
move: jx; rewrite /xrange range3_1 size_map size_iota => jx.
by rewrite (nth_map 0%nat) ?size_iota // nth_iota // add0n.
Qed.


(** The syndrome polynomial is well formed and has no constant term. *)
Lemma syndromes_wf (r sz : seq Z) :
  _syndromes cd r = Ok sz ->
  wf_poly q sz /\ get_coefficient sz 0 = 0%Z.
Proof.
rewrite syndromesE => -[<-]; set evs := map _ _.
have re : all (residue q) (rev (0%Z :: evs)).
  rewrite all_rev /= (residue_0 pq); apply/allP => x /mapP[j _ ->].
  exact: residue_evaluate.
split; first exact: wf_normalize.
rewrite /Polynomial.Polynomial (get_coefficient_normalize _ re).
have sz0 : ((size (rev (0%Z :: evs))).-1 < size (rev (0%Z :: evs)))%nat.
  by rewrite size_rev.
have := get_coefficient_nth sz0; rewrite subnn => ->.
by rewrite nth_last rev_cons last_rcons.
Qed.


(** *** Words that cannot be read, messages that do not fit *)

Lemma mapM_Raise {A B} (f : A -> result B) (e : exn) (s : seq A) :
  (forall x, f x = Raise e \/ exists y, f x = Ok y) ->
  has (fun x => if f x is Raise _ then true else false) s ->
  mapM f s = Raise e.
Proof.
move=> fE; elim: s => [|x s IH] //=.
case: (fE x) => [->|[y ->]] //=.
by move=> /IH ->.
Qed.

Lemma symbols_Raise s :
  (1 < size s)%nat -> ~~ all (readable mp q) s ->
  symbols cd s = Raise ValueError.
Proof.
move=> s2; rewrite -has_predC => /hasP[c cs nr].
rewrite /symbols /= decode_str.
have -> /= : match s with
       | [::] => Raise IndexError
       | [:: c] => Ok (DInt (ord mp c))
       | _ => Ok (DList [seq DInt (ord mp c) | c <- s])
       end = Ok (DList [seq DInt (ord mp c) | c <- s]).
  by case: s s2 {cs} => [|x [|y s]].
rewrite mapM_map; apply: mapM_Raise => [z|] /=.
  rewrite /val PFint_new_int ?pq //; case: ifP => _; first by right; eexists.
  by left.
apply/hasP; exists c => //=; rewrite /val PFint_new_int ?pq //.
by move: nr; rewrite /= /readable /residue => /negbTE ->.
Qed.

Lemma encode_long m poly nostrip :
  (Z.to_nat k < size m)%nat -> encode cd m poly nostrip = Raise ValueError.
Proof.
move=> /ltP lt; have q1 := q_gt1; have q0 : (0 < q)%Z by lia.
rewrite /encode -[Rscoder.n cd]/n -[Rscoder.k cd]/k -[b cd]/q -[mapper cd]/mp.
rewrite (pad_Ok mp_ok _ _ q0) bind_Ok /rjust size_cat size_nseq.
by case: Z.gtb_spec => //; move: lt; rewrite -plusE -minusE; lia.
Qed.

(** *** The generator polynomial, in the code's own terms *)

Lemma g_lead : lead (g cd) = 1%Z.
Proof.
apply: (residue_inj pp); last first.
- by rewrite -(lead_toP pp wf_g) (monicP g_monic) (toF1 pp).
- exact: residue_1 pq.
have := wf_residues wf_g; rewrite /lead.
by case: (g cd) => [|x u] /=; [rewrite (residue_0 pq) | case/andP].
Qed.

Lemma g_evaluate l :
  (1 <= l <= n - k)%Z -> evaluate q (g cd) (pow3 alpha l q) = 0%Z.
Proof.
move=> lb; apply/eqP; rewrite -(toF_eq0 pp (residue_evaluate pp _ _)).
rewrite (toF_evaluate pp) -rootE toP_g root_prod_XsubC /pow3 (toF_mod pp).
have -> : l = Z.of_nat (Z.to_nat (l - 1)).+1 by lia.
rewrite (toF_exp pp); apply/mapP; exists (Z.to_nat (l - 1)) => //.
by rewrite mem_iota add0n /=; apply/ltP; lia.
Qed.

(** The codeword without padding verifies too, when it has two symbols. *)
Lemma verify_chars msg :
  (1 < size (code_poly cd msg))%nat ->
  verify cd [seq chr mp z | z <- code_poly cd msg] = Ok true.
Proof.
move=> c2; have rc := wf_residues (wf_code_poly msg).
have rs : all (readable mp q) [seq chr mp z | z <- code_poly cd msg].
  rewrite all_map; apply/allP => z zc /=; apply: (readable_chr mp_ok).
  exact: (allP rc).
have s2 : (1 < size [seq chr mp z | z <- code_poly cd msg])%nat.
  by rewrite size_map.
by rewrite (verifyE s2 rs) ord_chr_all // dvd_code_poly.
Qed.


(** *** [_chien_search] *)

Lemma pow3_alpha_bounds l :
  F alpha != 0 -> (0 <= l)%Z -> (0 < pow3 alpha l q < q)%Z.
Proof.
move=> a0 l0; have /andP[/Z.leb_le lo /Z.ltb_lt hi] := residue_mod pp (alpha ^ l).
rewrite /pow3; split=> //; suff : (alpha ^ l mod q <> 0)%Z by lia.
move=> z; have := toF_mod pp (alpha ^ l); rewrite z (toF0 pp).
have -> : l = Z.of_nat (Z.to_nat l) by lia.
by rewrite (toF_exp pp) => /esym/eqP; rewrite expf_eq0 (negbTE a0) andbF.
Qed.

(** The inverse of [alpha^l] is [alpha^(b-1-l)]. *)
Lemma pow3_alpha_inverse l :
  F alpha != 0 -> (1 <= l <= q - 1)%Z ->
  pow3 (pow3 alpha l q) (q - 2) q = pow3 alpha (q - 1 - l) q.
Proof.
move=> a0 lb; apply: (residue_inj pp); try exact: residue_mod.
have al0 : F (pow3 alpha l q) != 0.
  rewrite /pow3 (toF_mod pp); have -> : l = Z.of_nat (Z.to_nat l) by lia.
  by rewrite (toF_exp pp); apply: expf_neq0.
rewrite -/(finv q (pow3 alpha l q)) (toF_finv pp al0).
rewrite /pow3 !(toF_mod pp).
have -> : l = Z.of_nat (Z.to_nat l) by lia.
have -> : (q - 1 - Z.of_nat (Z.to_nat l) =
           Z.of_nat (p.-1 - Z.to_nat l)%nat)%Z.
  by rewrite -subn1 -!minusE; lia.
rewrite !(toF_exp pp); apply: (mulfI (expf_neq0 (Z.to_nat l) a0)).
rewrite (divff (expf_neq0 (Z.to_nat l) a0)).
have le : (Z.to_nat l <= p.-1)%nat by apply/leP; rewrite -subn1 -minusE; lia.
by rewrite -exprD (subnKC le) (expf_pred pp).
Qed.

Lemma chien_loop (sg : seq Z) (m : nat) :
  F alpha != 0 -> (Z.of_nat m <= q - 2)%Z ->
  foldM (fun Xj l =>
      let: (X, j) := Xj in
      bind (val (__pow__ (mkPF q alpha) (PyInt l))) (fun pl =>
      if evaluate q sg pl == 0%Z then
        bind (__pow__ (mkPF q alpha) (PyInt (- l))) (fun x =>
        Ok (rcons X x, rcons j (q - 1 - l)%Z))
      else Ok (X, j)))
    ([::], [::]) (xrange 1 (1 + Z.of_nat m)) =
  Ok ([seq PyPF (mkPF q (pow3 alpha (q - 1 - l) q))
      | l <- [seq l <- xrange 1 (1 + Z.of_nat m)
             | evaluate q sg (pow3 alpha l q) == 0%Z]],
      [seq (q - 1 - l)%Z
      | l <- [seq l <- xrange 1 (1 + Z.of_nat m)
             | evaluate q sg (pow3 alpha l q) == 0%Z]]).
Proof.
move=> a0; elim: m => [|m IH] mb.
  by have -> : xrange 1 (1 + Z.of_nat 0) = [::] by apply: xrange_nil; lia.
have -> : (1 + Z.of_nat m.+1 = 1 + Z.of_nat m + 1)%Z by lia.
have -> : xrange 1 (1 + Z.of_nat m + 1) =
          rcons (xrange 1 (1 + Z.of_nat m)) (1 + Z.of_nat m)%Z.
  by apply: xrange_rcons; lia.
have mb' : (Z.of_nat m <= q - 2)%Z by lia.
rewrite foldM_rcons (IH mb') bind_Ok filter_rcons.
have l0 : (0 <= 1 + Z.of_nat m)%Z by lia.
rewrite (pow_nonneg pq ra l0) /val !bind_Ok [pf_v _]/=.
case: ifP => ev; last by [].
rewrite /__pow__; have -> : (- (1 + Z.of_nat m) <? 0)%Z = true by lia.
rewrite Z.opp_involutive [pf_p _]/= [pf_v _]/= (PFint_new_mod _ pq) bind_Ok.
rewrite [as_PF _]/= bind_Ok.
have bd := pow3_alpha_bounds a0 l0.
rewrite (inverse_nonzero pq bd) bind_Ok !map_rcons.
by rewrite pow3_alpha_inverse //; lia.
Qed.

Lemma chien_searchE (sg : seq Z) :
  F alpha != 0 ->
  _chien_search cd sg =
  Ok ([seq PyPF (mkPF q (pow3 alpha (q - 1 - l) q))
      | l <- [seq l <- xrange 1 (q - 1)
             | evaluate q sg (pow3 alpha l q) == 0%Z]],
      [seq (q - 1 - l)%Z
      | l <- [seq l <- xrange 1 (q - 1)
             | evaluate q sg (pow3 alpha l q) == 0%Z]]).
Proof.
move=> a0; have q1 := q_gt1.
rewrite /_chien_search -[b cd]/q -[a cd]/(PyPF (mkPF q alpha)) [as_PF _]/=.
rewrite bind_Ok.
have -> : xrange 1 (q - 1) = xrange 1 (1 + Z.of_nat p.-2).
  by congr (xrange _ _); lia.
by apply: chien_loop => //; lia.
Qed.


(** [encode] to a string, with and without padding. *)
Lemma encode_padded_str m :
  (2 <= k)%Z -> (size m <= Z.to_nat k)%nat -> all (readable mp q) m ->
  encode cd m false true =
  Ok (AsStr (rjust [seq chr mp z
                   | z <- code_poly cd
                            [seq ord mp x | x <- rjust m k (chr mp 0%Z)]]
                   n (chr mp 0%Z))).
Proof. by move=> k2 sm rm; exact: (encodeE false true k2 sm rm). Qed.

Lemma encode_plain_str m :
  (2 <= k)%Z -> (size m <= Z.to_nat k)%nat -> all (readable mp q) m ->
  encode cd m false false =
  Ok (AsStr [seq chr mp z
            | z <- code_poly cd [seq ord mp x | x <- rjust m k (chr mp 0%Z)]]).
Proof. by move=> k2 sm rm; exact: (encodeE false false k2 sm rm). Qed.


Lemma Ok_AsStr_inj (s1 s2 : seq ascii) :
  Ok (AsStr s1) = Ok (AsStr s2) :> result encoded -> s1 = s2.
Proof. by case. Qed.


(** *** The cache of [PFint] while a word is read *)

Lemma PFint_new_stE (c : cache) (z : Z) :
  residue q z ->
  PFint_new_st c q (PyInt z) =
    (Ok (PyPF (mkPF q z)), if (q, z) \in c then c else (q, z) :: c).
Proof.
move=> /andP[/Z.leb_le z0 /Z.ltb_lt zq]; rewrite /PFint_new_st pq.
case: ifP => // _.
by have -> : ((z >=? q) || (z <? 0))%Z = false by apply/negP => /orP[/Z.geb_le|/Z.ltb_lt]; lia.
Qed.

Lemma symbols_stE (c : cache) s :
  (1 < size s)%nat -> all (readable mp q) s ->
  symbols_st c cd s =
    (Ok [seq ord mp x | x <- s], cache_enter q c [seq ord mp x | x <- s]).
Proof.
move=> s2 rs; rewrite /symbols_st /= decode_str.
have -> /= : match s with
       | [::] => Raise IndexError
       | [:: c] => Ok (DInt (ord mp c))
       | _ => Ok (DList [seq DInt (ord mp c) | c <- s])
       end = Ok (DList [seq DInt (ord mp c) | c <- s]).
  by case: s s2 {rs} => [|c0 [|c' s]].
rewrite /cache_enter; elim: s c rs {s2} => [|x s IH] c //= /andP[rx rs].
by rewrite PFint_new_stE // IH.
Qed.


End Codec.

(* ===================================================================== *)
(** ** rscoder.py: the loop of [_berlekamp_massey] *)
(* ===================================================================== *)

(** One turn of the loop, over any field: from the congruences at [j] to
    those at [j + 1]. *)
Section BMAlgebra.

Variable R : fieldType.

Import GRing.Theory.
Local Open Scope ring_scope.

Variables (A sg om ta ga : {poly R}) (j : nat).

Local Notation Delta := ((A * sg)`_j.+1).

Hypothesis Hs : forall i, (i <= j)%nat -> (A * sg)`_i = om`_i.
Hypothesis Ht : forall i, (i <= j)%nat -> (A * ta)`_i = ga`_i + (i == j)%:R.
Hypothesis Ho : forall i, (j < i)%nat -> om`_i = 0.
Hypothesis Hg : forall i, (j < i)%nat -> ga`_i = 0.

Lemma bm_sigma i :
  (i <= j.+1)%nat ->
  (A * (sg - Delta%:P * 'X * ta))`_i = (om - Delta%:P * 'X * ga)`_i.
Proof.
move=> le; rewrite mulrBr !coefB -!mulrA mulrCA [A * ('X * _)]mulrCA !coefCM !coefXM.
case: i le => [|i] /=; first by rewrite mulr0 !subr0 Hs.
rewrite ltnS leq_eqVlt => /orP[/eqP->|lt].
  by rewrite Ht // eqxx Ho // mulrDr mulr1 opprD addrCA subrr addr0 sub0r.
by rewrite Hs // Ht ?(ltnW lt) // (ltn_eqF lt) addr0.
Qed.

Lemma bm_omega_deg i : (j.+1 < i)%nat -> (om - Delta%:P * 'X * ga)`_i = 0.
Proof.
move=> lt; rewrite coefB -mulrA coefCM coefXM Ho ?(ltnW lt) //.
by case: i lt => // i; rewrite ltnS => lt /=; rewrite Hg // mulr0 subr0.
Qed.

Lemma bm_ruleA i :
  (i <= j.+1)%nat -> (A * ('X * ta))`_i = ('X * ga)`_i + (i == j.+1)%:R.
Proof.
rewrite mulrCA !coefXM; case: i => [|i] /=; first by rewrite addr0.
by rewrite ltnS eqSS; apply: Ht.
Qed.

Lemma bm_ruleA_deg i : (j.+1 < i)%nat -> ('X * ga)`_i = 0.
Proof. by rewrite coefXM; case: i => // i; rewrite ltnS /=; apply: Hg. Qed.

Lemma bm_ruleB i :
  Delta != 0 -> (i <= j.+1)%nat ->
  (A * (Delta^-1 *: sg))`_i = (Delta^-1 *: om)`_i + (i == j.+1)%:R.
Proof.
move=> D0; rewrite -scalerAr !coefZ leq_eqVlt => /orP[/eqP->|lt].
  by rewrite eqxx mulVf // Ho // mulr0 add0r.
by rewrite (Hs lt) (ltn_eqF lt) addr0.
Qed.

Lemma bm_ruleB_deg i : (j.+1 < i)%nat -> (Delta^-1 *: om)`_i = 0.
Proof. by move=> lt; rewrite coefZ Ho ?mulr0 // ltnW. Qed.

End BMAlgebra.

Section BMLoop.

Variable p : nat.
Hypothesis pp : prime p.
Hypothesis pq : accepted (Z.of_nat p).
Variables (self : RSCoder) (S : seq Z).

Local Notation q := (Z.of_nat p).
Local Notation F := (toF p).
Local Notation T := (toP p).

Hypothesis bE : b self = q.
Hypothesis S0 : get_coefficient S 0 = 0%Z.

Import GRing.Theory.
Local Open Scope ring_scope.

Local Notation one_s := (padd q (constant 1%Z) S).
Local Notation A := (1 + T S).


Lemma toP_one_s : T one_s = A.
Proof. by rewrite (toP_padd pp) toP_constant (toF1 pp). Qed.

Lemma congruentP m u v :
  all (residue q) u -> all (residue q) v ->
  reflect (forall i, (i < m)%nat -> (T u)`_i = (T v)`_i) (congruent m u v).
Proof.
move=> ru rv; apply: (iffP allP) => [h i lt|h i].
  have /eqP e : get_coefficient u i == get_coefficient v i.
    by apply: h; rewrite mem_iota add0n.
  by rewrite !(coef_toP pp) e.
rewrite mem_iota add0n /= => lt; apply/eqP/(residue_inj pp).
- exact: residue_get_coefficient.
- exact: residue_get_coefficient.
by rewrite -!(coef_toP pp); apply: h.
Qed.

Lemma coef_toP_eq0 u i :
  all (residue q) u -> (get_coefficient u i = 0%Z) <-> ((T u)`_i = 0).
Proof.
move=> ru; rewrite (coef_toP pp); split=> [->|/eqP]; first exact: toF0.
by rewrite (toF_eq0 pp) ?residue_get_coefficient // => /eqP.
Qed.

Lemma toP_Z : T (monomial 1%Z 1) = 'X.
Proof. by rewrite (toP_monomial pp) (toF1 pp) scale1r expr1. Qed.

(** Appending to the lists entries that satisfy the congruences. *)
Lemma bm_state_rcons j st sg' om' ta' ga' Dn Bn :
  bm_state_ok self S j st ->
  [/\ wf_poly q sg', wf_poly q om', wf_poly q ta' & wf_poly q ga'] ->
  (forall i, (i <= j.+1)%nat -> (A * T sg')`_i = (T om')`_i) ->
  (forall i, (i <= j.+1)%nat ->
     (A * T ta')`_i = (T ga')`_i + (i == j.+1)%:R) ->
  (forall i, (j.+1 < i)%nat -> (T om')`_i = 0) ->
  (forall i, (j.+1 < i)%nat -> (T ga')`_i = 0) ->
  bm_state_ok self S j.+1
    (mkBM (rcons (sigma st) sg') (rcons (omega st) om')
          (rcons (tao st) ta') (rcons (gamma st) ga')
          (rcons (D st) Dn) (rcons (B st) Bn)).
Proof.
rewrite /bm_state_ok bE.
move=> [[s1 s2 s3 s4 [s5 s6]] [[w1 w2 w3 w4] [c1 c2 c3 c4]]].
move=> [wsg wom wta wga] Hs Ht Ho Hg /=.
split; first by rewrite !size_rcons s1 s2 s3 s4 s5 s6.
split; first by rewrite !all_rcons wsg wom wta wga w1 w2 w3 w4.
have rr := wf_residues; have wm := wf_pmul pp.
split.
- move=> l; rewrite !nth_rcons s1 s2 leq_eqVlt ltnS => /orP[/eqP->|lt].
    rewrite ltnn eqxx; apply/congruentP; [exact/rr/wm|exact/rr|].
    by move=> i; rewrite ltnS (toP_pmul pp) toP_one_s; apply: Hs.
  by rewrite lt; apply: c1.
- rewrite !nth_rcons s3 s4 ltnn eqxx.
  apply/congruentP; [exact/rr/wm|exact/rr/(wf_padd pp)|].
  move=> i; rewrite ltnS (toP_pmul pp) toP_one_s (toP_padd pp) => le.
  rewrite (toP_monomial pp) (toF1 pp) scale1r coefD coefXn; exact: Ht.
- move=> i lt; rewrite nth_rcons s2 ltnn eqxx.
  by apply/coef_toP_eq0; [exact/rr | exact: Ho].
- move=> i lt; rewrite nth_rcons s4 ltnn eqxx.
  by apply/coef_toP_eq0; [exact/rr | exact: Hg].
Qed.


Lemma floordiv_constant u c :
  wf_poly q u -> residue q c -> c != 0%Z ->
  exists2 t, pfloordiv q u (constant c) = Ok t &
             wf_poly q t /\ T t = (F c)^-1 *: T u.
Proof.
move=> wu rc c0; have wc : wf_poly q (constant c) by apply: wf_constant.
have cn0 : constant c != [:: 0%Z] by rewrite /constant eqseq_cons andbT.
have [t [r [e wt _ Tt _]]] := pdivmodP pp wu wc cn0.
exists t; first by rewrite /pfloordiv e.
split=> //; rewrite Tt toP_constant.
have Fc : F c != 0 by rewrite (toF_eq0 pp).
have {1}-> : T u = ((F c)^-1 *: T u) * (F c)%:P.
  by rewrite mulrC mul_polyC scalerA divff // scale1r.
by rewrite mulpK // polyC_eq0.
Qed.

(** One turn of the loop succeeds and keeps the congruences. *)
Lemma bm_turn_ok j st :
  bm_state_ok self S j st ->
  exists2 st', bm_turn self S st (Z.of_nat j) = Ok st' &
               bm_state_ok self S j.+1 st'.
Proof.
move=> ok; move: (ok); rewrite {1}/bm_state_ok bE.
move=> [[s1 s2 s3 s4 [s5 s6]] [[w1 w2 w3 w4] [c1 c2 c3 c4]]].
rewrite /bm_turn bE !(val_new pq (residue_1 pq)) (val_new pq (residue_0 pq)).
rewrite !bind_Ok.
have jb l : size l = j.+1 -> (0 <= Z.of_nat j < Z.of_nat (size l))%Z.
  by move=> ->; lia.
rewrite !(getitem_nth [::] (jb _ _ _)) // !bind_Ok.
rewrite !(getitem_nth 0%Z (jb _ _ _)) // !bind_Ok Nat2Z.id.
have -> : Z.to_nat (Z.of_nat j + 1) = j.+1 by lia.
set sg := nth [::] (sigma st) j; set om := nth [::] (omega st) j.
set ta := nth [::] (tao st) j; set ga := nth [::] (gamma st) j.
set Dl := nth 0%Z (D st) j; set Bl := nth 0%Z (B st) j.
set dz := get_coefficient (pmul q one_s sg) j.+1.
have wsg : wf_poly q sg by apply: (all_nthP [::] w1); rewrite s1.
have wom : wf_poly q om by apply: (all_nthP [::] w2); rewrite s2.
have wta : wf_poly q ta by apply: (all_nthP [::] w3); rewrite s3.
have wga : wf_poly q ga by apply: (all_nthP [::] w4); rewrite s4.
have rr u : wf_poly q u -> all (residue q) u by apply: wf_residues.
have wm := wf_pmul pp.
have rdz : residue q dz by apply/residue_get_coefficient/rr/wm.
have Fdz : F dz = (A * T sg)`_j.+1.
  by rewrite -(coef_toP pp) (toP_pmul pp) toP_one_s.
have Hs i : (i <= j)%nat -> (A * T sg)`_i = (T om)`_i.
  have /congruentP := c1 j (leqnn j) => /(_ (rr _ (wm _ _)) (rr _ wom)) h le.
  by rewrite -toP_one_s -(toP_pmul pp); apply: h.
have Ht i : (i <= j)%nat -> (A * T ta)`_i = (T ga)`_i + (i == j)%:R.
  have /congruentP := c2.
  move=> /(_ (rr _ (wm _ _)) (rr _ (wf_padd pp _ _))) h le.
  rewrite -toP_one_s -(toP_pmul pp) h // (toP_padd pp) (toP_monomial pp).
  by rewrite (toF1 pp) scale1r coefD coefXn.
have Ho i : (j < i)%nat -> (T om)`_i = 0.
  by move=> lt; apply/coef_toP_eq0; [exact: rr | exact: c3].
have Hg i : (j < i)%nat -> (T ga)`_i = 0.
  by move=> lt; apply/coef_toP_eq0; [exact: rr | exact: c4].
set sg' := psub q sg _; set om' := psub q om _.
have Tsg' : T sg' = T sg - ((A * T sg)`_j.+1)%:P * 'X * T ta.
  by rewrite (toP_psub pp) !(toP_pmul pp) toP_constant toP_Z Fdz.
have Tom' : T om' = T om - ((A * T sg)`_j.+1)%:P * 'X * T ga.
  by rewrite (toP_psub pp) !(toP_pmul pp) toP_constant toP_Z Fdz.
have Hs' i : (i <= j.+1)%nat -> (A * T sg')`_i = (T om')`_i.
  by rewrite Tsg' Tom'; apply: (bm_sigma Hs Ht Ho).
have Ho' i : (j.+1 < i)%nat -> (T om')`_i = 0.
  by rewrite Tom'; apply: (bm_omega_deg _ _ Ho Hg).
have okA Dn Bn : bm_state_ok self S j.+1
    (mkBM (rcons (sigma st) sg') (rcons (omega st) om')
          (rcons (tao st) (pmul q (monomial 1 1) ta))
          (rcons (gamma st) (pmul q (monomial 1 1) ga))
          (rcons (D st) Dn) (rcons (B st) Bn)).
  apply: (bm_state_rcons _ _ ok) => //.
  - by split; [apply: wf_psub | apply: wf_psub | apply: wm | apply: wm].
  - by move=> i; rewrite !(toP_pmul pp) toP_Z; apply: (bm_ruleA Ht).
  - by move=> i; rewrite (toP_pmul pp) toP_Z; apply: (bm_ruleA_deg Hg).
have okB Dn Bn : dz != 0%Z ->
  exists2 st',
    bind (pfloordiv q sg (constant dz)) (fun t =>
    bind (pfloordiv q om (constant dz)) (fun c =>
    Ok (mkBM (rcons (sigma st) sg') (rcons (omega st) om')
             (rcons (tao st) t) (rcons (gamma st) c)
             (rcons (D st) Dn) (rcons (B st) Bn)))) = Ok st' &
    bm_state_ok self S j.+1 st'.
  move=> d0; have [t -> [wt Tt]] := floordiv_constant wsg rdz d0.
  have [c -> [wc Tc]] := floordiv_constant wom rdz d0.
  rewrite !bind_Ok; eexists; first by [].
  have D0 : (A * T sg)`_j.+1 != 0 by rewrite -Fdz (toF_eq0 pp).
  apply: (bm_state_rcons _ _ ok) => //.
  - by split=> //; apply: wf_psub.
  - by move=> i; rewrite Tt Tc Fdz; apply: (bm_ruleB Hs Ho).
  - by move=> i; rewrite Tc Fdz; apply: (bm_ruleB_deg _ _ Ho).
have cE : (constant dz == constant 0%Z) = (dz == 0%Z).
  by rewrite /constant eqseq_cons andbT.
rewrite !cE; case d0: (dz == 0%Z).
  by rewrite orTb; eexists; [reflexivity | exact: okA].
rewrite orFb -[~~ false]/true andTb.
case: Z.gtb_spec => gt; first by eexists; [reflexivity | exact: okA].
case: Z.ltb_spec => lt; first exact: (okB _ _ (negbT d0)).
have -> : (2 * Dl =? Z.of_nat j + 1)%Z = true by apply/Z.eqb_eq; lia.
case: (Bl =? 0)%Z; first by eexists; [reflexivity | exact: okA].
exact: (okB _ _ (negbT d0)).
Qed.



Local Notation st0 :=
  (mkBM [:: Polynomial.Polynomial [:: 1%Z]] [:: Polynomial.Polynomial [:: 1%Z]]
        [:: Polynomial.Polynomial [:: 1%Z]] [:: Polynomial.Polynomial [:: 0%Z]]
        [:: 0%Z] [:: 0%Z]).

(** The lists the loop starts from. *)
Lemma bm_state0 : bm_state_ok self S 0 st0.
Proof.
rewrite /bm_state_ok bE.
have P1 : Polynomial.Polynomial [:: 1%Z] = constant 1%Z by [].
have P0 : Polynomial.Polynomial [:: 0%Z] = constant 0%Z by [].
have w1 : wf_poly q (constant 1%Z) by apply: wf_constant; apply: residue_1.
have w0 : wf_poly q (constant 0%Z) by apply: wf_constant; apply: residue_0.
have rr u : wf_poly q u -> all (residue q) u by apply: wf_residues.
have wm := wf_pmul pp.
have A0 : A`_0 = 1.
  by rewrite coefD coef1 (coef_toP pp) S0 (toF0 pp) addr0.
rewrite [sigma _]/= [omega _]/= [tao _]/= [gamma _]/= [D _]/= [B _]/= P1 P0.
split; first by [].
split; first by rewrite /= w1 w0.
split.
- move=> [|l] // _.
  have -> : nth [::] [:: constant 1%Z] 0 = constant 1%Z by [].
  apply/congruentP; [exact/rr/wm | exact/rr |].
  move=> [|i] // _; rewrite (toP_pmul pp) toP_one_s toP_constant (toF1 pp).
  by rewrite mulr1 A0 coef1.
- have -> : nth [::] [:: constant 1%Z] 0 = constant 1%Z by [].
  have -> : nth [::] [:: constant 0%Z] 0 = constant 0%Z by [].
  apply/congruentP; [exact/rr/wm | exact/rr/(wf_padd pp) |].
  move=> [|i] // _; rewrite (toP_pmul pp) toP_one_s toP_constant (toF1 pp).
  rewrite mulr1 A0 (toP_padd pp) toP_constant (toF0 pp) add0r.
  by rewrite (toP_monomial pp) (toF1 pp) scale1r expr0 coef1.
- by move=> [|i].
- by move=> [|i].
Qed.

Lemma bm_loop_prefix j :
  exists2 st, foldM (bm_turn self S) st0 (xrange 0 (Z.of_nat j)) = Ok st &
              bm_state_ok self S j st.
Proof.
elim: j => [|j [st e ok]]; first by exists st0 => //; apply: bm_state0.
have [st' e' ok'] := bm_turn_ok ok; exists st' => //.
have -> : Z.of_nat j.+1 = (Z.of_nat j + 1)%Z by lia.
have -> : xrange 0 (Z.of_nat j + 1) = rcons (xrange 0 (Z.of_nat j)) (Z.of_nat j).
  by apply: xrange_rcons; lia.
by rewrite foldM_rcons e bind_Ok.
Qed.

(** The loop of [_berlekamp_massey] runs to its end, and leaves lists
    that satisfy the congruences. *)
Lemma bm_loop_ok :
  exists2 st, bm_loop self S = Ok st &
              bm_state_ok self S (Z.to_nat (n self - k self)) st.
Proof.
have [st e ok] := bm_loop_prefix (Z.to_nat (n self - k self)).
exists st => //; rewrite /bm_loop bE (val_new pq (residue_1 pq)).
rewrite (val_new pq (residue_0 pq)) !bind_Ok -e; congr (foldM _ _ _).
case: (Z.leb_spec 0 (n self - k self)) => le; first by rewrite Z2Nat.id.
have -> : xrange 0 (n self - k self) = [::] by apply: xrange_nil; lia.
by have -> : Z.to_nat (n self - k self) = 0%nat by lia.
Qed.

Lemma berlekamp_massey_ok st :
  bm_loop self S = Ok st ->
  _berlekamp_massey self S =
  Ok (nth [::] (sigma st) (Z.to_nat (n self - k self)),
      nth [::] (omega st) (Z.to_nat (n self - k self))).
Proof.
move=> e; have [st' e' ok] := bm_loop_ok; move: e' ok; rewrite e => -[<-].
move=> [[s1 s2 _ _ _] _]; rewrite /_berlekamp_massey e bind_Ok.
have sn0 : sigma st <> [::] by case: (sigma st) s1.
have on0 : omega st <> [::] by case: (omega st) s2.
rewrite (getitem_last [::] sn0) bind_Ok (getitem_last [::] on0) bind_Ok.
by rewrite -!nth_last s1 s2.
Qed.

End BMLoop.

(** A constructed codec is [coder] over a prime given as a natural number. *)
Lemma init_coder (q n k : Z) (mp : option Mapper) cd :
  Rscoder.__init__ q n k mp = Ok cd ->
  exists (p : nat) (alpha : Z) (m : Mapper),
    [/\ prime p, accepted (Z.of_nat p), q = Z.of_nat p, residue q alpha &
        findgen q = Some alpha] /\
    [/\ (0 <= k < n)%Z, (n < q)%Z & cd = coder m alpha (Z.of_nat p) n k].
Proof.
move=> /init_inv[pq kn nq _ [alpha fg ->]].
have q2 := is_prime_ge2 pq.
exists (Z.to_nat q), alpha, (if mp is Some m then m else default_mapper).
have qE : Z.of_nat (Z.to_nat q) = q by lia.
have q4 : q <> 4%Z by case: (is_prime_odd pq) => [->|/[swap] ->].
rewrite qE; split; split=> //; last exact: findgen_residue.
exact: findgen_prime fg.
Qed.


(* ===================================================================== *)
(** ** pfint.py: plain integers as operands *)
(* ===================================================================== *)

Section IntOperands.


Local Open Scope Z_scope.

(** C7 (amended).  A plain integer operand is passed through the constructor
    of the field, not reduced: inside [[0, p)] it is taken as the element of
    that value, and the six binary operators compute in the field; outside
    [[0, p)] every one of them raises [ValueError]. *)
Theorem binop_int_operand (p a m : Z) :
  is_prime p = Ok true -> 0 <= a < p ->
  let x := mkPF p a in
  let el v := Ok (PyPF (mkPF p v)) in
  if (0 <=? m) && (m <? p) then
    [/\ __add__ x (PyInt m) = el ((a + m) mod p),
        __sub__ x (PyInt m) = el ((a - m) mod p),
        __rsub__ x (PyInt m) = el ((m - a) mod p),
        __mul__ x (PyInt m) = el ((a * m) mod p) &
        __div__ x (PyInt m) =
          (if m =? 0 then Raise ValueError
           else el ((a * pow3 m (p - 2) p) mod p)) /\
        __rdiv__ x (PyInt m) =
          (if a =? 0 then Raise ValueError
           else el ((pow3 a (p - 2) p * m) mod p))]
  else
    [/\ __add__ x (PyInt m) = Raise ValueError,
        __sub__ x (PyInt m) = Raise ValueError,
        __rsub__ x (PyInt m) = Raise ValueError,
        __mul__ x (PyInt m) = Raise ValueError &
        __div__ x (PyInt m) = Raise ValueError /\
        __rdiv__ x (PyInt m) = Raise ValueError].
Proof.
move=> pp ap /=; have p2 := is_prime_ge2 pp.
rewrite /__add__ /__sub__ /__rsub__ /__div__ /__rdiv__ /__rmul__ /__mul__ /coerce /=.
rewrite PFint_new_int //; case mp: ((0 <=? m) && (m <? p)) => /=; last by [].
have {mp} [/Z.leb_le m0 /Z.ltb_lt mlt] := andP mp.
rewrite !PFint_new_mod //; split=> //; split.
  case: Z.eqb_spec => [->|mn0]; first by rewrite inverse_zero //= /PFint_new pp.
  by rewrite inverse_nonzero //=; [lia | rewrite eqxx /= PFint_new_mod].
case: Z.eqb_spec => [->|a0]; first by rewrite inverse_zero //= /PFint_new pp.
by rewrite inverse_nonzero //=; [lia | rewrite eqxx /= PFint_new_mod].
Qed.

Lemma binop_int_operand_witness :
  (is_prime 59 = Ok true /\ 0 <= 3 < 59) /\
  __add__ (mkPF 59 3) (PyInt 62) = Raise ValueError /\
  __add__ (mkPF 59 3) (PyInt 9) = Ok (PyPF (mkPF 59 12)).
Proof.
split; first by split; [vm_compute | lia].
split; first by case: (@binop_int_operand 59 3 62); [vm_compute | lia |].
by case: (@binop_int_operand 59 3 9); [vm_compute | lia |].
Defined.

End IntOperands.

(* ===================================================================== *)
(** ** The length of a codeword and the round trip *)
(* ===================================================================== *)

Section EncodeDecode.

Local Open Scope Z_scope.

(** The length of what [encode] returns.  For a codec whose messages have
    at least two symbols, [encode] with [nostrip] set returns exactly [n]
    symbols: the coefficients of the codeword polynomial, highest degree
    first, written by the mapper and padded at the top with the zero
    symbol.  With the default [nostrip=False] it returns the coefficients
    alone, without padding. *)
Theorem encode_padded (q n k : Z) (mp : option Mapper) cd (m : seq ascii) :
  Rscoder.__init__ q n k mp = Ok cd ->
  mapper_ok (mapper cd) q ->
  2 <= k -> Z.of_nat (size m) <= k -> all (readable (mapper cd) q) m ->
  exists c : seq Z,
    let zero := chr (mapper cd) 0 in
    let written := [seq chr (mapper cd) z | z <- c] in
    [/\ encode cd m true true = Ok (AsPoly c),
        Z.of_nat (size c) <= n,
        encode cd m false true = Ok (AsStr (rjust written n zero)),
        Z.of_nat (size (rjust written n zero)) = n &
        encode cd m false false = Ok (AsStr written)].
Proof.
move=> /init_coder[p [alpha [mp' [[pp pq qE ra _] [kn nq ->]]]]].
rewrite -[mapper _]/mp' {}qE in ra nq * => ok k2 sm rm.
have sm' : (size m <= Z.to_nat k)%nat by apply/leP; lia.
have sz : (size [seq ord mp' x | x <- rjust m k (chr mp' 0)] <= Z.to_nat k)%nat.
  by rewrite size_map size_rjust.
have sc := size_code_poly pp pq mp' alpha kn sz.
eexists; split; try exact: (encodeE pp pq alpha ok kn _ _ k2 sm' rm).
  by move/leP: sc; lia.
by rewrite size_rjust ?size_map //; lia.
Qed.

Lemma encode_padded_witness :
  let cd := coder default_mapper 3 7 6 2 in
  [/\ Rscoder.__init__ 7 6 2 None = Ok cd, mapper_ok (mapper cd) 7, 2 <= 2,
      Z.of_nat (size (str "01")) <= 2 & all (readable (mapper cd) 7) (str "01")]
  /\ exists c : seq Z,
       [/\ encode cd (str "01") true true = Ok (AsPoly c),
           Z.of_nat (size c) <= 6,
           encode cd (str "01") false true =
             Ok (AsStr (rjust [seq chr (mapper cd) z | z <- c] 6
                              (chr (mapper cd) 0))),
           Z.of_nat (size (rjust [seq chr (mapper cd) z | z <- c] 6
                                 (chr (mapper cd) 0))) = 6 &
           encode cd (str "01") false false =
             Ok (AsStr [seq chr (mapper cd) z | z <- c])].
Proof.
move=> cd; have H : [/\ Rscoder.__init__ 7 6 2 None = Ok cd,
    mapper_ok (mapper cd) 7, 2 <= 2, Z.of_nat (size (str "01")) <= 2 &
    all (readable (mapper cd) 7) (str "01")] by split; vm_compute.
by split=> //; case: H => h1 h2 h3 h4 h5; apply: (encode_padded h1 h2 h3 h4 h5).
Defined.

(** C2 (amended).  For a codec whose messages have at least two symbols and
    a message of exactly [k] of the mapper's symbols, decoding with
    [nostrip] set what [encode] with [nostrip] set returns gives the
    message back. *)
Theorem roundtrip_nostrip (q n k : Z) (mp : option Mapper) cd (m : seq ascii) :
  Rscoder.__init__ q n k mp = Ok cd ->
  mapper_ok (mapper cd) q ->
  2 <= k -> Z.of_nat (size m) = k -> all (symbol (mapper cd) q) m ->
  exists cw, encode cd m false true = Ok (AsStr cw) /\
             decode cd cw true = Ok m.
Proof.
move=> /init_coder[p [alpha [mp' [[pp pq qE ra _] [kn nq ->]]]]].
rewrite -[mapper _]/mp' {}qE in ra nq * => ok k2 sm sym.
have sm' : size m = Z.to_nat k by lia.
have rm : all (readable mp' (Z.of_nat p)) m.
  by apply/allP => c /(allP sym)/andP[].
have mE : rjust m k (chr mp' 0) = m by rewrite /rjust sm' subnn.
have := encodeE pp pq alpha ok kn false true k2 _ rm; rewrite sm' leqnn mE /=.
move=> /(_ isT) ->; eexists; split; first by [].
have sz : (size [seq ord mp' c | c <- m] <= Z.to_nat k)%nat by rewrite size_map sm'.
have n2 : (1 < Z.to_nat n)%nat by apply/ltP; lia.
have vw := @verify_word p pp pq mp' alpha n k ok kn _ sz n2.
rewrite (@decode_verified p pq mp' alpha n k _ true vw).
rewrite /drop_last (@size_word p pp pq mp' alpha n k kn _ sz).
have -> : (Z.to_nat n - Z.to_nat (n - k))%nat = Z.to_nat k by rewrite -minusE; lia.
by rewrite (@take_word p pp pq mp' alpha n k kn m sm' sym).
Qed.

Lemma roundtrip_nostrip_witness :
  let cd := coder default_mapper 3 7 6 2 in
  [/\ Rscoder.__init__ 7 6 2 None = Ok cd, mapper_ok (mapper cd) 7, 2 <= 2,
      Z.of_nat (size (str "01")) = 2 & all (symbol (mapper cd) 7) (str "01")]
  /\ exists cw, encode cd (str "01") false true = Ok (AsStr cw) /\
                decode cd cw true = Ok (str "01").
Proof.
move=> cd; have H : [/\ Rscoder.__init__ 7 6 2 None = Ok cd,
    mapper_ok (mapper cd) 7, 2 <= 2, Z.of_nat (size (str "01")) = 2 &
    all (symbol (mapper cd) 7) (str "01")] by split; vm_compute.
by split=> //; case: H => h1 h2 h3 h4 h5; apply: (roundtrip_nostrip h1 h2 h3 h4 h5).
Defined.

End EncodeDecode.

(* ===================================================================== *)
(** ** [verify]: remainder, syndromes, and a changed symbol *)
(* ===================================================================== *)

Section Verify.

Local Open Scope Z_scope.

(** C3 (amended).  For a codec with at least one message symbol and a
    word [R] of [n] readable symbols, let [vals] be the values the table of
    the mapper gives for the symbols of [R], and [S l] the value of the
    polynomial of coefficients [vals] at [alpha^l].  Reading [R] gives
    [vals]; [verify] returns whether the remainder of that polynomial by
    the generator polynomial is the zero polynomial; the remainder is zero
    exactly when [S l] is zero for every [l = 1 .. n-k]; the [S l] are the
    coefficients of the polynomial [_syndromes] returns, which is the zero
    polynomial exactly when they are all zero.  From every state [c] of
    the cache of [PFint] the reading of [R], with which [verify] starts,
    gives the same [vals], and it leaves the cache with the elements of
    values [vals] entered. *)
Theorem verify_remainder_syndromes (q n k : Z) (mp : option Mapper) cd
    (R : seq ascii) (c : cache) :
  Rscoder.__init__ q n k mp = Ok cd -> 0 < k ->
  Z.of_nat (size R) = n -> all (readable (mapper cd) q) R ->
  let vals := [seq ord (mapper cd) x | x <- R] in
  let S l := evaluate q (Polynomial vals) (pow3 (generator cd) l q) in
  exists rem sz : seq Z,
    [/\ symbols cd R = Ok vals,
        pmod q (Polynomial vals) (g cd) = Ok rem,
        _syndromes cd (Polynomial vals) = Ok sz &
        forall l, 1 <= l <= n - k -> get_coefficient sz (Z.to_nat l) = S l] /\
    [/\ verify cd R = Ok (rem == [:: 0]),
        (rem == [:: 0]) = all (fun l => S l == 0) (xrange 1 (n - k + 1)),
        (sz == [:: 0]) = all (fun l => S l == 0) (xrange 1 (n - k + 1)) &
        symbols_st c cd R = (Ok vals, cache_enter q c vals)].
Proof.
move=> /init_coder[p [alpha [mp' [[pp pq qE ra fg] [kn nq ->]]]]].
rewrite -[mapper _]/mp' -[generator _]/alpha {}qE in ra nq fg * => k0 sR rR.
have s2 : (1 < size R)%nat by apply/ltP; lia.
set vals := [seq ord mp' x | x <- R] => S.
have wv : wf_poly (Z.of_nat p) (Polynomial vals).
  by apply: wf_normalize => //; rewrite all_map.
have [rem [pm wr _ Tr]] := pmodE pp pq mp' alpha kn wv.
have vE : verify (coder mp' alpha (Z.of_nat p) n k) R = Ok (rem == [:: 0]).
  rewrite /verify (symbolsE pq alpha n k s2 rR) bind_Ok.
  by rewrite -[b _]/(Z.of_nat p) -/vals pm.
exists rem, (Polynomial (rev (0 :: [seq evaluate (Z.of_nat p)
  (Polynomial vals) (pow3 alpha l (Z.of_nat p)) | l <- xrange 1 (n - k + 1)]))).
split; split=> //.
- exact: symbolsE.
- exact: syndromesE.
- by move=> l lb; rewrite (syndromes_coef pp pq alpha kn).
- have := verify_syndromes pp pq kn nq fg k0 s2 rR.
  by rewrite vE -/vals => -[->].
- by rewrite /Polynomial normalize_eq0 all_rev /= all_map.
- exact: symbols_stE.
Qed.

Lemma verify_remainder_syndromes_witness :
  let cd := coder default_mapper 3 7 6 2 in
  let vals := [seq ord (mapper cd) x | x <- str "120435"] in
  let S l := evaluate 7 (Polynomial vals) (pow3 (generator cd) l 7) in
  [/\ Rscoder.__init__ 7 6 2 None = Ok cd, 0 < 2,
      Z.of_nat (size (str "120435")) = 6 &
      all (readable (mapper cd) 7) (str "120435")] /\
  exists rem sz : seq Z,
    [/\ symbols cd (str "120435") = Ok vals,
        pmod 7 (Polynomial vals) (g cd) = Ok rem,
        _syndromes cd (Polynomial vals) = Ok sz &
        forall l, 1 <= l <= 6 - 2 -> get_coefficient sz (Z.to_nat l) = S l] /\
    [/\ verify cd (str "120435") = Ok (rem == [:: 0]),
        (rem == [:: 0]) = all (fun l => S l == 0) (xrange 1 (6 - 2 + 1)),
        (sz == [:: 0]) = all (fun l => S l == 0) (xrange 1 (6 - 2 + 1)) &
        symbols_st [:: (7, 1)] cd (str "120435") =
          (Ok vals, cache_enter 7 [:: (7, 1)] vals)].
Proof.
move=> cd vals S; have H : [/\ Rscoder.__init__ 7 6 2 None = Ok cd, 0 < 2,
    Z.of_nat (size (str "120435")) = 6 &
    all (readable (mapper cd) 7) (str "120435")] by split; vm_compute.
split; first exact: H.
case: H => h1 h2 h3 h4.
exact: (verify_remainder_syndromes [:: (7, 1)] h1 h2 h3 h4).
Defined.

(** A changed symbol.  For every message [m] that [encode] accepts and
    either value of [nostrip], with [cw] the word it writes, of two symbols
    at least (as every word written with [nostrip] set is): replacing the
    symbol at any position of [cw] by a character that reads as another
    field value gives a word on which [verify] returns [False]. *)
Theorem verify_single_mutation (q n k : Z) (mp : option Mapper) cd
    (m cw : seq ascii) (nostrip : bool) (i : nat) (c : ascii) :
  Rscoder.__init__ q n k mp = Ok cd -> mapper_ok (mapper cd) q ->
  encode cd m false nostrip = Ok (AsStr cw) ->
  nostrip || (1 < size cw)%nat ->
  (i < size cw)%nat -> readable (mapper cd) q c ->
  ord (mapper cd) c <> ord (mapper cd) (nth c cw i) ->
  verify cd (set_nth c cw i c) = Ok false.
Proof.
move=> /init_coder[p [alpha [mp' [[pp pq qE ra fg] [kn nq ->]]]]].
rewrite -[mapper _]/mp' {}qE in ra nq fg * => ok en sz lt rc /eqP ne.
have [k2 sm rm] := encode_inv pp pq ok en.
have p3 : p != 3%nat by apply/eqP => p3; move: nq; rewrite p3; lia.
have a0 := findgen_nonzero pp fg p3.
apply: (verify_changed pp pq kn a0) => //.
case: nostrip en sz => en sz.
  move: en; rewrite (encode_padded_str pp pq alpha ok kn k2 sm rm).
  move=> /Ok_AsStr_inj <-.
  apply: (verify_word pp pq alpha ok kn); last by apply/ltP; lia.
  by rewrite size_map size_rjust.
move: en sz; rewrite (encode_plain_str pp pq alpha ok kn k2 sm rm).
move=> /Ok_AsStr_inj <-; rewrite size_map => sz.
exact: (verify_chars pp pq ok kn).
Qed.

Lemma verify_single_mutation_witness :
  let cd := coder default_mapper 3 7 6 2 in
  [/\ Rscoder.__init__ 7 6 2 None = Ok cd, mapper_ok (mapper cd) 7,
      encode cd (str "01") false false = Ok (AsStr (str "16324")) &
      false || (1 < size (str "16324"))%nat] /\
  [/\ (4 < size (str "16324"))%nat, readable (mapper cd) 7 "0"%char &
      ord (mapper cd) "0"%char <>
      ord (mapper cd) (nth "0"%char (str "16324") 4)] /\
  verify cd (set_nth "0"%char (str "16324") 4 "0"%char) = Ok false.
Proof.
move=> cd; have H1 : [/\ Rscoder.__init__ 7 6 2 None = Ok cd,
    mapper_ok (mapper cd) 7,
    encode cd (str "01") false false = Ok (AsStr (str "16324")) &
    false || (1 < size (str "16324"))%nat].
  by split; vm_compute.
have H2 : [/\ (4 < size (str "16324"))%nat,
    readable (mapper cd) 7 "0"%char &
    ord (mapper cd) "0"%char <>
    ord (mapper cd) (nth "0"%char (str "16324") 4)] by split; vm_compute.
split; first exact: H1.
split; first exact: H2.
case: H1 => h1 h2 h3 h3'; case: H2 => h4 h5 h6.
exact: (verify_single_mutation h1 h2 h3 h3' h4 h5 h6).
Defined.

End Verify.
(* ===================================================================== *)
(** ** Which constructions succeed *)
(* ===================================================================== *)

Section ConstructionDecided.

Local Open Scope Z_scope.

(** The tests on [n], [k] and the mapper come first, and their refusal is a
    [ValueError]. *)
Lemma init_Raise (q n k : Z) (mp : option Mapper) :
  ~ [/\ 0 <= k < n, n < q & mp = None -> q <= 59] ->
  Rscoder.__init__ q n k mp = Raise ValueError.
Proof.
move=> no; rewrite /Rscoder.__init__ alphabet_size.
case: ifP => // /negbT; rewrite negb_or => /andP[/negbTE n0 /negbTE k0].
case: ifP => // /negbFE /Z.ltb_lt nq; case: ifP => // /negbFE /Z.ltb_lt kn.
have k0' : 0 <= k by move/Z.ltb_ge: k0.
case: mp no => [m|] no /=; last by case: Z.leb_spec => // q59; case: no; split.
by case: no; split.
Qed.

(** Once they have passed, what [is_prime] does with [b] decides. *)
Lemma init_is_prime (q n k : Z) (mp : option Mapper) :
  0 <= k < n -> n < q -> (mp = None -> q <= 59) ->
  match is_prime q with
  | Raise e => Rscoder.__init__ q n k mp = Raise e
  | Ok false => Rscoder.__init__ q n k mp = Raise ValueError
  | Ok true => True
  end.
Proof.
move=> [k0 kn] nq mpq; rewrite /Rscoder.__init__ alphabet_size.
have -> : (n <? 0) || (k <? 0) = false by apply/negP => /orP[] /Z.ltb_lt; lia.
have -> /= : (n <? q) = true by apply/Z.ltb_lt.
have -> /= : (k <? n) = true by apply/Z.ltb_lt.
have -> /= : match mp with
       | Some m => Ok m
       | None =>
           if q <=? 59
           then Mapper.__init__ mapper_default_alphabet mapper_default_equivs
           else Raise ValueError
       end = Ok (if mp is Some m then m else default_mapper).
  case: mp mpq => [//|] /(_ erefl) q59.
  by rewrite default_mapperE; have -> : q <=? 59 = true by apply/Z.leb_le.
case e: (is_prime q) => [[]|x] //.
  by have -> : PFint_new q PyNone = Raise ValueError by rewrite /PFint_new e.
by have -> : PFint_new q PyNone = Raise x by rewrite /PFint_new e.
Qed.

(** A prime modulus always has a generator, so that the constructor
    succeeds as soon as its checks pass. *)
Lemma init_prime_Ok (q n k : Z) (mp : option Mapper) :
  prime (Z.to_nat q) -> is_prime q = Ok true ->
  0 <= k < n -> n < q -> (mp = None -> q <= 59) ->
  exists2 alpha, findgen q = Some alpha &
  Rscoder.__init__ q n k mp
    = Ok (coder (if mp is Some m then m else default_mapper) alpha q n k).
Proof.
move=> pp pq kn nq mpq; have q2 := is_prime_ge2 pq.
have [alpha] := findgen_exists pp.
have -> : Z.of_nat (Z.to_nat q) = q by lia.
by move=> fg; exists alpha => //; apply: init_Ok.
Qed.

(** The order of a codec is a prime number, whatever [is_prime] has made
    of it: [findgen] finds no generator otherwise. *)
Lemma init_prime (q n k : Z) (mp : option Mapper) cd :
  Rscoder.__init__ q n k mp = Ok cd -> prime (Z.to_nat q).
Proof.
by move=> /init_coder[p [alpha [m [[pp _ -> _ _] _]]]]; rewrite Nat2Z.id.
Qed.

(** C5 (amended).  For [k] other than zero and, when a mapper is passed,
    [b] below [2^53]: the constructor succeeds exactly when [b] is prime,
    [0 < k < n < b] and, when no mapper is given, [b] is at most 59, the
    size of the default alphabet; it then returns a codec with these
    parameters and the mapper passed, or the default one; and otherwise it
    raises [ValueError]. *)
Theorem init_succeeds_iff (q n k : Z) (mp : option Mapper) :
  k <> 0 -> mp = None \/ q < 2 ^ 53 ->
  let valid :=
    [/\ prime (Z.to_nat q), 0 < k < n, n < q & mp = None -> q <= 59] in
  [/\ (exists cd, Rscoder.__init__ q n k mp = Ok cd) <-> valid,
      forall cd, Rscoder.__init__ q n k mp = Ok cd ->
        [/\ b cd = q, Rscoder.n cd = n, Rscoder.k cd = k &
            mapper cd = if mp is Some m then m else default_mapper] &
      ~ valid -> Rscoder.__init__ q n k mp = Raise ValueError].
Proof.
move=> k0 small valid.
have q53 : (mp = None -> q <= 59) -> q < 2 ^ 53.
  case: small => [-> /(_ erefl) q59|//].
  by apply: Z.le_lt_trans q59 _.
split.
- split=> [[cd e]|[pp kn nq mpq]].
    have [pq kn nq mpq _] := init_inv e.
    by split=> //; [exact: init_prime e | lia].
  have pq : is_prime q = Ok true by rewrite is_primeP ?pp //; apply: q53.
  have [|alpha _ ->] := @init_prime_Ok q n k mp pp pq _ nq mpq; first by lia.
  by eexists.
- by move=> cd /init_inv[_ _ _ _ [alpha _ ->]].
- move=> no.
  have [[kn nq mpq]|] :
      [/\ 0 <= k < n, n < q & mp = None -> q <= 59] \/
      ~ [/\ 0 <= k < n, n < q & mp = None -> q <= 59]; last exact: init_Raise.
    have [kn|kn] : 0 <= k < n \/ ~ 0 <= k < n by lia.
      have [nq|nq] : n < q \/ ~ n < q by lia.
        case: mp {q53 small valid no} => [m|]; first by left.
        have [q59|q59] : q <= 59 \/ ~ q <= 59 by lia.
          by left.
        by right=> -[_ _ /(_ erefl)].
      by right=> -[].
    by right=> -[].
  have := init_is_prime kn nq mpq; rewrite (is_primeP (q53 mpq)).
  case pp : (prime (Z.to_nat q)) => //.
  by case: no; split=> //; lia.
Qed.

Lemma init_succeeds_iff_witness :
  (2 <> 0 /\ (@None Mapper = None \/ 7 < 2 ^ 53)) /\
  [/\ (exists cd, Rscoder.__init__ 7 6 2 None = Ok cd) <->
        [/\ prime (Z.to_nat 7), 0 < 2 < 6, 6 < 7 &
            @None Mapper = None -> 7 <= 59],
      forall cd, Rscoder.__init__ 7 6 2 None = Ok cd ->
        [/\ b cd = 7, Rscoder.n cd = 6, Rscoder.k cd = 2 &
            mapper cd = default_mapper] &
      ~ [/\ prime (Z.to_nat 7), 0 < 2 < 6, 6 < 7 &
            @None Mapper = None -> 7 <= 59] ->
        Rscoder.__init__ 7 6 2 None = Raise ValueError].
Proof.
have H : 2 <> 0 by lia.
have H' : @None Mapper = None \/ 7 < 2 ^ 53 by left.
split; first by split; [exact: H | exact: H'].
exact: (@init_succeeds_iff 7 6 2 None H H').
Defined.

End ConstructionDecided.

(* ===================================================================== *)
(** ** The invariant of the Berlekamp-Massey loop *)
(* ===================================================================== *)

Section BerlekampMassey.

Local Open Scope Z_scope.

(** C10.  For a constructed codec and the syndrome polynomial [sz] that
    [_syndromes] returns for any polynomial [r], the loop of
    [_berlekamp_massey] runs to its end; its lists [sigma] and [omega] then
    hold [n - k + 1] polynomials each, with
    [(1 + sz) * sigma[l] = omega[l]] modulo [z^(l+1)] for every
    [l = 0 .. n-k]; the pair returned is the last of each, congruent modulo
    [z^(n-k+1)]. *)
Theorem berlekamp_massey_invariant (q n k : Z) (mp : option Mapper) cd
    (r sz : seq Z) :
  Rscoder.__init__ q n k mp = Ok cd -> _syndromes cd r = Ok sz ->
  let d := Z.to_nat (n - k) in
  let one_s := padd q (constant 1) sz in
  exists st : bm_lists,
    [/\ bm_loop cd sz = Ok st,
        size (sigma st) = d.+1 /\ size (omega st) = d.+1,
        forall l, (l <= d)%nat ->
          congruent l.+1 (pmul q one_s (nth [::] (sigma st) l))
                    (nth [::] (omega st) l) &
        exists sg om,
          [/\ _berlekamp_massey cd sz = Ok (sg, om),
              sg = nth [::] (sigma st) d, om = nth [::] (omega st) d &
              congruent d.+1 (pmul q one_s sg) om]].
Proof.
move=> /init_coder[p [alpha [mp' [[pp pq qE ra fg] [kn nq cdE]]]]] sy d one_s.
have bE : b cd = Z.of_nat p by rewrite cdE.
have [wS S0] : wf_poly (Z.of_nat p) sz /\ get_coefficient sz 0 = 0.
  by move: sy; rewrite cdE; apply: syndromes_wf.
have [st e ok] := bm_loop_ok pp pq bE S0.
have dE : Z.to_nat (Rscoder.n cd - Rscoder.k cd) = d by rewrite cdE.
move: (ok); rewrite /bm_state_ok bE dE -qE -/one_s.
move=> [[s1 s2 _ _ _] [_ [c1 _ _ _]]].
exists st; split=> //.
exists (nth [::] (sigma st) d), (nth [::] (omega st) d); split=> //.
  by rewrite (berlekamp_massey_ok pp pq bE S0 e) dE.
exact: c1.
Qed.

Lemma berlekamp_massey_invariant_witness :
  let cd := coder default_mapper 3 7 6 2 in
  let r := [:: 2; 0; 4; 3; 0] in
  let sz := [:: 3; 5; 4; 0] in
  (Rscoder.__init__ 7 6 2 None = Ok cd /\ _syndromes cd r = Ok sz) /\
  let d := Z.to_nat (6 - 2) in
  let one_s := padd 7 (constant 1) sz in
  exists st : bm_lists,
    [/\ bm_loop cd sz = Ok st,
        size (sigma st) = d.+1 /\ size (omega st) = d.+1,
        forall l, (l <= d)%nat ->
          congruent l.+1 (pmul 7 one_s (nth [::] (sigma st) l))
                    (nth [::] (omega st) l) &
        exists sg om,
          [/\ _berlekamp_massey cd sz = Ok (sg, om),
              sg = nth [::] (sigma st) d, om = nth [::] (omega st) d &
              congruent d.+1 (pmul 7 one_s sg) om]].
Proof.
move=> cd r sz.
have H : Rscoder.__init__ 7 6 2 None = Ok cd /\ _syndromes cd r = Ok sz.
  by split; vm_compute.
split; first exact: H.
case: H => h1 h2; exact: (berlekamp_massey_invariant h1 h2).
Defined.

End BerlekampMassey.

(* ===================================================================== *)
(** ** pfint.py: the laws of the field operators *)
(* ===================================================================== *)

Section FieldLaws.

Import GRing.Theory.
Local Open Scope Z_scope.

(** A prime modulus, as a natural number. *)
Lemma prime_nat (p : Z) :
  prime (Z.to_nat p) -> exists2 P : nat, prime P & p = Z.of_nat P.
Proof.
by move=> pr; exists (Z.to_nat p) => //; have /ltP := prime_gt1 pr; lia.
Qed.

Lemma residue_bounds (p a : Z) : residue p a <-> 0 <= a < p.
Proof.
split=> [/andP[/Z.leb_le ? /Z.ltb_lt ?] //|[? ?]].
by apply/andP; split; [apply/Z.leb_le | apply/Z.ltb_lt].
Qed.

Lemma mul_PF (p a b : Z) :
  is_prime p = Ok true ->
  __mul__ (mkPF p a) (PyPF (mkPF p b)) = Ok (PyPF (mkPF p ((a * b) mod p))).
Proof. by move=> pp; rewrite /__mul__ /coerce /= eqxx /= PFint_new_mod. Qed.

Lemma pow3_inverse (p a : Z) :
  prime (Z.to_nat p) -> is_prime p = Ok true -> 0 < a < p ->
  0 < pow3 a (p - 2) p < p /\ (a * pow3 a (p - 2) p) mod p = 1.
Proof.
move=> pr pp ap; have [P pP pE] := prime_nat pr; rewrite pE in ap pp *.
have ra : residue (Z.of_nat P) a by apply/residue_bounds; lia.
have a0 : toF P a != 0%R by rewrite (toF_eq0 pP) //; apply/eqP; lia.
have r1 := residue_1 pp.
have e : (a * pow3 a (Z.of_nat P - 2) (Z.of_nat P)) mod Z.of_nat P = 1.
  apply: (residue_inj pP) => //; first exact: residue_mod.
  rewrite (toF_mod pP) (toFM pP) -/(finv (Z.of_nat P) a) (toF_finv pP) //.
  by rewrite divff // (toF1 pP).
split=> //; have /residue_bounds[] := residue_mod pP (a ^ (Z.of_nat P - 2)).
rewrite -/(pow3 _ _ _) => lo hi; split=> //.
suff : pow3 a (Z.of_nat P - 2) (Z.of_nat P) <> 0 by lia.
by move=> z; move: e; rewrite z Z.mul_0_r Z.mod_0_l; lia.
Qed.

(** The inverse of a nonzero element is its power [p - 2]; it is a
    nonzero element, its product with the element is one, and it is the
    only element with that product. *)
Theorem inverse_times (p a : Z) :
  prime (Z.to_nat p) -> is_prime p = Ok true -> 0 < a < p ->
  let b := pow3 a (p - 2) p in
  [/\ inverse (mkPF p a) = Ok (PyPF (mkPF p b)), 0 < b < p,
      __mul__ (mkPF p a) (PyPF (mkPF p b)) = Ok (PyPF (mkPF p 1)) &
      forall c, 0 <= c < p ->
        __mul__ (mkPF p a) (PyPF (mkPF p c)) = Ok (PyPF (mkPF p 1)) ->
        c = b].
Proof.
move=> pr pp ap b; have [bb ab] := pow3_inverse pr pp ap.
split=> //; first exact: inverse_nonzero.
  by rewrite mul_PF // ab.
move=> c cp; rewrite mul_PF // => -[ac].
have p2 := is_prime_ge2 pp.
have -> : c = (c * ((a * b) mod p)) mod p by rewrite ab Z.mul_1_r Z.mod_small.
have pn0 : p <> 0 by lia.
rewrite (Z.mul_mod_idemp_r _ _ _ pn0).
have -> : c * (a * b) = (a * c) * b by lia.
rewrite -(Z.mul_mod_idemp_l _ _ _ pn0) ac Z.mul_1_l Z.mod_small //.
by rewrite /b; lia.
Qed.

Lemma inverse_times_witness :
  (prime (Z.to_nat 59) /\ is_prime 59 = Ok true /\ 0 < 9 < 59) /\
  inverse (mkPF 59 9) = Ok (PyPF (mkPF 59 46)) /\
  __mul__ (mkPF 59 9) (PyPF (mkPF 59 46)) = Ok (PyPF (mkPF 59 1)).
Proof.
have H : prime (Z.to_nat 59) /\ is_prime 59 = Ok true /\ 0 < 9 < 59
  by do 2![split; first by vm_compute]; lia.
split; first exact: H.
by case: H => h0 [h1 h2]; case: (inverse_times h0 h1 h2) => i _ m _; split.
Defined.


Lemma pow3_nonzero (p a e : Z) :
  prime (Z.to_nat p) -> is_prime p = Ok true -> 0 < a < p -> 0 <= e -> 0 < pow3 a e p < p.
Proof.
move=> pr pp ap e0; have [P pP pE] := prime_nat pr; rewrite pE in ap pp *.
have ra : residue (Z.of_nat P) a by apply/residue_bounds; lia.
have a0 : toF P a != 0%R by rewrite (toF_eq0 pP) //; apply/eqP; lia.
have /residue_bounds[lo hi] := residue_mod pP (a ^ e).
rewrite /pow3; split=> //.
suff : a ^ e mod Z.of_nat P <> 0 by lia.
move=> z; have := toF_mod pP (a ^ e); rewrite z (toF0 pP).
have -> : e = Z.of_nat (Z.to_nat e) by lia.
by rewrite (toF_exp pP) => /esym/eqP; rewrite expf_eq0 (negbTE a0) andbF.
Qed.

(** Fermat's little theorem, as [test_fermats_theorem] tries it for 59:
    a nonzero element to the power [p - 1] is one. *)
Theorem pow_fermat (p a : Z) :
  prime (Z.to_nat p) -> is_prime p = Ok true -> 0 < a < p ->
  __pow__ (mkPF p a) (PyInt (p - 1)) = Ok (PyPF (mkPF p 1)).
Proof.
move=> pr pp ap; have p2 := is_prime_ge2 pp.
rewrite /__pow__ /=; have -> : (p - 1 <? 0) = false by lia.
rewrite PFint_new_mod //; congr (Ok (PyPF (mkPF _ _))).
have [P pP pE] := prime_nat pr; rewrite pE in ap p2 pp *.
have ra : residue (Z.of_nat P) a by apply/residue_bounds; lia.
have a0 : toF P a != 0%R by rewrite (toF_eq0 pP) //; apply/eqP; lia.
apply: (residue_inj pP); [exact: residue_mod | exact: residue_1 pp |].
have -> : Z.of_nat P - 1 = Z.of_nat P.-1 by lia.
by rewrite (toF_mod pP) (toF_exp pP) (expf_pred pP) // (toF1 pP).
Qed.

Lemma pow_fermat_witness :
  (prime (Z.to_nat 59) /\ is_prime 59 = Ok true /\ 0 < 7 < 59) /\
  __pow__ (mkPF 59 7) (PyInt (59 - 1)) = Ok (PyPF (mkPF 59 1)).
Proof.
have H : prime (Z.to_nat 59) /\ is_prime 59 = Ok true /\ 0 < 7 < 59
  by do 2![split; first by vm_compute]; lia.
split; first exact: H.
case: H => h0 [h1 h2]; exact: (pow_fermat h0 h1 h2).
Defined.

(** A negative power is the inverse of the positive one. *)
Theorem pow_negative (p a e : Z) :
  prime (Z.to_nat p) -> is_prime p = Ok true -> 0 < a < p -> 0 < e ->
  exists x y,
    [/\ __pow__ (mkPF p a) (PyInt e) = Ok (PyPF (mkPF p x)),
        __pow__ (mkPF p a) (PyInt (- e)) = Ok (PyPF (mkPF p y)),
        inverse (mkPF p x) = Ok (PyPF (mkPF p y)) &
        __mul__ (mkPF p x) (PyPF (mkPF p y)) = Ok (PyPF (mkPF p 1))].
Proof.
move=> pr pp ap e0; have p2 := is_prime_ge2 pp.
have xb : 0 < pow3 a e p < p by apply: (pow3_nonzero pr pp) => //; lia.
have [i _ m _] := inverse_times pr pp xb.
exists (pow3 a e p), (pow3 (pow3 a e p) (p - 2) p); split=> //.
  by rewrite /__pow__ /=; have -> : (e <? 0) = false; [lia | rewrite PFint_new_mod].
rewrite /__pow__ /=; have -> : (- e <? 0) = true by lia.
by rewrite Z.opp_involutive PFint_new_mod.
Qed.

Lemma pow_negative_witness :
  (prime (Z.to_nat 59) /\ is_prime 59 = Ok true /\ 0 < 9 < 59 /\ 0 < 3) /\
  exists x y,
    [/\ __pow__ (mkPF 59 9) (PyInt 3) = Ok (PyPF (mkPF 59 x)),
        __pow__ (mkPF 59 9) (PyInt (- 3)) = Ok (PyPF (mkPF 59 y)),
        inverse (mkPF 59 x) = Ok (PyPF (mkPF 59 y)) &
        __mul__ (mkPF 59 x) (PyPF (mkPF 59 y)) = Ok (PyPF (mkPF 59 1))].
Proof.
have H : prime (Z.to_nat 59) /\ is_prime 59 = Ok true /\ 0 < 9 < 59 /\ 0 < 3
  by do 2![split; first by vm_compute]; lia.
split; first exact: H.
case: H => h0 [h1 [h2 h3]]; exact: (pow_negative h0 h1 h2 h3).
Defined.

(** Division undoes multiplication.  For [b] nonzero, [a / b] and the
    reflected [b.__rdiv__(a)] are the same element [c], and [c * b] is
    [a]. *)
Theorem div_mul_cancel (p a b : Z) :
  prime (Z.to_nat p) -> is_prime p = Ok true -> 0 <= a < p -> 0 < b < p ->
  let c := (a * pow3 b (p - 2) p) mod p in
  [/\ __div__ (mkPF p a) (PyPF (mkPF p b)) = Ok (PyPF (mkPF p c)),
      __rdiv__ (mkPF p b) (PyPF (mkPF p a)) = Ok (PyPF (mkPF p c)) &
      __mul__ (mkPF p c) (PyPF (mkPF p b)) = Ok (PyPF (mkPF p a))].
Proof.
move=> pr pp ap bp c; have p2 := is_prime_ge2 pp.
have [bb bi] := pow3_inverse pr pp bp; have pn0 : p <> 0 by lia.
split.
- by rewrite /__div__ /coerce /= eqxx /= inverse_nonzero //= mul_PF.
- rewrite /__rdiv__ /coerce /= eqxx /= inverse_nonzero //= mul_PF //.
  by rewrite Z.mul_comm.
rewrite mul_PF // /c (Z.mul_mod_idemp_l _ _ _ pn0).
have -> : a * pow3 b (p - 2) p * b = a * (b * pow3 b (p - 2) p) by lia.
by rewrite -(Z.mul_mod_idemp_r _ _ _ pn0) bi Z.mul_1_r Z.mod_small.
Qed.

Lemma div_mul_cancel_witness :
  (prime (Z.to_nat 59) /\ is_prime 59 = Ok true /\ 0 <= 9 < 59 /\ 0 < 3 < 59) /\
  __div__ (mkPF 59 9) (PyPF (mkPF 59 3)) = Ok (PyPF (mkPF 59 3)) /\
  __rdiv__ (mkPF 59 3) (PyPF (mkPF 59 9)) = Ok (PyPF (mkPF 59 3)).
Proof.
have H : prime (Z.to_nat 59) /\ is_prime 59 = Ok true /\ 0 <= 9 < 59 /\ 0 < 3 < 59
  by do 2![split; first by vm_compute]; lia.
split; first exact: H.
by case: H => h0 [h1 [h2 h3]]; case: (div_mul_cancel h0 h1 h2 h3) => d r _; split.
Defined.

(** Subtraction, its reflected form and negation agree, and addition
    undoes subtraction. *)
Theorem sub_add_cancel (p a b : Z) :
  is_prime p = Ok true -> 0 <= a < p -> 0 <= b < p ->
  let c := (a - b) mod p in
  let nb := (p - b) mod p in
  [/\ __sub__ (mkPF p a) (PyPF (mkPF p b)) = Ok (PyPF (mkPF p c)),
      __rsub__ (mkPF p b) (PyPF (mkPF p a)) = Ok (PyPF (mkPF p c)),
      __add__ (mkPF p c) (PyPF (mkPF p b)) = Ok (PyPF (mkPF p a)),
      __neg__ (mkPF p b) = Ok (PyPF (mkPF p nb)) &
      __add__ (mkPF p a) (PyPF (mkPF p nb)) = Ok (PyPF (mkPF p c))].
Proof.
move=> pp ap bp c nb; have p2 := is_prime_ge2 pp; have pn0 : p <> 0 by lia.
split.
- by rewrite /__sub__ /coerce /= eqxx /= PFint_new_mod.
- by rewrite /__rsub__ /coerce /= eqxx /= PFint_new_mod.
- rewrite /__add__ /coerce /= eqxx /= PFint_new_mod // /c.
  rewrite (Z.add_mod_idemp_l _ _ _ pn0).
  by have -> : a - b + b = a; [lia | rewrite Z.mod_small].
- by rewrite /__neg__ /= PFint_new_mod.
rewrite /__add__ /coerce /= eqxx /= PFint_new_mod // /nb /c.
rewrite (Z.add_mod_idemp_r _ _ _ pn0).
have -> : a + (p - b) = a - b + 1 * p by lia.
by rewrite Z.mod_add.
Qed.

Lemma sub_add_cancel_witness :
  (is_prime 59 = Ok true /\ 0 <= 3 < 59 /\ 0 <= 9 < 59) /\
  __sub__ (mkPF 59 3) (PyPF (mkPF 59 9)) = Ok (PyPF (mkPF 59 53)) /\
  __add__ (mkPF 59 53) (PyPF (mkPF 59 9)) = Ok (PyPF (mkPF 59 3)).
Proof.
have H : is_prime 59 = Ok true /\ 0 <= 3 < 59 /\ 0 <= 9 < 59 by split; [vm_compute | lia].
split; first exact: H.
by case: H => h1 [h2 h3]; case: (sub_add_cancel h1 h2 h3) => s _ d _ _; split.
Defined.

End FieldLaws.

(* ===================================================================== *)
(** ** mapper.py: building a mapper, and what it reads and writes *)
(* ===================================================================== *)

Section MapperLaws.

Local Open Scope Z_scope.

Lemma dict_get_uniq {K : eqType} {V : eqType} (d : seq (K * V)) k v :
  uniq [seq kv.1 | kv <- d] -> (k, v) \in d -> dict_get d k = Some v.
Proof.
elim: d => [|[k' v'] d IH] //= /andP[nk un]; rewrite inE => /orP[/eqP[-> ->]|kd].
  by rewrite eqxx.
case: eqP => [e|_]; last exact: IH.
by move: nk; rewrite e => /negP[]; apply/mapP; exists (k, v).
Qed.

Lemma dict_get_cat_notin {K : eqType} {V} (d1 d2 : seq (K * V)) k :
  k \notin [seq kv.1 | kv <- d1] -> dict_get (d1 ++ d2) k = dict_get d2 k.
Proof.
elim: d1 => [|[k' v'] d1 IH] //=; rewrite inE negb_or => /andP[ne nk].
by rewrite eq_sym (negbTE ne); apply: IH.
Qed.

(** The tables after the first loop of [Mapper.__init__]. *)
Lemma fill_tables (l : seq (Z * ascii)) (m0 : Mapper) :
  let m := foldl (fun m ic => let: (i, c) := ic in
                    mkMapper (dict_set (table_c2n m) c i)
                             (dict_set (table_n2c m) i c)) m0 l in
  table_c2n m = rev [seq (ic.2, ic.1) | ic <- l] ++ table_c2n m0 /\
  table_n2c m = rev l ++ table_n2c m0.
Proof.
elim: l m0 => [|[i c] l IH] m0 //=.
have [-> ->] := IH (mkMapper (dict_set (table_c2n m0) c i)
                             (dict_set (table_n2c m0) i c)).
by rewrite !rev_cons -!cats1 -!catA.
Qed.

Lemma equivs_Raise (equivs : seq (ascii * ascii)) e :
  foldl (fun t tup =>
           bind t (fun t : seq (ascii * Z) =>
                     match dict_get t tup.2 with
                     | Some v => Ok (dict_set t tup.1 v)
                     | None => Raise KeyError
                     end)) (Raise e) equivs = Raise e.
Proof. by elim: equivs. Qed.

(** The second loop only adds the keys of [equivs]. *)
Lemma equivs_other_keys (equivs : seq (ascii * ascii))
    (t0 t : seq (ascii * Z)) k :
  foldl (fun t tup =>
           bind t (fun t => match dict_get t tup.2 with
                            | Some v => Ok (dict_set t tup.1 v)
                            | None => Raise KeyError
                            end)) (Ok t0) equivs = Ok t ->
  k \notin [seq tup.1 | tup <- equivs] ->
  dict_get t k = dict_get t0 k.
Proof.
elim: equivs t0 => [|tup equivs IH] t0 /=; first by case=> ->.
rewrite inE negb_or; case: (dict_get t0 tup.2) => [v|] /=; last first.
  by rewrite equivs_Raise.
by move=> /IH h /andP[ne /h ->] /=; rewrite eq_sym (negbTE ne).
Qed.

Lemma equivs_Ok (alphabet : seq ascii) (equivs : seq (ascii * ascii))
    (t0 : seq (ascii * Z)) :
  (forall c, c \in alphabet -> dict_get t0 c <> None) ->
  all (fun tup => (tup.1 \notin alphabet) && (tup.2 \in alphabet)) equivs ->
  exists t,
    foldl (fun t tup =>
           bind t (fun t => match dict_get t tup.2 with
                            | Some v => Ok (dict_set t tup.1 v)
                            | None => Raise KeyError
                            end)) (Ok t0) equivs = Ok t.
Proof.
elim: equivs t0 => [|tup equivs IH] t0 h0 /=; first by exists t0.
move=> /andP[/andP[n1 i2] rest].
case e: (dict_get t0 tup.2) (h0 _ i2) => [v|] // _; apply: IH => // c ca /=.
by case: eqP => // _; apply: h0.
Qed.


Lemma equivs_keys (equivs : seq (ascii * ascii)) (t0 t : seq (ascii * Z)) :
  foldl (fun t tup =>
           bind t (fun t => match dict_get t tup.2 with
                            | Some v => Ok (dict_set t tup.1 v)
                            | None => Raise KeyError
                            end)) (Ok t0) equivs = Ok t ->
  uniq [seq tup.1 | tup <- equivs] ->
  (forall tup, tup \in equivs -> tup.2 \notin [seq tup.1 | tup <- equivs]) ->
  forall tup, tup \in equivs -> dict_get t tup.1 = dict_get t0 tup.2.
Proof.
elim: equivs t0 => [|x equivs IH] t0 //=.
case e: (dict_get t0 x.2) => [v|] /=; last by rewrite equivs_Raise.
move=> ft /andP[nx un] out tup; rewrite inE => /orP[/eqP->|tin].
  by rewrite (equivs_other_keys ft nx) /= eqxx.
have tin2 : tup \in x :: equivs by rewrite inE tin orbT.
have := out _ tin2; rewrite inE negb_or => /andP[ne _].
have out' tup' : tup' \in equivs -> tup'.2 \notin [seq t.1 | t <- equivs].
  move=> tin'; have tin3 : tup' \in x :: equivs by rewrite inE tin' orbT.
  by have := out _ tin3; rewrite inE negb_or => /andP[].
by rewrite (IH _ ft un out' _ tin) /= eq_sym (negbTE ne).
Qed.

(** [Mapper(alphabet, equivs)] succeeds on an alphabet without
    repetition whose equivalents are characters outside the alphabet,
    standing for characters of it.  The mapper then serves every field of
    at most as many elements as the alphabet has characters: it writes [i]
    as the [i]-th character and reads that character as [i]; and it reads
    every equivalent as the character it stands for. *)
Theorem mapper_init_ok (alphabet : seq ascii) (equivs : seq (ascii * ascii)) :
  uniq alphabet ->
  all (fun tup => (tup.1 \notin alphabet) && (tup.2 \in alphabet)) equivs ->
  exists mp,
    [/\ Mapper.__init__ alphabet equivs = Ok mp,
        forall q, q <= Z.of_nat (size alphabet) -> mapper_ok mp q,
        forall i, (i < size alphabet)%nat ->
          chr mp (Z.of_nat i) = nth "000"%char alphabet i /\
          ord mp (nth "000"%char alphabet i) = Z.of_nat i &
        uniq [seq tup.1 | tup <- equivs] ->
        forall tup, tup \in equivs -> ord mp tup.1 = ord mp tup.2].
Proof.
move=> ua eqs; rewrite /Mapper.__init__.
set l := zip _ alphabet.
have [] := fill_tables l (mkMapper [::] [::]); rewrite /= !cats0.
set fill := foldl _ _ _ => c2nE n2cE.
have rE : range (Z.of_nat (size alphabet)) =
          [seq Z.of_nat i | i <- iota 0 (size alphabet)].
  by rewrite /range range3_1 Z.sub_0_r Nat2Z.id; apply: eq_map => i.
have szr : size (range (Z.of_nat (size alphabet))) = size alphabet.
  by rewrite rE size_map size_iota.
have lnth i : (i < size alphabet)%nat ->
    (Z.of_nat i, nth "000"%char alphabet i) \in l.
  move=> lt; have -> : (Z.of_nat i, nth "000"%char alphabet i) =
                       nth (0, "000"%char) l i.
    rewrite nth_zip // rE (nth_map 0%nat) ?size_iota // nth_iota //.
  by apply: mem_nth; rewrite size_zip szr minnn.
have k1 : [seq kv.1 | kv <- l] = range (Z.of_nat (size alphabet)).
  by rewrite -[RHS](@unzip1_zip _ _ _ alphabet) // szr.
have k2 : [seq kv.2 | kv <- l] = alphabet.
  by rewrite -[RHS](@unzip2_zip _ _ (range (Z.of_nat (size alphabet)))) // szr.
have n2c i : (i < size alphabet)%nat ->
    dict_get (table_n2c fill) (Z.of_nat i) = Some (nth "000"%char alphabet i).
  move=> lt; apply: dict_get_uniq; last by rewrite n2cE mem_rev lnth.
  rewrite n2cE map_rev rev_uniq k1 rE.
  by rewrite map_inj_uniq ?iota_uniq //; apply: Nat2Z.inj.
have c2n i : (i < size alphabet)%nat ->
    dict_get (table_c2n fill) (nth "000"%char alphabet i) = Some (Z.of_nat i).
  move=> lt; apply: dict_get_uniq.
    by rewrite c2nE map_rev rev_uniq -map_comp (_ : map _ l = alphabet).
  rewrite c2nE mem_rev; apply/mapP.
  by exists (Z.of_nat i, nth "000"%char alphabet i); rewrite ?lnth.
have c2n' c : c \in alphabet -> dict_get (table_c2n fill) c <> None.
  by move=> ca; rewrite -(nth_index "000"%char ca) c2n // index_mem.
have [t ft] := equivs_Ok c2n' eqs.
have nk c : c \in alphabet -> c \notin [seq tup.1 | tup <- equivs].
  move=> ca; apply/negP => /mapP[tup tin e].
  by have /andP[] := allP eqs _ tin; rewrite -e ca.
exists (mkMapper t (table_n2c fill)); split.
- by rewrite ft.
- move=> q qn; apply/allP => z /mem_xrange[z0 zq] /=.
  have lt : (Z.to_nat z < size alphabet)%nat by apply/ltP; lia.
  have zE : z = Z.of_nat (Z.to_nat z) by lia.
  rewrite zE n2c // (equivs_other_keys ft) ?c2n //.
  by apply: nk; apply: mem_nth.
- move=> i lt; rewrite /chr /ord /= n2c // (equivs_other_keys ft) ?c2n //.
  by apply: nk; apply: mem_nth.
move=> uk tup tin; rewrite /ord /=.
have /andP[_ t2] := allP eqs _ tin.
rewrite (equivs_keys ft uk) // ?(equivs_other_keys ft (nk _ t2)) //.
by move=> tup' /(allP eqs)/andP[_ /nk].
Qed.

Lemma mapper_init_ok_witness :
  (uniq mapper_default_alphabet /\
   all (fun tup => (tup.1 \notin mapper_default_alphabet) &&
                   (tup.2 \in mapper_default_alphabet))
       mapper_default_equivs) /\
  exists mp,
    Mapper.__init__ mapper_default_alphabet mapper_default_equivs = Ok mp /\
    mapper_ok mp 59.
Proof.
have H : uniq mapper_default_alphabet /\
   all (fun tup => (tup.1 \notin mapper_default_alphabet) &&
                   (tup.2 \in mapper_default_alphabet))
       mapper_default_equivs by split; vm_compute.
split; first exact: H.
case: H => h1 h2; have [mp [e ok _ _]] := mapper_init_ok h1 h2.
by exists mp; split=> //; apply: ok; vm_compute.
Defined.


(** What the mapper writes for two or more field values it reads back
    as the same values. *)
Theorem mapper_roundtrip (mp : Mapper) (q : Z) (c : seq Z) :
  mapper_ok mp q -> all (residue q) c -> (1 < size c)%nat ->
  exists s,
    [/\ Mapper.encode mp (DList [seq DInt z | z <- c]) = Ok (DStr s),
        size s = size c &
        Mapper.decode mp (DStr s) = Ok (DList [seq DInt z | z <- c])].
Proof.
move=> ok rc c2; exists [seq chr mp z | z <- c]; split.
- by apply: (encode_list ok) => //; case: (c) c2.
- by rewrite size_map.
rewrite decode_str; case: c rc c2 => [|x [|y c]] // rc _.
rewrite -map_comp; congr (Ok (DList _)); apply/eq_in_map => z zc /=.
by rewrite (ord_chr ok) //; apply: (allP rc).
Qed.

Lemma mapper_roundtrip_witness :
  [/\ mapper_ok default_mapper 59, all (residue 59) [:: 8; 1; 58] &
      (1 < size [:: 8; 1; 58])%nat] /\
  exists s,
    [/\ Mapper.encode default_mapper (DList [seq DInt z | z <- [:: 8; 1; 58]])
          = Ok (DStr s), size s = 3%nat &
        Mapper.decode default_mapper (DStr s)
          = Ok (DList [seq DInt z | z <- [:: 8; 1; 58]])].
Proof.
have H : [/\ mapper_ok default_mapper 59, all (residue 59) [:: 8; 1; 58] &
             (1 < size [:: 8; 1; 58])%nat] by split; vm_compute.
split; first exact: H.
case: H => h1 h2 h3; exact: (mapper_roundtrip h1 h2 h3).
Defined.

Lemma lstrip_nseq {A : eqType} (k : nat) (c : A) (s : seq A) :
  lstrip (nseq k c ++ s) c = lstrip s c.
Proof. by elim: k => [|k IH] //=; rewrite eqxx. Qed.

(** Padding only adds zero symbols at the front, which stripping takes
    away again. *)
Theorem strip_pad (mp : Mapper) (s s' : seq ascii) (w : Z) :
  pad mp s w = Ok s' ->
  [/\ size s' = maxn (size s) (Z.to_nat w),
      drop (size s' - size s) s' = s,
      all (fun c => c == chr mp 0) (take (size s' - size s) s') &
      strip mp s' = strip mp s].
Proof.
rewrite /pad /strip /chr; case: (dict_get _ 0) => [c|] //= -[<-].
rewrite /rjust size_cat size_nseq addnK drop_size_cat ?size_nseq //.
rewrite take_size_cat ?size_nseq // lstrip_nseq; split=> //.
  by rewrite maxnE addnC.
by apply/allP => x /nseqP[-> _].
Qed.

Lemma strip_pad_witness :
  pad default_mapper (str "1a") 4 = Ok (str "001a") /\
  strip default_mapper (str "001a") = strip default_mapper (str "1a").
Proof.
have H : pad default_mapper (str "1a") 4 = Ok (str "001a") by vm_compute.
split; first exact: H.
by case: (strip_pad H).
Defined.

End MapperLaws.

(* ===================================================================== *)
(** ** rscoder.py and pfint.py: further properties of the code *)
(* ===================================================================== *)

Section CodecLaws.

Import GRing.Theory.
Local Open Scope Z_scope.

(** Below [2^53], where every [int] is a double, [is_prime] answers
    [True] exactly on the prime numbers: the integers above 1 that no
    number strictly between 1 and themselves divides. *)
Theorem is_prime_decides (n : Z) :
  n < 2 ^ 53 ->
  is_prime n = Ok (prime (Z.to_nat n)) /\
  (is_prime n = Ok true <->
   1 < n /\ forall d, 1 < d < n -> n mod d <> 0).
Proof.
move=> n53; split; first exact: is_primeP.
rewrite is_primeP //; split.
  move=> [/primeP[/ltP gt1 dv]]; have n1 : 1 < n by lia.
  split=> // d db md.
  have d0 : (0 < Z.to_nat d)%nat by apply/ltP; lia.
  have : (Z.to_nat d %| Z.to_nat n)%nat.
    by rewrite (dvdn_Zmod _ d0) !Z2Nat.id; try lia; apply/Z.eqb_eq.
  by move=> /dv /orP[/eqP e|/eqP e]; lia.
move=> [n1 nd]; congr Ok; apply/primeP; split; first by apply/ltP; lia.
move=> d dv; have d0 : (0 < d)%nat.
  by case: d dv => //; rewrite dvd0n => /eqP e; lia.
have /leP le : (d <= Z.to_nat n)%nat by apply: dvdn_leq => //; apply/ltP; lia.
apply/orP; case: (d =P 1%nat) => [|/eqP d1]; first by left.
right; apply/eqP; move: dv; rewrite (dvdn_Zmod _ d0) => /Z.eqb_eq md.
have [//|lt] : d = Z.to_nat n \/ 1 < Z.of_nat d < n.
  by move/ltP: d0 => d0; move/eqP: d1 => d1; lia.
by case: (nd _ lt); rewrite -md Z2Nat.id; lia.
Qed.

Lemma is_prime_decides_witness :
  57 < 2 ^ 53 /\ is_prime 57 = Ok false /\ ~ (forall d, 1 < d < 57 -> 57 mod d <> 0).
Proof.
have H : 57 < 2 ^ 53 by [].
split; first exact: H.
have [e [_ complete]] := is_prime_decides H.
split; first exact: e.
by move=> nd; have := complete (conj (erefl : 1 < 57) nd); rewrite e.
Defined.

(** From [2^1024 - 2^970] on, where the nearest double is no longer
    finite, [is_prime] raises [OverflowError] on the odd numbers, which it
    passes to [math.sqrt], and answers [False] on the even ones. *)
Theorem is_prime_large (n : Z) :
  2 ^ 1024 - 2 ^ 970 <= n ->
  is_prime n = if Z.odd n then Raise OverflowError else Ok false.
Proof.
move=> ge; case o : (Z.odd n); first exact: is_prime_overflow.
have n2 : 2 < n by apply: Z.lt_le_trans ge.
move: o; rewrite -Z.negb_even => /negbFE/Z.even_spec[m e]; rewrite /is_prime.
have -> : n mod 2 = 0 by rewrite e Z.mul_comm Z_mod_mult.
by have -> : (n >? 2) = true; [apply/Z.gtb_lt | rewrite orbT].
Qed.

Lemma is_prime_large_witness :
  2 ^ 1024 - 2 ^ 970 <= 2 ^ 1024 + 1 /\
  is_prime (2 ^ 1024 + 1) = Raise OverflowError.
Proof.
have H : 2 ^ 1024 - 2 ^ 970 <= 2 ^ 1024 + 1 by [].
split; first exact: H.
exact: (is_prime_large H).
Defined.

(** For every prime [findgen] returns a number of [[0, p)], the first
    one that passes its test; for a prime other than 3 it is not zero, and
    every nonzero element of the field is one of its powers
    [alpha^0 .. alpha^(p-2)]. *)
Theorem findgen_primitive (q : Z) :
  prime (Z.to_nat q) ->
  exists alpha,
    [/\ findgen q = Some alpha, 0 <= alpha < q,
        forall g, 0 <= g < alpha ->
          Z.of_nat (size (undup [seq pow3 g i q | i <- range q])) <> q - 1 &
        q <> 3 ->
        alpha <> 0 /\
        forall y, 0 < y < q -> exists2 i, 0 <= i < q - 1 & pow3 alpha i q = y].
Proof.
move=> pq; have [P pP qE] := prime_nat pq; rewrite qE.
have [alpha fg] := findgen_exists pP; exists alpha.
have ra := findgen_residue fg; have /residue_bounds ab := ra.
split=> //; first by move=> g gb; apply: (findgen_first fg gb).
move=> q3; have P3 : P != 3%nat by apply/eqP => e; apply: q3; rewrite e.
have a0 := findgen_nonzero pP fg P3.
split; first by move=> e; move: a0; rewrite e (toF0 pP) eqxx.
move=> y yb; have ry : residue (Z.of_nat P) y by apply/residue_bounds; lia.
have y0 : toF P y != 0%R by rewrite (toF_eq0 pP) //; apply/eqP; lia.
have [i ip e] := findgen_cover pP fg a0 y0.
exists (Z.of_nat i); first by move/ltP: ip; rewrite -subn1 -minusE; lia.
apply: (residue_inj pP) => //; first exact: residue_mod.
by rewrite /pow3 (toF_mod pP) (toF_exp pP).
Qed.

Lemma findgen_primitive_witness :
  prime (Z.to_nat 7) /\
  exists alpha,
    [/\ findgen 7 = Some alpha, 0 <= alpha < 7 &
        exists2 i, 0 <= i < 7 - 1 & pow3 alpha i 7 = 5].
Proof.
have H : prime (Z.to_nat 7) by vm_compute.
split; first exact: H.
have [alpha [fg ab _ cov]] := findgen_primitive H.
have [|_ c5] := cov; first by [].
by exists alpha; split=> //; apply: c5.
Defined.

(** A codec built without a mapper has a mapper that serves its
    field. *)
Theorem init_default_mapper_ok (q n k : Z) cd :
  Rscoder.__init__ q n k None = Ok cd -> mapper_ok (mapper cd) q.
Proof.
move=> /init_inv[_ _ _ /(_ erefl) q59 [alpha _ ->]] /=.
exact: mapper_ok_le q59 default_mapper_ok.
Qed.

Lemma init_default_mapper_ok_witness :
  let cd := coder default_mapper 3 7 6 2 in
  Rscoder.__init__ 7 6 2 None = Ok cd /\ mapper_ok (mapper cd) 7.
Proof.
move=> cd; have H : Rscoder.__init__ 7 6 2 None = Ok cd by vm_compute.
split; first exact: H.
exact: (init_default_mapper_ok H).
Defined.

(** The generator polynomial of a constructed codec is monic of degree
    [n - k], and vanishes at [alpha^1 .. alpha^(n-k)]. *)
Theorem generator_polynomial (q n k : Z) (mp : option Mapper) cd :
  Rscoder.__init__ q n k mp = Ok cd ->
  [/\ wf_poly q (g cd), Z.of_nat (size (g cd)) = n - k + 1,
      lead (g cd) = 1 &
      forall l, 1 <= l <= n - k ->
        evaluate q (g cd) (pow3 (generator cd) l q) = 0].
Proof.
move=> /init_coder[p [alpha [mp' [[pp pq qE ra fg] [kn nq ->]]]]].
rewrite -[generator _]/alpha {}qE in ra nq fg *; split.
- exact: wf_g.
- by rewrite (size_g pp pq) //; lia.
- exact: g_lead.
- by move=> l lb; apply: g_evaluate.
Qed.

Lemma generator_polynomial_witness :
  let cd := coder default_mapper 3 7 6 2 in
  Rscoder.__init__ 7 6 2 None = Ok cd /\
  Z.of_nat (size (g cd)) = 6 - 2 + 1 /\ lead (g cd) = 1.
Proof.
move=> cd; have H : Rscoder.__init__ 7 6 2 None = Ok cd by vm_compute.
split; first exact: H.
case: (generator_polynomial H) => _ sz ld _.
split; [exact: sz | exact: ld].
Defined.


(** Every codeword verifies, as [test_one] tries on one message: what
    [encode] returns, with [nostrip] set or, when at least two symbols are
    left, without, is a word that [verify] accepts. *)
Theorem codeword_verifies (q n k : Z) (mp : option Mapper) cd
    (m cw : seq ascii) (nostrip : bool) :
  Rscoder.__init__ q n k mp = Ok cd -> mapper_ok (mapper cd) q ->
  encode cd m false nostrip = Ok (AsStr cw) ->
  nostrip || (1 < size cw)%nat ->
  verify cd cw = Ok true.
Proof.
move=> /init_coder[p [alpha [mp' [[pp pq qE ra fg] [kn nq ->]]]]].
rewrite -[mapper _]/mp' {}qE in ra nq fg * => ok en.
have [k2 sm rm] := encode_inv pp pq ok en.
case: nostrip en => en c2.
  move: en; rewrite (encode_padded_str pp pq alpha ok kn k2 sm rm) => /Ok_AsStr_inj <-.
  apply: (verify_word pp pq alpha ok kn); last by apply/ltP; lia.
  by rewrite size_map size_rjust.
move: en c2; rewrite (encode_plain_str pp pq alpha ok kn k2 sm rm) => /Ok_AsStr_inj <-.
by rewrite orFb size_map => c2; apply: verify_chars.
Qed.

Lemma codeword_verifies_witness :
  let cd := coder default_mapper 3 7 6 2 in
  [/\ Rscoder.__init__ 7 6 2 None = Ok cd, mapper_ok (mapper cd) 7,
      encode cd (str "01") false false = Ok (AsStr (str "16324")) &
      false || (1 < size (str "16324"))%nat] /\
  verify cd (str "16324") = Ok true.
Proof.
move=> cd; have H : [/\ Rscoder.__init__ 7 6 2 None = Ok cd,
    mapper_ok (mapper cd) 7,
    encode cd (str "01") false false = Ok (AsStr (str "16324")) &
    false || (1 < size (str "16324"))%nat] by split; vm_compute.
split; first exact: H.
case: H => h1 h2 h3 h4; exact: (codeword_verifies h1 h2 h3 h4).
Defined.

(** The code is systematic.  The codeword of [n] symbols starts with
    the message, padded to [k] symbols, and ends with [n - k] parity
    symbols. *)
Theorem encode_systematic (q n k : Z) (mp : option Mapper) cd
    (m cw : seq ascii) :
  Rscoder.__init__ q n k mp = Ok cd -> mapper_ok (mapper cd) q ->
  all (symbol (mapper cd) q) m ->
  encode cd m false true = Ok (AsStr cw) ->
  exists parity,
    [/\ pad (mapper cd) m k = Ok (take (Z.to_nat k) cw),
        cw = take (Z.to_nat k) cw ++ parity,
        Z.of_nat (size parity) = n - k & Z.of_nat (size cw) = n].
Proof.
move=> /init_coder[p [alpha [mp' [[pp pq qE ra fg] [kn nq ->]]]]].
rewrite -[mapper _]/mp' {}qE in ra nq fg * => ok sym en.
have [k2 sm rm] := encode_inv pp pq ok en.
have q0 : 0 < Z.of_nat p by lia.
move: en; rewrite (encode_padded_str pp pq alpha ok kn k2 sm rm) => /Ok_AsStr_inj cwE.
set m' := rjust m k (chr mp' 0) in cwE.
have sm' : size m' = Z.to_nat k by rewrite size_rjust.
have sym' : all (symbol mp' (Z.of_nat p)) m'.
  rewrite /m' /rjust all_cat sym andbT; apply/allP => c /nseqP[-> _].
  by apply: (symbol_chr ok); apply/residue_bounds; lia.
have tk := @take_word p pp pq mp' alpha n k kn m' sm' sym'.
have sz : size cw = Z.to_nat n.
  have sz' : (size [seq ord mp' x | x <- m'] <= Z.to_nat k)%nat.
    by rewrite size_map sm'.
  by rewrite -cwE (@size_word p pp pq mp' alpha n k kn _ sz').
exists (drop (Z.to_nat k) cw); split.
- by rewrite (pad_Ok ok _ _ q0) -cwE tk.
- by rewrite cat_take_drop.
- by rewrite size_drop sz -minusE; lia.
- by rewrite sz; lia.
Qed.

Lemma encode_systematic_witness :
  let cd := coder default_mapper 3 7 6 2 in
  [/\ Rscoder.__init__ 7 6 2 None = Ok cd, mapper_ok (mapper cd) 7,
      all (symbol (mapper cd) 7) (str "2") &
      encode cd (str "2") false true = Ok (AsStr (str "025641"))] /\
  exists parity,
    [/\ pad (mapper cd) (str "2") 2 = Ok (take (Z.to_nat 2) (str "025641")),
        str "025641" = take (Z.to_nat 2) (str "025641") ++ parity,
        Z.of_nat (size parity) = 6 - 2 & Z.of_nat (size (str "025641")) = 6].
Proof.
move=> cd; have H : [/\ Rscoder.__init__ 7 6 2 None = Ok cd,
    mapper_ok (mapper cd) 7, all (symbol (mapper cd) 7) (str "2") &
    encode cd (str "2") false true = Ok (AsStr (str "025641"))].
  by split; vm_compute.
split; first exact: H.
case: H => h1 h2 h3 h4; exact: (encode_systematic h1 h2 h3 h4).
Defined.


(** A message of more than [k] symbols is refused with [ValueError]. *)
Theorem encode_too_long (q n k : Z) (mp : option Mapper) cd (m : seq ascii)
    (poly nostrip : bool) :
  Rscoder.__init__ q n k mp = Ok cd -> mapper_ok (mapper cd) q ->
  k < Z.of_nat (size m) ->
  encode cd m poly nostrip = Raise ValueError.
Proof.
move=> /init_coder[p [alpha [mp' [[pp pq qE ra fg] [kn nq ->]]]]].
rewrite -[mapper _]/mp' {}qE in ra nq fg * => ok lt.
by apply: encode_long => //; apply/ltP; lia.
Qed.

Lemma encode_too_long_witness :
  let cd := coder default_mapper 3 7 6 2 in
  [/\ Rscoder.__init__ 7 6 2 None = Ok cd, mapper_ok (mapper cd) 7 &
      2 < Z.of_nat (size (str "123"))] /\
  encode cd (str "123") false false = Raise ValueError.
Proof.
move=> cd; have H : [/\ Rscoder.__init__ 7 6 2 None = Ok cd,
    mapper_ok (mapper cd) 7 & 2 < Z.of_nat (size (str "123"))].
  by split; vm_compute.
split; first exact: H.
case: H => h1 h2 h3; exact: (encode_too_long false false h1 h2 h3).
Defined.

(** A word of two or more characters one of which does not stand for
    an element of the field is refused with [ValueError], by [verify] as by
    [decode]. *)
Theorem unreadable_word (q n k : Z) (mp : option Mapper) cd (s : seq ascii)
    (nostrip : bool) :
  Rscoder.__init__ q n k mp = Ok cd ->
  (1 < size s)%nat -> ~~ all (readable (mapper cd) q) s ->
  verify cd s = Raise ValueError /\ decode cd s nostrip = Raise ValueError.
Proof.
move=> /init_coder[p [alpha [mp' [[pp pq qE ra fg] [kn nq ->]]]]].
rewrite -[mapper _]/mp' {}qE in ra nq fg * => s2 nr.
have e := @symbols_Raise p pq mp' alpha n k s s2 nr.
by rewrite /verify /decode e.
Qed.

Lemma unreadable_word_witness :
  let cd := coder default_mapper 3 7 6 2 in
  [/\ Rscoder.__init__ 7 6 2 None = Ok cd, (1 < size (str "12043!"))%nat &
      ~~ all (readable (mapper cd) 7) (str "12043!")] /\
  verify cd (str "12043!") = Raise ValueError /\
  decode cd (str "12043!") false = Raise ValueError.
Proof.
move=> cd; have H : [/\ Rscoder.__init__ 7 6 2 None = Ok cd,
    (1 < size (str "12043!"))%nat &
    ~~ all (readable (mapper cd) 7) (str "12043!")] by split; vm_compute.
split; first exact: H.
case: H => h1 h2 h3; exact: (unreadable_word false h1 h2 h3).
Defined.

(** What [_chien_search] returns for a codec over a field of more than
    three elements.  The positions are the [b - 1 - l] for the [l] of
    [1 .. b-2] with [sigma(alpha^l) = 0], each once, and the locations are
    the powers of [alpha] at these positions; every position lies in
    [1 .. b-2], so that position 0, the last symbol of a word, is never
    among them. *)
Theorem chien_search_positions (q n k : Z) (mp : option Mapper) cd
    (sg : seq Z) :
  Rscoder.__init__ q n k mp = Ok cd -> q <> 3 ->
  exists X j,
    [/\ _chien_search cd sg = Ok (X, j),
        j = [seq q - 1 - l
            | l <- [seq l <- xrange 1 (q - 1)
                   | evaluate q sg (pow3 (generator cd) l q) == 0]],
        X = [seq PyPF (mkPF q (pow3 (generator cd) i q)) | i <- j],
        forall i, i \in j -> 1 <= i <= q - 2 & uniq j].
Proof.
move=> /init_coder[p [alpha [mp' [[pp pq qE ra fg] [kn nq ->]]]]].
rewrite -[generator _]/alpha {}qE in ra nq fg * => q3.
have p3 : p != 3%nat by apply/eqP => e; apply: q3; rewrite e.
have a0 := findgen_nonzero pp fg p3.
eexists; eexists; split; first exact: (chien_searchE pp pq mp' n k ra _ a0).
- by [].
- by rewrite -map_comp.
- move=> i /mapP[l]; rewrite mem_filter => /andP[_ /mem_xrange lb] ->; lia.
have inj1 : injective (fun l => Z.of_nat p - 1 - l) by move=> x y; lia.
have inj2 : injective (fun i => 1 + Z.of_nat i) by move=> x y; lia.
rewrite (map_inj_uniq inj1); apply: filter_uniq.
by rewrite /xrange range3_1 (map_inj_uniq inj2) iota_uniq.
Qed.

Lemma chien_search_positions_witness :
  let cd := coder default_mapper 3 7 6 2 in
  (Rscoder.__init__ 7 6 2 None = Ok cd /\ 7 <> 3) /\
  exists X j,
    [/\ _chien_search cd [:: 1; 4] = Ok (X, j),
        X = [seq PyPF (mkPF 7 (pow3 (generator cd) i 7)) | i <- j] &
        forall i, i \in j -> 1 <= i <= 7 - 2].
Proof.
move=> cd; have H : Rscoder.__init__ 7 6 2 None = Ok cd /\ 7 <> 3.
  by split; [vm_compute | ].
split; first exact: H.
case: H => h1 h2.
have [X [j [e _ xE jb _]]] := chien_search_positions [:: 1; 4] h1 h2.
exists X, j; split; [exact: e | exact: xE | exact: jb].
Defined.


(** Words of less than two characters.  Whatever the codec, [verify]
    and [decode] raise [TypeError] on a single character, which the mapper
    reads as a bare [int], and [IndexError] on the empty word. *)
Theorem short_words (cd : RSCoder) (c : ascii) (nostrip : bool) :
  [/\ verify cd [:: c] = Raise TypeError,
      decode cd [:: c] nostrip = Raise TypeError,
      verify cd [::] = Raise IndexError &
      decode cd [::] nostrip = Raise IndexError].
Proof.
have e1 : symbols cd [:: c] = Raise TypeError.
  by rewrite /symbols decode_str.
have e0 : symbols cd [::] = Raise IndexError.
  by rewrite /symbols decode_str.
by rewrite /verify /decode !e1 !e0.
Qed.

(** What [encode] has checked when it returns.  The codec has
    [k >= 2], and the message has at most [k] characters, each of which
    stands for an element of the field; so a codec with [k = 1] or [k = 0]
    encodes nothing. *)
Theorem encode_accepts (q n k : Z) (mp : option Mapper) cd (m : seq ascii)
    (poly nostrip : bool) (r : encoded) :
  Rscoder.__init__ q n k mp = Ok cd -> mapper_ok (mapper cd) q ->
  encode cd m poly nostrip = Ok r ->
  [/\ 2 <= k, Z.of_nat (size m) <= k & all (readable (mapper cd) q) m].
Proof.
move=> /init_coder[p [alpha [mp' [[pp pq qE ra fg] [kn nq ->]]]]].
rewrite -[mapper _]/mp' {}qE in ra nq fg * => ok en.
have [k2 sm rm] := encode_inv pp pq ok en.
by split=> //; move/leP: sm; lia.
Qed.

Lemma encode_accepts_witness :
  let cd := coder default_mapper 3 7 6 2 in
  [/\ Rscoder.__init__ 7 6 2 None = Ok cd, mapper_ok (mapper cd) 7 &
      encode cd (str "01") false false = Ok (AsStr (str "16324"))] /\
  [/\ 2 <= 2, Z.of_nat (size (str "01")) <= 2 &
      all (readable (mapper cd) 7) (str "01")].
Proof.
move=> cd; have H : [/\ Rscoder.__init__ 7 6 2 None = Ok cd,
    mapper_ok (mapper cd) 7 &
    encode cd (str "01") false false = Ok (AsStr (str "16324"))].
  by split; vm_compute.
split; first exact: H.
case: H => h1 h2 h3; exact: (encode_accepts h1 h2 h3).
Defined.

(** The order of every constructed codec is a prime number that
    [is_prime] accepts, whatever the size of [b]: [findgen] finds no
    generator for a composite number that [is_prime] lets through. *)
Theorem init_order_prime (q n k : Z) (mp : option Mapper) cd :
  Rscoder.__init__ q n k mp = Ok cd ->
  [/\ prime (Z.to_nat q), is_prime q = Ok true, b cd = q &
      exists2 alpha, findgen q = Some alpha & a cd = PyPF (mkPF q alpha)].
Proof.
move=> /init_coder[p [alpha [m [[pp pq -> _ fg] [_ _ ->]]]]].
by rewrite Nat2Z.id; split=> //; exists alpha.
Qed.

Lemma init_order_prime_witness :
  let cd := coder default_mapper 3 7 6 2 in
  Rscoder.__init__ 7 6 2 None = Ok cd /\
  [/\ prime (Z.to_nat 7), is_prime 7 = Ok true, b cd = 7 &
      exists2 alpha, findgen 7 = Some alpha & a cd = PyPF (mkPF 7 alpha)].
Proof.
move=> cd; have H : Rscoder.__init__ 7 6 2 None = Ok cd by vm_compute.
split; first exact: H.
exact: (init_order_prime H).
Defined.

(** With a mapper passed, the constructor raises [OverflowError], not
    [ValueError], for an odd [b] from [2^1024 - 2^970] on, prime or not,
    once [n] and [k] have passed their tests: [is_prime] calls
    [math.sqrt]. *)
Theorem init_overflow (q n k : Z) (m : Mapper) :
  0 <= k < n -> n < q -> 2 ^ 1024 - 2 ^ 970 <= q -> Z.odd q ->
  Rscoder.__init__ q n k (Some m) = Raise OverflowError.
Proof.
move=> kn nq big odd_q.
have := @init_is_prime q n k (Some m) kn nq.
by rewrite is_prime_overflow //; apply.
Qed.

Lemma init_overflow_witness :
  [/\ 0 <= 1 < 2, 2 < 2 ^ 1024 + 1, 2 ^ 1024 - 2 ^ 970 <= 2 ^ 1024 + 1 &
      Z.odd (2 ^ 1024 + 1)] /\
  Rscoder.__init__ (2 ^ 1024 + 1) 2 1 (Some default_mapper) = Raise OverflowError.
Proof.
have H : [/\ 0 <= 1 < 2, 2 < 2 ^ 1024 + 1,
    2 ^ 1024 - 2 ^ 970 <= 2 ^ 1024 + 1 & Z.odd (2 ^ 1024 + 1)] by split.
split; first exact: H.
case: H => h1 h2 h3 h4; exact: (init_overflow default_mapper h1 h2 h3 h4).
Defined.

(** The cache of [PFint] does not show in what the constructor returns:
    from a cache that holds residues only, [PFint.__new__] returns or
    raises what it would without a cache, and leaves a cache of residues
    that has lost nothing. *)
Theorem PFint_new_cache (c : cache) (p : Z) (n : pyobj) :
  cache_ok c ->
  [/\ (PFint_new_st c p n).1 = PFint_new p n,
      cache_ok (PFint_new_st c p n).2 &
      {subset c <= (PFint_new_st c p n).2}].
Proof.
move=> ok; rewrite /PFint_new_st /PFint_new.
case: (is_prime p) => [[]|e] /=; try by split.
have hitP z : (p, z) \in c -> (z >=? p) || (z <? 0) = false.
  move=> hit; have /= /andP[/Z.leb_le z0 /Z.ltb_lt zp] := allP ok _ hit.
  by case: (Z.geb_spec z p); case: (Z.ltb_spec z 0) => //; lia.
have newP z : (z >=? p) || (z <? 0) = false -> cache_ok ((p, z) :: c).
  case: (Z.geb_spec z p) => // zp; case: (Z.ltb_spec z 0) => // z0 _.
  apply/andP; split; last exact: ok.
  by apply/andP; split; [apply/Z.leb_le | apply/Z.ltb_lt].
have sub z : {subset c <= (p, z) :: c}.
  by move=> e; rewrite inE => ->; rewrite orbT.
case: n => [|z|[p' z]|p'] /=; try by split.
  case hit: ((p, z) \in c) => /=; first by rewrite (hitP _ hit); split.
  case rg: ((z >=? p) || (z <? 0)) => /=; first by split.
  by split; [ | exact: newP | exact: sub].
case hit: ((p, z) \in c) => /=; first by rewrite (hitP _ hit); split.
case rg: ((z >=? p) || (z <? 0)) => /=; first by split.
by split; [ | exact: newP | exact: sub].
Qed.

Lemma PFint_new_cache_witness :
  cache_ok [:: (59, 1)] /\
  (PFint_new_st [:: (59, 1)] 59 (PyInt 2)).1 = PFint_new 59 (PyInt 2).
Proof.
have H : cache_ok [:: (59, 1)] by [].
split; first exact: H.
by have [e _ _] := PFint_new_cache 59 (PyInt 2) H.
Defined.

End CodecLaws.

(* ===================================================================== *)
(** ** rscoder.py: valid words and the default round trip *)
(* ===================================================================== *)

Section DecodeLaws.

Local Open Scope Z_scope.

(** A word that verifies is taken as it is.  [decode] returns it without
    its last [n - k] symbols, after stripping the leading zero symbols
    unless [nostrip] is set; nothing is corrected. *)
Theorem decode_valid (q n k : Z) (mp : option Mapper) cd (r : seq ascii)
    (nostrip : bool) :
  Rscoder.__init__ q n k mp = Ok cd -> verify cd r = Ok true ->
  decode cd r nostrip =
    if nostrip then Ok (take (size r - Z.to_nat (n - k)) r)
    else strip (mapper cd) (take (size r - Z.to_nat (n - k)) r).
Proof.
move=> /init_coder[p [alpha [mp' [[pp pq qE ra fg] [kn nq ->]]]]] vr.
by rewrite (decode_verified pq _ vr).
Qed.

Lemma decode_valid_witness :
  let cd := coder default_mapper 3 7 6 2 in
  (Rscoder.__init__ 7 6 2 None = Ok cd /\
   verify cd (str "025641") = Ok true) /\
  decode cd (str "025641") false = Ok (str "2").
Proof.
move=> cd; have H : Rscoder.__init__ 7 6 2 None = Ok cd /\
                    verify cd (str "025641") = Ok true by split; vm_compute.
split; first exact: H.
by case: H => h1 h2; rewrite (decode_valid false h1 h2).
Defined.

(** The round trip with the default arguments.  For a message of the
    mapper's symbols whose codeword keeps at least two symbols, decoding
    what [encode] returns gives the message without its leading zero
    symbols. *)
Theorem roundtrip_default (q n k : Z) (mp : option Mapper) cd
    (m cw : seq ascii) :
  Rscoder.__init__ q n k mp = Ok cd -> mapper_ok (mapper cd) q ->
  all (symbol (mapper cd) q) m ->
  encode cd m false false = Ok (AsStr cw) -> (1 < size cw)%nat ->
  decode cd cw false = strip (mapper cd) m.
Proof.
move=> /init_coder[p [alpha [mp' [[pp pq qE ra fg] [kn nq ->]]]]].
rewrite -[mapper _]/mp' {}qE in ra nq fg * => ok sym en c2.
have [k2 sm rm] := encode_inv pp pq ok en.
have q0 : 0 < Z.of_nat p by lia.
move: en; rewrite (encode_plain_str pp pq alpha ok kn k2 sm rm) => /Ok_AsStr_inj cwE.
set m' := rjust m k (chr mp' 0) in cwE.
have sm' : size m' = Z.to_nat k by rewrite size_rjust.
have sym' : all (symbol mp' (Z.of_nat p)) m'.
  rewrite /m' /rjust all_cat sym andbT; apply/allP => c /nseqP[-> _].
  by apply: (symbol_chr ok); apply/residue_bounds; lia.
have := @take_word p pp pq mp' alpha n k kn m' sm' sym'.
rewrite cwE => tk.
have vr : verify (coder mp' alpha (Z.of_nat p) n k) cw = Ok true.
  by rewrite -cwE; apply: verify_chars => //; rewrite -(size_map (chr mp')) cwE.
have sz' : (size [seq ord mp' x | x <- m'] <= Z.to_nat k)%nat.
  by rewrite size_map sm'.
have szc : (size cw <= Z.to_nat n)%nat.
  by rewrite -cwE size_map; apply: size_code_poly.
rewrite (decode_verified pq _ vr) !(strip_Ok ok _ q0).
congr Ok; rewrite /drop_last.
have -> : lstrip m (chr mp' 0) = lstrip m' (chr mp' 0).
  by rewrite /m' /rjust lstrip_nseq.
rewrite -tk /rjust take_cat size_nseq.
case: ltnP => lt.
  have -> : (size cw - Z.to_nat (n - k) = 0)%nat.
    by apply/eqP; rewrite subn_eq0; apply/leP; move/ltP: lt; rewrite -minusE; lia.
  rewrite take0 (take_nseq _ (ltnW lt)).
  by rewrite -[nseq _ _]cats0 lstrip_nseq.
rewrite lstrip_nseq; congr (lstrip (take _ _) _).
by move/leP: lt; move/leP: szc; rewrite -!minusE; lia.
Qed.

Lemma roundtrip_default_witness :
  let cd := coder default_mapper 3 7 6 2 in
  [/\ Rscoder.__init__ 7 6 2 None = Ok cd, mapper_ok (mapper cd) 7,
      all (symbol (mapper cd) 7) (str "01"),
      encode cd (str "01") false false = Ok (AsStr (str "16324")) &
      (1 < size (str "16324"))%nat] /\
  decode cd (str "16324") false = Ok (str "1").
Proof.
move=> cd; have H : [/\ Rscoder.__init__ 7 6 2 None = Ok cd,
    mapper_ok (mapper cd) 7, all (symbol (mapper cd) 7) (str "01"),
    encode cd (str "01") false false = Ok (AsStr (str "16324")) &
    (1 < size (str "16324"))%nat] by split; vm_compute.
split; first exact: H.
by case: H => h1 h2 h3 h4 h5; rewrite (roundtrip_default h1 h2 h3 h4 h5).
Defined.

End DecodeLaws.

(* ===================================================================== *)
(** ** rscoder.py: [_forney] *)
(* ===================================================================== *)

Lemma sub_PF (p a b : Z) :
  is_prime p = Ok true ->
  __sub__ (mkPF p a) (PyPF (mkPF p b)) = Ok (PyPF (mkPF p ((a - b) mod p))).
Proof. by move=> pp; rewrite /__sub__ /coerce /= eqxx /= PFint_new_mod. Qed.

Section Forney.

Variable p : nat.
Hypothesis pp : prime p.
Hypothesis pq : accepted (Z.of_nat p).

Local Notation q := (Z.of_nat p).
Local Notation F := (toF p).
Local Notation T := (toP p).


Variables (omega xs : seq Z).
Hypothesis xs_ok : all (fun x => (0 <? x)%Z && (x <? q)%Z) xs.
Hypothesis xs_uniq : uniq xs.

Import GRing.Theory.
Local Open Scope ring_scope.

Local Notation X := [seq PyPF (mkPF q x) | x <- xs].
Local Notation x_ l := (nth 0%Z xs l).

Lemma forney_x l : (l < size xs)%nat -> (0 < x_ l < q)%Z.
Proof.
by move=> lt; have /andP[/Z.ltb_lt ? /Z.ltb_lt ?] := all_nthP 0%Z xs_ok l lt.
Qed.

Lemma forney_Fx l : (l < size xs)%nat -> F (x_ l) != 0.
Proof.
move=> /forney_x xb; have rx : residue q (x_ l) by apply/residue_bounds; lia.
by rewrite (toF_eq0 pp rx); apply/eqP; lia.
Qed.

Lemma forney_inverse l :
  (l < size xs)%nat ->
  inverse (mkPF q (x_ l)) = Ok (PyPF (mkPF q (finv q (x_ l)))).
Proof. by move=> /forney_x xb; rewrite (inverse_nonzero pq xb). Qed.

(** The product in the denominator, up to the turn [t] of the inner
    loop. *)
Lemma forney_prod (l t : nat) :
  (l < size xs)%nat -> (t <= size xs)%nat ->
  exists pv,
    [/\ foldM (fun prod ji =>
          if ji != Z.of_nat l then
            bind (getitem X ji) (fun Xji => bind (as_PF Xji) (fun Xji =>
            bind (inverse (mkPF q (x_ l))) (fun i =>
            bind (__mul__ Xji i) (fun t =>
            bind (PFint_new q (PyInt 1)) (fun one =>
            bind (as_PF one) (fun one =>
            bind (__sub__ one t) (fun d =>
            bind (as_PF prod) (fun prod => __mul__ prod d))))))))
          else Ok prod)
          (PyPF (mkPF q 1)) (xrange 0 (Z.of_nat t)) = Ok (PyPF (mkPF q pv)),
        residue q pv &
        F pv = \prod_(ji <- iota 0 t | ji != l) (1 - F (x_ ji) / F (x_ l))].
Proof.
move=> ll; have ppq := pq; have q1 := P_gt1 pp.
elim: t => [|t IH] tl.
  have -> : xrange 0 (Z.of_nat 0) = [::] by apply: xrange_nil.
  by exists 1%Z; rewrite big_nil (toF1 pp); split=> //; apply: residue_1.
have [pv [e rpv Fpv]] := IH (ltnW tl).
have -> : Z.of_nat t.+1 = (Z.of_nat t + 1)%Z by lia.
have -> : xrange 0 (Z.of_nat t + 1) = rcons (xrange 0 (Z.of_nat t)) (Z.of_nat t).
  by apply: xrange_rcons; lia.
have -> : iota 0 t.+1 = rcons (iota 0 t) t.
  by rewrite -[t.+1]addn1 iotaD add0n /= cats1.
have -> : \prod_(ji <- rcons (iota 0 t) t | ji != l)
             (1 - F (x_ ji) / F (x_ l)) =
          (\prod_(ji <- iota 0 t | ji != l) (1 - F (x_ ji) / F (x_ l))) *
          (if t != l then 1 - F (x_ t) / F (x_ l) else 1).
  by rewrite big_rcons.
rewrite foldM_rcons e bind_Ok.
have -> : (Z.of_nat t != Z.of_nat l) = (t != l).
  by apply/idP/idP; apply: contra => /eqP tlE; apply/eqP;
     [rewrite tlE | apply: Nat2Z.inj].
case tl': (t == l); rewrite [~~ _]/=.
  by exists pv; rewrite mulr1.
have tb : (0 <= Z.of_nat t < Z.of_nat (size X))%Z.
  by rewrite size_map; move/ltP: tl; lia.
rewrite (getitem_nth PyNone tb) Nat2Z.id (nth_map 0%Z) // !bind_Ok.
rewrite [as_PF _]/= (forney_inverse ll) bind_Ok mul_PF // bind_Ok.
rewrite (PFint_new_int _ ppq).
have -> : (0 <=? 1)%Z && (1 <? q)%Z = true.
  by apply/andP; split; [|apply/Z.ltb_lt].
rewrite bind_Ok [as_PF _]/= bind_Ok sub_PF // !bind_Ok mul_PF //.
eexists; split; [reflexivity | exact: residue_mod |].
rewrite (toF_mod pp) (toFM pp) Fpv (toF_mod pp) (toFB pp) (toF1 pp).
by rewrite (toF_mod pp) (toFM pp) (toF_finv pp) // forney_Fx.
Qed.


Lemma forney_prod_neq0 (l : nat) :
  (l < size xs)%nat ->
  \prod_(ji <- iota 0 (size xs) | ji != l) (1 - F (x_ ji) / F (x_ l)) != 0.
Proof.
move=> ll; rewrite prodf_seq_neq0; apply/allP => ji.
rewrite mem_iota add0n /= => jl; apply/implyP => ne.
rewrite subr_eq0 eq_sym; apply/negP => /eqP e.
have : F (x_ ji) = F (x_ l).
  by rewrite -[LHS](divfK (forney_Fx ll)) e mul1r.
have rx i : (i < size xs)%nat -> residue q (x_ i).
  by move=> /forney_x xb; apply/residue_bounds; lia.
move=> /(residue_inj pp (rx _ jl) (rx _ ll)) /eqP.
by rewrite nth_uniq // (negbTE ne).
Qed.

Lemma forney_zip :
  zip (range (Z.of_nat (size X))) X =
  [seq (Z.of_nat l, PyPF (mkPF q (x_ l))) | l <- iota 0 (size xs)].
Proof.
have rE : range (Z.of_nat (size X)) = [seq Z.of_nat i | i <- iota 0 (size xs)].
  rewrite size_map /range range3_1 Z.sub_0_r Nat2Z.id.
  by apply: eq_map => i.
apply: (@eq_from_nth _ (0%Z, PyNone)).
  by rewrite size_zip rE !size_map size_iota minnn.
move=> i; rewrite size_zip rE !size_map size_iota minnn => lt.
rewrite nth_zip ?size_map ?size_iota // (nth_map 0%nat) ?size_iota //.
by rewrite (nth_map 0%Z) // (nth_map 0%nat) ?size_iota // nth_iota.
Qed.

Lemma forney_loop (t : nat) :
  (t <= size xs)%nat ->
  exists ys,
    [/\ foldM (fun Y lXl =>
          let: (l, Xl) := lXl in
          bind (as_PF Xl) (fun Xl =>
          bind (val (inverse Xl)) (fun xi =>
          let Yl := mkPF q (evaluate q omega xi) in
          bind (PFint_new q (PyInt 1)) (fun prod =>
          bind (foldM (fun prod ji =>
                  if ji != l then
                    bind (getitem X ji) (fun Xji =>
                    bind (as_PF Xji) (fun Xji =>
                    bind (inverse Xl) (fun i =>
                    bind (__mul__ Xji i) (fun t =>
                    bind (PFint_new q (PyInt 1)) (fun one =>
                    bind (as_PF one) (fun one =>
                    bind (__sub__ one t) (fun d =>
                    bind (as_PF prod) (fun prod => __mul__ prod d))))))))
                  else Ok prod)
                prod (xrange 0 (Z.of_nat (size X)))) (fun prod =>
          bind (as_PF prod) (fun prod =>
          bind (inverse prod) (fun i =>
          bind (__mul__ Yl i) (fun Yl => Ok (rcons Y Yl)))))))))
          [::] [seq (Z.of_nat l, PyPF (mkPF q (x_ l))) | l <- iota 0 t]
        = Ok [seq PyPF (mkPF q y) | y <- ys],
        size ys = t, all (residue q) ys &
        forall l, (l < t)%nat ->
          F (nth 0%Z ys l) =
          (T omega).[(F (x_ l))^-1] /
          \prod_(ji <- iota 0 (size xs) | ji != l) (1 - F (x_ ji) / F (x_ l))].
Proof.
have ppq := pq; have q1 := P_gt1 pp.
elim: t => [|t IH] tl; first by exists [::].
have [ys [e sz rys Fys]] := IH (ltnW tl).
have -> : iota 0 t.+1 = rcons (iota 0 t) t.
  by rewrite -[t.+1]addn1 iotaD add0n /= cats1.
rewrite map_rcons foldM_rcons e bind_Ok [as_PF _]/= bind_Ok.
rewrite {1}(forney_inverse tl) /val !bind_Ok [pf_v _]/=.
have one : PFint_new q (PyInt 1) = Ok (PyPF (mkPF q 1)).
  rewrite (PFint_new_int _ ppq).
  by have -> : (0 <=? 1)%Z && (1 <? q)%Z = true; [apply/andP; split; [|apply/Z.ltb_lt] |].
rewrite {1}one bind_Ok size_map.
have [pv [-> rpv Fpv]] := forney_prod tl (leqnn (size xs)).
rewrite bind_Ok [as_PF _]/= bind_Ok.
have pv0 : F pv != 0 by rewrite Fpv forney_prod_neq0.
have pvb : (0 < pv < q)%Z.
  have /residue_bounds[lo hi] := rpv; split=> //.
  by move: pv0; rewrite (toF_eq0 pp rpv) => /eqP; lia.
rewrite (inverse_nonzero ppq pvb) bind_Ok mul_PF // bind_Ok -map_rcons.
eexists; split; first reflexivity.
- by rewrite size_rcons sz.
- by rewrite all_rcons rys andbT; apply: residue_mod.
move=> l; rewrite ltnS leq_eqVlt nth_rcons sz => /orP[/eqP->|lt].
  rewrite ltnn eqxx (toF_mod pp) (toFM pp) (toF_evaluate pp).
  by rewrite -/(finv q pv) !(toF_finv pp) ?forney_Fx // Fpv.
by rewrite lt; apply: Fys.
Qed.

End Forney.

Section ForneyLaws.

Import GRing.Theory.
Local Open Scope ring_scope.

(** [_forney] on distinct nonzero locations.  It returns one magnitude
    per location, [omega(1/X_l)] divided by the product of the
    [1 - X_ji / X_l] over the other locations, and raises nothing. *)
Theorem forney_magnitudes (q n k : Z) (mp : option Mapper) cd
    (omega xs : seq Z) :
  Rscoder.__init__ q n k mp = Ok cd ->
  all (fun x => (0 <? x)%Z && (x <? q)%Z) xs -> uniq xs ->
  let F := toF (Z.to_nat q) in
  exists ys,
    [/\ _forney cd omega [seq PyPF (mkPF q x) | x <- xs] =
          Ok [seq PyPF (mkPF q y) | y <- ys],
        size ys = size xs, all (residue q) ys &
        forall l, (l < size xs)%nat ->
          F (nth 0%Z ys l) =
          (toP (Z.to_nat q) omega).[(F (nth 0%Z xs l))^-1] /
          \prod_(ji <- iota 0 (size xs) | ji != l)
             (1 - F (nth 0%Z xs ji) / F (nth 0%Z xs l))].
Proof.
move=> /init_coder[p [alpha [mp' [[pp pq qE ra fg] [kn nq ->]]]]].
rewrite {}qE Nat2Z.id in ra nq fg * => xs_ok xs_uniq F.
have [ys [e sz rys Fys]] := forney_loop pp pq omega xs_ok xs_uniq (leqnn (size xs)).
exists ys; split=> //.
by rewrite /_forney -[b _]/(Z.of_nat p) forney_zip.
Qed.

Lemma forney_magnitudes_witness :
  let cd := coder default_mapper 3 7 6 2 in
  [/\ Rscoder.__init__ 7 6 2 None = Ok cd,
      all (fun x => (0 <? x)%Z && (x <? 7)%Z) [:: 3; 5]%Z &
      uniq [:: 3; 5]%Z] /\
  exists ys,
    _forney cd [:: 2; 1]%Z [seq PyPF (mkPF 7 x) | x <- [:: 3; 5]%Z] =
      Ok [seq PyPF (mkPF 7 y) | y <- ys] /\
    size ys = 2%nat.
Proof.
move=> cd; have H : [/\ Rscoder.__init__ 7 6 2 None = Ok cd,
    all (fun x => (0 <? x)%Z && (x <? 7)%Z) [:: 3; 5]%Z &
    uniq [:: 3; 5]%Z] by split; vm_compute.
split; first exact: H.
case: H => h1 h2 h3.
have [ys [e sz _ _]] := forney_magnitudes [:: 2; 1]%Z h1 h2 h3.
exists ys; split; [exact: e | exact: sz].
Defined.


(** The locations [_chien_search] finds are distinct and nonzero, so
    that [_forney] accepts them: over a field of more than three elements
    the two steps of [decode] succeed one after the other, with one
    magnitude for each position found. *)
Theorem chien_forney_compose (q n k : Z) (mp : option Mapper) cd
    (sg omega : seq Z) :
  Rscoder.__init__ q n k mp = Ok cd -> q <> 3%Z ->
  exists X j Y,
    [/\ _chien_search cd sg = Ok (X, j), _forney cd omega X = Ok Y,
        size X = size j & size Y = size j].
Proof.
move=> /init_coder[p [alpha [mp' [[pp pq qE ra fg] [kn nq ->]]]]].
rewrite {}qE in ra nq fg * => q3.
have p3 : p != 3%nat by apply/eqP => e; apply: q3; rewrite e.
have a0 := findgen_nonzero pp fg p3.
have ppq := pq; have q1 := P_gt1 pp.
have ab : (0 < alpha < Z.of_nat p)%Z.
  have /residue_bounds[lo hi] := ra; split=> //.
  by move: a0; rewrite (toF_eq0 pp ra) => /eqP; lia.
set ls := [seq l <- xrange 1 (Z.of_nat p - 1)
          | evaluate (Z.of_nat p) sg (pow3 alpha l (Z.of_nat p)) == 0%Z].
pose j := [seq (Z.of_nat p - 1 - l)%Z | l <- ls].
pose xs := [seq pow3 alpha i (Z.of_nat p) | i <- j].
have jb i : i \in j -> (1 <= i <= Z.of_nat p - 2)%Z.
  by move=> /mapP[l]; rewrite mem_filter => /andP[_ /mem_xrange lb] ->; lia.
have xs_ok : all (fun x => (0 <? x)%Z && (x <? Z.of_nat p)%Z) xs.
  apply/allP => x /mapP[i /jb ib ->].
  have [lo hi] : (0 < pow3 alpha i (Z.of_nat p) < Z.of_nat p)%Z.
    have pr : prime (Z.to_nat (Z.of_nat p)) by rewrite Nat2Z.id.
    by apply: (pow3_nonzero pr pq ab); lia.
  by apply/andP; split; apply/Z.ltb_lt.
have uj : uniq j.
  have inj1 : injective (fun l => Z.of_nat p - 1 - l)%Z by move=> x y; lia.
  have inj2 : injective (fun i => 1 + Z.of_nat i)%Z by move=> x y; lia.
  rewrite (map_inj_uniq inj1); apply: filter_uniq.
  by rewrite /xrange range3_1 (map_inj_uniq inj2) iota_uniq.
have xs_uniq : uniq xs.
  rewrite map_inj_in_uniq // => i i' /jb ib /jb ib' e.
  have Fi x : (0 <= x)%Z ->
      toF p (pow3 alpha x (Z.of_nat p)) = toF p alpha ^+ Z.to_nat x.
    move=> x0; rewrite /pow3 (toF_mod pp).
    have {1}-> : x = Z.of_nat (Z.to_nat x) by lia.
    by rewrite (toF_exp pp).
  have Fe : toF p alpha ^+ Z.to_nat i = toF p alpha ^+ Z.to_nat i'.
    have i0 : (0 <= i)%Z by lia.
    have i0' : (0 <= i')%Z by lia.
    by rewrite -(Fi _ i0) -(Fi _ i0') e.
  have := findgen_inj pp fg a0 _ _ Fe.
  have lt x : (1 <= x <= Z.of_nat p - 2)%Z -> (Z.to_nat x < p.-1)%nat.
    by move=> xb; apply/ltP; rewrite -subn1 -minusE; lia.
  by move=> /(_ (lt _ ib) (lt _ ib')); lia.
have [ys [e sz rys _]] := forney_loop pp pq omega xs_ok xs_uniq (leqnn (size xs)).
exists [seq PyPF (mkPF (Z.of_nat p) x) | x <- xs], j,
       [seq PyPF (mkPF (Z.of_nat p) y) | y <- ys]; split.
- by rewrite (chien_searchE pp pq mp' n k ra _ a0) -/ls /xs /j -!map_comp.
- by rewrite /_forney -[b _]/(Z.of_nat p) forney_zip.
- by rewrite !size_map.
- by rewrite size_map sz !size_map.
Qed.

Lemma chien_forney_compose_witness :
  let cd := coder default_mapper 3 7 6 2 in
  (Rscoder.__init__ 7 6 2 None = Ok cd /\ 7%Z <> 3%Z) /\
  exists X j Y,
    [/\ _chien_search cd [:: 1; 4]%Z = Ok (X, j),
        _forney cd [:: 2; 1]%Z X = Ok Y,
        size X = size j & size Y = size j].
Proof.
move=> cd; have H : Rscoder.__init__ 7 6 2 None = Ok cd /\ 7%Z <> 3%Z.
  by split; [vm_compute | ].
split; first exact: H.
case: H => h1 h2; exact: (chien_forney_compose [:: 1; 4]%Z [:: 2; 1]%Z h1 h2).
Defined.

End ForneyLaws.
